(** * Descartes ladder-graph planner: the planner facade and its edge builder

    A shallow embedding of [descartes_planner/src/planning_graph.cpp]
    (class [PlanningGraph]) together with the collaborators it drives: the
    ladder graph, the kinematics oracle, the trajectory points and the
    layered shortest-path search.

    Conventions.
    - [double] is IEEE-754 binary64, Rocq's primitive [float]; sums are the
      accumulations the code performs, in the code's order.
    - [std::size_t] values are [nat]; the one place where the code lets a
      [size_t] go below zero is written out with [SIZE_MAX].
    - [unsigned] is 32 bits wide and wraps: [uint_succ].
    - A C++ access outside a vector, a division by zero or a violated
      precondition of a collaborator has no defined result: the embedding
      returns [None] there.
    - Calls to the kinematics oracle are recorded in a log, so that
      "the oracle is (not) queried" is a statement about that log. *)

From Stdlib Require Import ZArith NArith Lia Floats.
From stdpp Require Import base option list.

Local Open Scope nat_scope.

(** ** Numbers *)

(** [double]: IEEE-754 binary64. *)
Abbreviation double := float.

(** [std::numeric_limits<double>::infinity()] *)
Definition d_infinity : double := infinity.

Definition d_zero : double := 0%float.

(** [operator!=] on doubles: IEEE comparison, true when either side is a NaN. *)
Definition d_neq (x y : double) : bool := negb (PrimFloat.eqb x y).

(** IEEE finiteness: neither an infinity nor a NaN. *)
Definition d_finite (x : double) : bool :=
  match classify x with
  | PInf | NInf | NaN => false
  | _ => true
  end.

(** Largest [std::size_t], 2^64 - 1; what [0 - 1] evaluates to on a
    [size_t]. *)
Abbreviation SIZE_MAX := (N.to_nat 18446744073709551615).

(** [n - 1] on [std::size_t]. *)
Definition size_pred (n : nat) : nat :=
  match n with
  | O => SIZE_MAX
  | S m => m
  end.

(** [x++] on an [unsigned]. *)
Definition uint_succ (x : N) : N := ((x + 1) mod 4294967296)%N.

(** ** Collaborators of the facade *)

(** Modelled from the spec: the waypoint identity of [TrajectoryPt::ID]
    (its header is not among the sources), "a 128-bit universally-unique
    value; the reserved all-zero value denotes no such neighbor". *)
Definition ID : Type := N.

Definition is_nil (id : ID) : bool := (id =? 0)%N.

(** Modelled from the spec: [TimingConstraint] (declared outside the
    sources), "{specified?: bool, upper: seconds}". *)
Record TimingConstraint : Type := mkTiming {
  isSpecified : bool;
  upper : double
}.

(** Modelled from the spec: the kinematics oracle [RobotModel] (declared
    outside the sources) with [dof()] and [is_valid_move(from, to, dt)].
    The two joint configurations are passed as the [getDOF] values the C++
    pointers designate. *)
Record RobotModel : Type := mkRobotModel {
  getDOF : nat;
  isValidMove : list double -> list double -> double -> bool
}.

(** Modelled from the spec: the waypoint contract [TrajectoryPt] (declared
    outside the sources), "id(), timing(), joint_poses(oracle) -> list of
    joint configurations". *)
Record TrajectoryPt : Type := mkTrajectoryPt {
  getID : ID;
  getTiming : TimingConstraint;
  getJointPoses : RobotModel -> list (list double)
}.

(** One query of the oracle. *)
Inductive OracleCall : Type :=
  | JointPosesCall (point : TrajectoryPt)
  | ValidMoveCall (from_joints to_joints : list double) (dt : double).

(** Modelled from the spec: [LadderGraph::Edge] (declared outside the
    sources), "{cost, to_index: integer offset into the next rung's vertex
    list}"; the facade fills it from a [double] and an [unsigned]. *)
Record Edge : Type := mkEdge {
  cost : double;
  to_index : N
}.

Abbreviation EdgeList := (list Edge).

(** ** Loops *)

(** A [for] loop over the values [xs] whose body may fail. *)
Fixpoint for_each {S A : Type} (body : A -> S -> option S) (xs : list A) (s : S)
  : option S :=
  match xs with
  | [] => Some s
  | x :: rest =>
      match body x s with
      | Some s' => for_each body rest s'
      | None => None
      end
  end.

(** The values taken by [i] in [for (i = 0; i < stop; i += step)], for a
    positive [step]. *)
Definition strided (stop step : nat) : list nat :=
  (fun q => q * step) <$> seq 0 ((stop + step - 1) / step).

(** The [dof] values read through the pointer [v.data() + off]. *)
Definition joints_at (v : list double) (off dof : nat) : option (list double) :=
  if decide (off + dof <= length v) then Some (take dof (drop off v)) else None.

(** ** The edge builder: [PlanningGraph::calculateEdgeWeights] *)

(** Variables of the two nested loops: [count], [idx], [edge_scratch], and
    the oracle calls made so far. *)
Record Scan : Type := mkScan {
  count : nat;
  idx : N;
  edge_scratch : EdgeList;
  calls : list OracleCall
}.

Section EdgeBuilder.

Variable robot_model_ : RobotModel.
Variable custom_cost_function_ : option (list double -> list double -> double).

(** [cost = 0.0; for (k = 0; k < dof; ++k)
       cost += std::abs(start_joints[i + k] - end_joints[j + k]);] *)
Definition default_cost (start_joints end_joints : list double) (i j dof : nat)
  : option double :=
  for_each
    (fun k c =>
       a ← start_joints !! (i + k);
       b ← end_joints !! (j + k);
       Some (c + abs (a - b))%float)
    (seq 0 dof) d_zero.

(** The cost of the pair: the registered callback if there is one, the
    default otherwise. *)
Definition pair_cost (start_joints end_joints : list double) (i j dof : nat)
  : option double :=
  match custom_cost_function_ with
  | Some user =>
      a ← joints_at start_joints i dof;
      b ← joints_at end_joints j dof;
      Some (user a b)
  | None => default_cost start_joints end_joints i j dof
  end.

(** Body of the loop over [j]. *)
Definition to_rung_step (start_joints end_joints : list double) (dof : nat)
    (tm : TimingConstraint) (i j : nat) (st : Scan) : option Scan :=
  checked ←
    (if isSpecified tm then
       a ← joints_at start_joints i dof;
       b ← joints_at end_joints j dof;
       Some (isValidMove robot_model_ a b (upper tm),
             calls st ++ [ValidMoveCall a b (upper tm)])
     else Some (true, calls st));
  if negb checked.1 then
    Some (mkScan (count st) (uint_succ (idx st)) (edge_scratch st) checked.2)
  else
    c ← pair_cost start_joints end_joints i j dof;
    if decide (count st < length (edge_scratch st)) then
      Some (mkScan (S (count st)) (uint_succ (idx st))
              (<[count st := mkEdge c (idx st)]> (edge_scratch st)) checked.2)
    else None.

(** Loop state of the loop over [i]: [edges], [edge_scratch] and the log. *)
Definition from_rung_step (start_joints end_joints : list double) (dof : nat)
    (tm : TimingConstraint) (i : nat)
    (st : list EdgeList * EdgeList * list OracleCall)
  : option (list EdgeList * EdgeList * list OracleCall) :=
  let '(edges, scratch, log) := st in
  sc ← for_each (to_rung_step start_joints end_joints dof tm i)
         (strided (length end_joints) dof) (mkScan 0 0%N scratch log);
  if decide (i / dof < length edges) then
    Some (<[i / dof := take (count sc) (edge_scratch sc)]> edges,
          edge_scratch sc, calls sc)
  else None.

Definition calculateEdgeWeights (start_joints end_joints : list double)
    (dof : nat) (tm : TimingConstraint)
  : option (list EdgeList * list OracleCall) :=
  if decide (dof = 0) then None
  else
    let from_size := length start_joints in
    let to_size := length end_joints in
    let n_start_points := from_size / dof in
    let n_end_points := to_size / dof in
    let edges : list EdgeList := replicate n_start_points [] in
    let edge_scratch : EdgeList := replicate n_end_points (mkEdge d_zero 0%N) in
    st ← for_each (from_rung_step start_joints end_joints dof tm)
           (strided from_size dof) (edges, edge_scratch, []);
    Some (st.1.1, st.2).

End EdgeBuilder.

(** ** What the edge builder computes *)

(** The [n]-th joint configuration of a flat joint array. *)
Definition vertex_at (v : list double) (dof n : nat) : list double :=
  take dof (drop (n * dof) v).

(** L1 distance of two joint configurations, accumulated from [0.0] in
    joint order: [((0 + |a0 - b0|) + |a1 - b1|) + ...]. *)
Definition l1_distance (a b : list double) : double :=
  foldl (fun c p => (c + abs (p.1 - p.2))%float) d_zero (zip a b).

Section EdgeBuilderSpec.

Variable robot_model_ : RobotModel.
Variable custom_cost_function_ : option (list double -> list double -> double).

(** The pair passes the move check of the loop body. *)
Definition permitted (tm : TimingConstraint) (a b : list double) : bool :=
  negb (isSpecified tm && negb (isValidMove robot_model_ a b (upper tm))).

Definition cost_of (a b : list double) : double :=
  match custom_cost_function_ with
  | Some user => user a b
  | None => l1_distance a b
  end.

(** Among the first [m] destination vertices, those for which the loop
    body emits an edge out of source vertex [i], in enumeration order. *)
Definition permitted_destinations (start_joints end_joints : list double) (dof : nat)
    (tm : TimingConstraint) (i m : nat) : list nat :=
  List.filter
    (fun j => permitted tm (vertex_at start_joints dof i) (vertex_at end_joints dof j))
    (seq 0 m).

(** Edges emitted for source vertex [i] after the first [m] destinations. *)
Definition emitted (start_joints end_joints : list double) (dof : nat)
    (tm : TimingConstraint) (i m : nat) : EdgeList :=
  (fun j => mkEdge (cost_of (vertex_at start_joints dof i) (vertex_at end_joints dof j))
              (N.of_nat j mod 4294967296)%N)
    <$> permitted_destinations start_joints end_joints dof tm i m.

(** Oracle calls made for source vertex [i] over the first [m] destinations. *)
Definition move_calls (start_joints end_joints : list double) (dof : nat)
    (tm : TimingConstraint) (i m : nat) : list OracleCall :=
  if isSpecified tm then
    (fun j => ValidMoveCall (vertex_at start_joints dof i) (vertex_at end_joints dof j)
                (upper tm)) <$> seq 0 m
  else [].

(** Edges and calls after the first [m] source vertices, for [n_to]
    destination vertices. *)
Definition built_edges (start_joints end_joints : list double) (dof n_to : nat)
    (tm : TimingConstraint) (m : nat) : list EdgeList :=
  (fun i => emitted start_joints end_joints dof tm i n_to) <$> seq 0 m.

Definition built_calls (start_joints end_joints : list double) (dof n_to : nat)
    (tm : TimingConstraint) (m : nat) : list OracleCall :=
  concat ((fun i => move_calls start_joints end_joints dof tm i n_to) <$> seq 0 m).

(** Invariant of the loop over [j], before destination [m]. *)
Definition scan_inv (start_joints end_joints : list double) (dof n_to : nat)
    (tm : TimingConstraint) (i m : nat) (log0 : list OracleCall) (st : Scan) : Prop :=
  count st = length (emitted start_joints end_joints dof tm i m) /\
  idx st = (N.of_nat m mod 4294967296)%N /\
  length (edge_scratch st) = n_to /\
  take (count st) (edge_scratch st) = emitted start_joints end_joints dof tm i m /\
  calls st = log0 ++ move_calls start_joints end_joints dof tm i m.

End EdgeBuilderSpec.

(** ** The ladder graph *)

(** The class [LadderGraph] lives in [descartes_planner/ladder_graph.h],
    which is not among the sources: its operations follow the specification
    of the ladder graph. The edge block out of rung [i] is kept with rung
    [i]; the block kept with the last rung is not part of the graph. *)
Module LadderGraph.

(** Modelled from the spec: a rung "{waypoint_id, timing, joint_data}"
    where "joint_data is a flat sequence of length N·DOF", together with
    the "sequence of EdgeLists (one per vertex in that rung)" towards the
    next rung. *)
Record Rung : Type := mkRung {
  id : ID;
  timing : TimingConstraint;
  data : list double;
  edges : list EdgeList
}.

(** Modelled from the spec: "an ordered sequence of Rungs" and a [DOF]
    that is "immutable for the graph's lifetime". *)
Record t : Type := mk {
  dof_ : nat;
  rungs_ : list Rung
}.

(** Modelled from the spec: the rung that [insert_rung] and [allocate]
    create, "an empty rung": no waypoint, unspecified timing, no vertex,
    no edge. *)
Definition empty_rung : Rung := mkRung 0%N (mkTiming false d_zero) [] [].

Definition with_rungs (g : t) (rs : list Rung) : t := mk (dof_ g) rs.

Definition set_data (d : list double) (r : Rung) : Rung :=
  mkRung (id r) (timing r) d (edges r).

Definition set_edges (es : list EdgeList) (r : Rung) : Rung :=
  mkRung (id r) (timing r) (data r) es.

(** Modelled from the spec: [dof()]. *)
Definition dof (g : t) : nat := dof_ g.

(** Modelled from the spec: [size()], the number of rungs. *)
Definition size (g : t) : nat := length (rungs_ g).

(** Modelled from the spec: [rung(i)], a read accessor; no rung, no
    result. *)
Definition getRung (g : t) (i : nat) : option Rung := rungs_ g !! i.

(** Modelled from the spec: the vertex count [N] of a rung whose joint
    data has length [N·DOF]. *)
Definition rungSize (g : t) (r : Rung) : nat := length (data r) / dof_ g.

(** Modelled from the spec: [is_first(i)] and [is_last(i)]. *)
Definition isFirst (i : nat) : bool := i =? 0.

Definition isLast (g : t) (i : nat) : bool := i + 1 =? size g.

Fixpoint find_id (wanted : ID) (rs : list Rung) (i : nat) : nat * bool :=
  match rs with
  | [] => (0, false)
  | r :: rest =>
      if (id r =? wanted)%N then (i, true) else find_id wanted rest (S i)
  end.

(** Modelled from the spec: [index_of(id) -> (position, present?)], with
    "index_of(id).present iff a rung with that id exists"; the position of
    an absent id is never read by the facade. *)
Definition indexOf (g : t) (wanted : ID) : nat * bool :=
  find_id wanted (rungs_ g) 0.

(** Modelled from the spec: [vertex(rung_i, vertex_j)], a read accessor; the
    facade receives a pointer to the first joint value of the vertex: the
    joint array of the rung and an offset into it. *)
Definition vertex (g : t) (rung index : nat) : option (list double * nat) :=
  r ← getRung g rung;
  Some (data r, dof_ g * index).

(** Modelled from the spec: [allocate(n)], "resize to n empty rungs. Fails
    loudly if called on a non-empty graph". *)
Definition allocate (n : nat) (g : t) : option t :=
  match rungs_ g with
  | [] => Some (with_rungs g (replicate n empty_rung))
  | _ :: _ => None
  end.

(** Modelled from the spec: [assign_rung(i, id, timing, joints)],
    "overwrite rung i's identity, timing, and joint data. joints must
    satisfy the multiple-of-DOF invariant. Does not touch edges". *)
Definition assignRung (i : nat) (new_id : ID) (tm : TimingConstraint)
    (sols : list (list double)) (g : t) : option t :=
  r ← getRung g i;
  if decide (length (concat sols) mod dof_ g = 0) then
    Some (with_rungs g (<[i := mkRung new_id tm (concat sols) (edges r)]> (rungs_ g)))
  else None.

(** The edge block out of rung [i - 1], when there is such a rung, is
    cleared. *)
Definition invalidate_before (i : nat) (rs : list Rung) : list Rung :=
  match i with
  | O => rs
  | S k => alter (set_edges []) k rs
  end.

(** Modelled from the spec: [insert_rung(i)], "insert an empty rung at
    position i, shifting subsequent rungs right. Adjacent edge structures
    on either side are invalidated (cleared)". *)
Definition insertRung (i : nat) (g : t) : option t :=
  if decide (i <= size g) then
    let rs := invalidate_before i (rungs_ g) in
    Some (with_rungs g (take i rs ++ empty_rung :: drop i rs))
  else None.

(** Modelled from the spec: [remove_rung(i)], "delete rung i; shift
    subsequent rungs left. If the removed rung was interior, the edge
    structure from rung i-1 is invalidated"; when the last rung goes, the
    block out of the new last rung goes with it. *)
Definition removeRung (i : nat) (g : t) : option t :=
  if decide (i < size g) then
    Some (with_rungs g (delete i (invalidate_before i (rungs_ g))))
  else None.

(** Modelled from the spec: [clear_vertices(i)] and [clear_edges(i)],
    "reset in place". *)
Definition clearVertices (i : nat) (g : t) : option t :=
  r ← getRung g i;
  Some (with_rungs g (<[i := set_data [] r]> (rungs_ g))).

Definition clearEdges (i : nat) (g : t) : option t :=
  r ← getRung g i;
  Some (with_rungs g (<[i := set_edges [] r]> (rungs_ g))).

(** Modelled from the spec: [assign_edges(i, edges)], "install the
    per-vertex edge lists from rung i to rung i+1. Must have length equal to
    rung i's vertex count". *)
Definition assignEdges (i : nat) (es : list EdgeList) (g : t) : option t :=
  r ← getRung g i;
  if decide (length es = rungSize g r) then
    Some (with_rungs g (<[i := set_edges es r]> (rungs_ g)))
  else None.

(** Modelled from the spec: the "graph reset" that destroys every rung. *)
Definition clear (g : t) : t := with_rungs g [].

End LadderGraph.

(** ** The planner facade: [PlanningGraph] *)

(** Mutable state of a [PlanningGraph]: the member [graph_], and the log of
    the queries made to the oracle since construction. The members
    [robot_model_] and [custom_cost_function_] never change. *)
Record PlanningGraph : Type := mkPlanningGraph {
  graph_ : LadderGraph.t;
  oracle_log : list OracleCall
}.

(** An element of the [path] that [getShortestPath] fills: the joint values
    of a vertex and the timing of its rung. *)
Record JointTrajectoryPt : Type := mkJointTrajectoryPt {
  joints : list double;
  pt_timing : TimingConstraint
}.

Section Facade.

Variable robot_model_ : RobotModel.
Variable custom_cost_function_ : option (list double -> list double -> double).

(** The constructor: [graph_(model->getDOF())]. *)
Definition new_PlanningGraph : PlanningGraph :=
  mkPlanningGraph (LadderGraph.mk (getDOF robot_model_) []) [].

(** Loop of [calculateJointSolutions], from index [i] on; stops at the
    first point for which the oracle has no joint pose. *)
Fixpoint joint_solutions_from (points : list TrajectoryPt) (i : nat)
    (poses : list (list (list double))) (log : list OracleCall)
  : bool * list (list (list double)) * list OracleCall :=
  match points with
  | [] => (true, poses, log)
  | point :: rest =>
      let joint_poses := getJointPoses point robot_model_ in
      let log := log ++ [JointPosesCall point] in
      match joint_poses with
      | [] => (false, poses, log)
      | _ :: _ => joint_solutions_from rest (S i) (<[i := joint_poses]> poses) log
      end
  end.

(** [calculateJointSolutions(points, count, poses)] with [poses] empty on
    entry, as at each of its call sites: [poses.resize(count)], then the
    loop. Returns the flag, [poses] and the log. *)
Definition calculateJointSolutions (points : list TrajectoryPt)
    (log : list OracleCall)
  : bool * list (list (list double)) * list OracleCall :=
  joint_solutions_from points 0 (replicate (length points) []) log.

Definition computeAndAssignEdges (start_idx end_idx : nat) (pg : PlanningGraph)
  : option PlanningGraph :=
  r1 ← LadderGraph.getRung (graph_ pg) start_idx;
  r2 ← LadderGraph.getRung (graph_ pg) end_idx;
  built ← calculateEdgeWeights robot_model_ custom_cost_function_
             (LadderGraph.data r1) (LadderGraph.data r2) (getDOF robot_model_)
             (LadderGraph.timing r2);
  g ← LadderGraph.assignEdges start_idx built.1 (graph_ pg);
  Some (mkPlanningGraph g (oracle_log pg ++ built.2)).

Definition insertGraph (points : list TrajectoryPt) (pg : PlanningGraph)
  : option (bool * PlanningGraph) :=
  if decide (length points < 2) then Some (false, pg)
  else
    let g := if decide (0 < LadderGraph.size (graph_ pg))
             then LadderGraph.clear (graph_ pg) else graph_ pg in
    let '(ok, all_joint_sols, log) := calculateJointSolutions points (oracle_log pg) in
    if negb ok then Some (false, mkPlanningGraph g log)
    else
      g ← LadderGraph.allocate (length points) g;
      g ← for_each
            (fun i g =>
               point ← points !! i;
               sols ← all_joint_sols !! i;
               LadderGraph.assignRung i (getID point) (getTiming point) sols g)
            (seq 0 (length points)) g;
      pg' ← for_each (fun i pg' => computeAndAssignEdges i (i + 1) pg')
              (seq 0 (size_pred (LadderGraph.size g))) (mkPlanningGraph g log);
      Some (true, pg').

Definition addTrajectory (point : TrajectoryPt) (previous_id next_id : ID)
    (pg : PlanningGraph) : option (bool * PlanningGraph) :=
  let ns := LadderGraph.indexOf (graph_ pg) next_id in
  let '(_, poses, log) := calculateJointSolutions [point] (oracle_log pg) in
  let insert_idx := if ns.2 then ns.1 else size_pred (LadderGraph.size (graph_ pg)) in
  g ← LadderGraph.insertRung insert_idx (graph_ pg);
  sols ← poses !! 0;
  g ← LadderGraph.assignRung insert_idx (getID point) (getTiming point) sols g;
  pg1 ← (if negb (is_nil previous_id)
         then computeAndAssignEdges (size_pred insert_idx) insert_idx
                (mkPlanningGraph g log)
         else Some (mkPlanningGraph g log));
  pg2 ← (if negb (is_nil next_id)
         then computeAndAssignEdges insert_idx (insert_idx + 1) pg1
         else Some pg1);
  Some (true, pg2).

Definition modifyTrajectory (point : TrajectoryPt) (pg : PlanningGraph)
  : option (bool * PlanningGraph) :=
  let s := LadderGraph.indexOf (graph_ pg) (getID point) in
  if negb s.2 then Some (false, pg)
  else
    let idx := s.1 in
    let '(_, poses, log) := calculateJointSolutions [point] (oracle_log pg) in
    g ← LadderGraph.clearVertices idx (graph_ pg);
    g ← LadderGraph.clearEdges idx g;
    sols ← poses !! 0;
    g ← LadderGraph.assignRung idx (getID point) (getTiming point) sols g;
    pg1 ← (if negb (LadderGraph.isFirst idx)
           then computeAndAssignEdges (size_pred idx) idx (mkPlanningGraph g log)
           else Some (mkPlanningGraph g log));
    pg2 ← (if negb (LadderGraph.isLast (graph_ pg1) idx)
           then computeAndAssignEdges idx (idx + 1) pg1
           else Some pg1);
    Some (true, pg2).

Definition removeTrajectory (point : TrajectoryPt) (pg : PlanningGraph)
  : option (bool * PlanningGraph) :=
  let s := LadderGraph.indexOf (graph_ pg) (getID point) in
  if negb s.2 then Some (false, pg)
  else
    let in_middle := negb (LadderGraph.isFirst s.1)
                     && negb (LadderGraph.isLast (graph_ pg) s.1) in
    g ← LadderGraph.removeRung s.1 (graph_ pg);
    pg1 ← (if in_middle
           then computeAndAssignEdges (size_pred s.1) s.1
                  (mkPlanningGraph g (oracle_log pg))
           else Some (mkPlanningGraph g (oracle_log pg)));
    Some (true, pg1).

End Facade.

(** ** Well-formed graphs *)

(** The rung invariant: the joint data is a whole number of vertices. *)
Definition flat_rung (dof : nat) (r : LadderGraph.Rung) : Prop :=
  length (LadderGraph.data r) mod dof = 0.

(** A graph owned by a planner built on [robot]: the graph has the robot's
    degrees of freedom, at least one, and every rung is flat. *)
Definition wf_graph (robot : RobotModel) (g : LadderGraph.t) : Prop :=
  LadderGraph.dof_ g = getDOF robot
  /\ 0 < getDOF robot
  /\ Forall (flat_rung (getDOF robot)) (LadderGraph.rungs_ g).

(** The oracle's joint configurations have [dof] values each. *)
Definition dof_poses (dof : nat) (poses : list (list double)) : Prop :=
  Forall (fun q => length q = dof) poses.

(** The edge block that the builder computes between two rungs. *)
Definition edge_block (robot : RobotModel)
    (user : option (list double -> list double -> double)) (dof : nat)
    (r1 r2 : LadderGraph.Rung) : list EdgeList :=
  built_edges robot user (LadderGraph.data r1) (LadderGraph.data r2) dof
    (length (LadderGraph.data r2) / dof) (LadderGraph.timing r2)
    (length (LadderGraph.data r1) / dof).

(** The oracle calls made while that block is computed. *)
Definition edge_block_calls (dof : nat) (r1 r2 : LadderGraph.Rung) : list OracleCall :=
  built_calls (LadderGraph.data r1) (LadderGraph.data r2) dof
    (length (LadderGraph.data r2) / dof) (LadderGraph.timing r2)
    (length (LadderGraph.data r1) / dof).

(** The index at which [addTrajectory] inserts the new rung: [insert_idx]. *)
Definition insert_position (g : LadderGraph.t) (next_id : ID) : nat :=
  if (LadderGraph.indexOf g next_id).2
  then (LadderGraph.indexOf g next_id).1
  else size_pred (LadderGraph.size g).

(** ** The shortest-path search *)

(** The class [DijkstrasSearch] lives in
    [descartes_planner/ladder_graph_dijkstras.h], which is not among the
    sources: the search follows the specification of the layered
    relaxation. *)
Module DijkstrasSearch.

(** Modelled from the spec: the "per-vertex state" of the vertices of one
    rung, "distance (real, initialized to +∞ except the virtual source),
    predecessor (pair of rung, vertex, or null)". *)
Record Column : Type := mkColumn {
  distance : list double;
  predecessor : list (option (nat * nat))
}.

(** Modelled from the spec: "every vertex in rung 0 has distance = 0,
    predecessor = null". *)
Definition source_column (n : nat) : Column :=
  mkColumn (replicate n d_zero) (replicate n None).

(** Modelled from the spec: distances "initialized to +∞", no predecessor. *)
Definition fresh_column (n : nat) : Column :=
  mkColumn (replicate n d_infinity) (replicate n None).

(** Modelled from the spec: for an "outgoing edge (cost, j): if
    dist[i,v] + cost < dist[i+1,j], update dist[i+1,j] and set predecessor to
    (i, v)". An edge that points outside the next rung relaxes nothing. *)
Definition relax_edge (i v : nat) (d : double) (next : Column) (e : Edge) : Column :=
  if (to_index e <? N.of_nat (length (distance next)))%N then
    let j := N.to_nat (to_index e) in
    match distance next !! j with
    | Some dj =>
        if ((d + cost e) <? dj)%float then
          mkColumn (<[j := (d + cost e)%float]> (distance next))
                   (<[j := Some (i, v)]> (predecessor next))
        else next
    | None => next
    end
  else next.

(** Modelled from the spec: "for each vertex v in rung i with finite
    distance, for each outgoing edge"; a vertex without an edge list has no
    outgoing edge. *)
Definition relax_vertex (i : nat) (block : list EdgeList) (cur next : Column)
    (v : nat) : Column :=
  match distance cur !! v with
  | Some d =>
      if d_finite d then foldl (relax_edge i v d) next (default [] (block !! v))
      else next
  | None => next
  end.

(** Modelled from the spec: the relaxation of rung [i] into rung [i + 1]. *)
Definition relax_rung (dof i : nat) (r r_next : LadderGraph.Rung) (cur : Column)
  : Column :=
  foldl (relax_vertex i (LadderGraph.edges r) cur)
    (fresh_column (length (LadderGraph.data r_next) / dof))
    (seq 0 (length (LadderGraph.data r) / dof)).

(** Modelled from the spec: "for rung i from 0 to size-2". [below] holds the
    columns of the rungs before [r], the latest first. *)
Fixpoint forward (dof i : nat) (r : LadderGraph.Rung) (cur : Column)
    (below : list Column) (rest : list LadderGraph.Rung) : list Column :=
  match rest with
  | [] => cur :: below
  | r_next :: rest' =>
      forward dof (S i) r_next (relax_rung dof i r r_next cur) (cur :: below) rest'
  end.

(** The columns of all rungs after the relaxation, last rung first. *)
Definition solution (g : LadderGraph.t) : list Column :=
  match LadderGraph.rungs_ g with
  | [] => []
  | r0 :: rest =>
      forward (LadderGraph.dof_ g) 0 r0
        (source_column (length (LadderGraph.data r0) / LadderGraph.dof_ g)) [] rest
  end.

(** Modelled from the spec: "min dist[last, *]" with its "argmin vertex",
    "lowest vertex index wins"; over no vertex the minimum is +∞. *)
Definition min_step (best : double * option nat) (vd : nat * double)
  : double * option nat :=
  if (vd.2 <? best.1)%float then (vd.2, Some vd.1) else best.

Definition min_distance (ds : list double) : double * option nat :=
  foldl min_step (d_infinity, None) (zip (seq 0 (length ds)) ds).

Definition last_rung_min (g : LadderGraph.t) : double * option nat :=
  match solution g with
  | [] => (d_infinity, None)
  | col :: _ => min_distance (distance col)
  end.

(** Modelled from the spec: "return min dist[last, *]". *)
Definition run (g : LadderGraph.t) : double := (last_rung_min g).1.

(** Modelled from the spec: "following predecessors backward from" vertex
    [v] of the first column of [cols]. *)
Fixpoint backtrack (cols : list Column) (v : nat) : list nat :=
  match cols with
  | [] => []
  | col :: earlier =>
      v :: match predecessor col !! v with
           | Some (Some (_, u)) => backtrack earlier u
           | _ => []
           end
  end.

(** Modelled from the spec: "reconstruct the path by following predecessors
    backward from the argmin vertex of the last rung. If the minimum
    last-rung distance is +∞, the graph is infeasible; return (+∞, empty
    path)". One vertex index per rung, first rung first. *)
Definition shortestPath (g : LadderGraph.t) : list nat :=
  if PrimFloat.eqb (run g) d_infinity then []
  else
    match (last_rung_min g).2 with
    | Some v => reverse (backtrack (solution g) v)
    | None => []
    end.

End DijkstrasSearch.

(** ** [PlanningGraph::getShortestPath] *)

(** Body of the loop that fills [path]:
    [JointTrajectoryPt(std::vector<double>(data, data + dof), tm)] is pushed
    at the back. *)
Definition path_step (g : LadderGraph.t) (dof : nat) (path_idxs : list nat) (i : nat)
    (path : list JointTrajectoryPt) : option (list JointTrajectoryPt) :=
  idx ← path_idxs !! i;
  data ← LadderGraph.vertex g i idx;
  r ← LadderGraph.getRung g i;
  let tm := LadderGraph.timing r in
  values ← joints_at data.1 data.2 dof;
  Some (path ++ [mkJointTrajectoryPt values tm]).

(** [getShortestPath(cost, path)]: returns the flag, the value left in
    [cost] and the value left in [path], which the caller hands in. *)
Definition getShortestPath (g : LadderGraph.t) (path : list JointTrajectoryPt)
  : option (bool * double * list JointTrajectoryPt) :=
  let min_cost := DijkstrasSearch.run g in
  let path_idxs := DijkstrasSearch.shortestPath g in
  let cost := min_cost in
  let dof := LadderGraph.dof g in
  path' ← for_each (path_step g dof path_idxs) (seq 0 (length path_idxs)) path;
  Some (d_neq cost d_infinity, cost, path').

(** No edge of the graph has a negative cost. *)
Definition no_negative_cost (g : LadderGraph.t) : Prop :=
  Forall
    (fun r => Forall (Forall (fun e => (cost e <? 0)%float = false)) (LadderGraph.edges r))
    (LadderGraph.rungs_ g).

(** *** Invariants of the search *)

(** Every vertex of [col] whose distance is not +∞ has a predecessor among
    the vertices of finite distance of the previous rung, whose distances
    are [prev]. *)
Definition linked_to (prev : list double) (col : DijkstrasSearch.Column) : Prop :=
  length (DijkstrasSearch.predecessor col) = length (DijkstrasSearch.distance col)
  /\ forall (j : nat) (d : double),
       DijkstrasSearch.distance col !! j = Some d ->
       PrimFloat.eqb d infinity = false ->
       exists (i u : nat) (du : double),
         DijkstrasSearch.predecessor col !! j = Some (Some (i, u))
         /\ prev !! u = Some du
         /\ d_finite du = true.

(** Each column of the stack is linked to the one below it. *)
Fixpoint chain (cols : list DijkstrasSearch.Column) : Prop :=
  match cols with
  | [] => True
  | col :: earlier =>
      match earlier with
      | [] => True
      | prev :: _ => linked_to (DijkstrasSearch.distance prev) col
      end
      /\ chain earlier
  end.

(** The column has one distance per vertex of the rung. *)
Definition sized (dof : nat) (r : LadderGraph.Rung) (col : DijkstrasSearch.Column)
  : Prop :=
  length (DijkstrasSearch.distance col) = length (LadderGraph.data r) / dof.

(** No distance of the column is negative or a NaN. *)
Definition col_nonneg (col : DijkstrasSearch.Column) : Prop :=
  Forall (fun d => (0 <=? d)%float = true) (DijkstrasSearch.distance col).

Definition rung_no_negative_cost (r : LadderGraph.Rung) : Prop :=
  Forall (Forall (fun e => (cost e <? 0)%float = false)) (LadderGraph.edges r).

(** The index is one of the vertices of the rung. *)
Definition vertex_of (dof : nat) (r : LadderGraph.Rung) (index : nat) : Prop :=
  index < length (LadderGraph.data r) / dof.

(** ** Scenarios

    Concrete robots, waypoints and planner states on which the
    development is evaluated. *)

(** Scenario robot: one joint; a move is valid when the joint travels by at
    most [dt]. *)
Definition bounded_travel_robot : RobotModel :=
  mkRobotModel 1
    (fun a b dt =>
       match a, b with
       | [x], [y] => (abs (x - y) <=? dt)%float
       | _, _ => false
       end).

(** A waypoint whose joint poses do not depend on the robot model. *)
Definition fixed_point (i : ID) (tm : TimingConstraint) (poses : list (list double))
  : TrajectoryPt :=
  mkTrajectoryPt i tm (fun _ => poses).

Definition free_timing : TimingConstraint := mkTiming false d_zero.

Definition point_1 : TrajectoryPt := fixed_point 1%N free_timing [[0%float]; [10%float]].
Definition point_2 : TrajectoryPt := fixed_point 2%N free_timing [[5%float]].
Definition point_3 : TrajectoryPt := fixed_point 3%N free_timing [[0%float]; [10%float]].
Definition point_4 : TrajectoryPt := fixed_point 4%N free_timing [[7%float]].
Definition point_5 : TrajectoryPt := fixed_point 5%N free_timing [[1%float]; [2%float]].

(** A waypoint for which the oracle finds no joint pose. *)
Definition unreachable (i : ID) : TrajectoryPt := fixed_point i free_timing [].

Definition state_after (r : option (bool * PlanningGraph)) : PlanningGraph :=
  match r with
  | Some (_, pg) => pg
  | None => mkPlanningGraph (LadderGraph.mk 0 []) []
  end.

(** The planner after [insertGraph] of waypoints 1, 2, 3, and of waypoints
    1 to 5. *)
Definition three_rungs : PlanningGraph :=
  state_after
    (insertGraph bounded_travel_robot None [point_1; point_2; point_3]
       (new_PlanningGraph bounded_travel_robot)).

Definition five_rungs : PlanningGraph :=
  state_after
    (insertGraph bounded_travel_robot None
       [point_1; point_2; point_3; point_4; point_5]
       (new_PlanningGraph bounded_travel_robot)).

(** A robot whose oracle rejects every move. *)
Definition stuck_robot : RobotModel := mkRobotModel 1 (fun _ _ _ => false).

(** Two-joint robot that accepts every move. *)
Definition planar_robot : RobotModel := mkRobotModel 2 (fun _ _ _ => true).

(** The planner state after [insertGraph] of [points] on a fresh planner. *)
Definition planned (robot : RobotModel) (points : list TrajectoryPt) : PlanningGraph :=
  state_after (insertGraph robot None points (new_PlanningGraph robot)).

(** ** Further vocabulary for the facade *)

(** The rung that [assignRung] builds for a waypoint: its id, its timing, all
    its joint poses one after the other, and no edge yet. *)
Definition rung_of (robot : RobotModel) (point : TrajectoryPt) : LadderGraph.Rung :=
  LadderGraph.mkRung (getID point) (getTiming point)
    (concat (getJointPoses point robot)) [].

(** The oracle has a joint pose for the waypoint, and its poses have [dof]
    values each. *)
Definition solvable (robot : RobotModel) (point : TrajectoryPt) : Prop :=
  getJointPoses point robot <> []
  /\ dof_poses (getDOF robot) (getJointPoses point robot).

(** Identity, timing and joint data of a rung: everything but its edges. *)
Definition rung_core (r : LadderGraph.Rung) : ID * TimingConstraint * list double :=
  (LadderGraph.id r, LadderGraph.timing r, LadderGraph.data r).

(** Every rung but the last one gets the edge block that the builder
    computes towards its successor; the last rung keeps its own. *)
Fixpoint link_rungs (robot : RobotModel)
    (user : option (list double -> list double -> double))
    (rs : list LadderGraph.Rung) : list LadderGraph.Rung :=
  match rs with
  | [] => []
  | r :: rest =>
      LadderGraph.set_edges
        (match rest with
         | [] => LadderGraph.edges r
         | r_next :: _ => edge_block robot user (getDOF robot) r r_next
         end) r
      :: link_rungs robot user rest
  end.

(** The oracle calls made while those blocks are computed, first block
    first. *)
Fixpoint link_calls (robot : RobotModel) (rs : list LadderGraph.Rung)
  : list OracleCall :=
  match rs with
  | [] => []
  | r :: rest =>
      match rest with
      | [] => []
      | r_next :: _ => edge_block_calls (getDOF robot) r r_next
      end
      ++ link_calls robot rest
  end.


(** The query is a move check, [isValidMove], not a request for joint
    poses. *)
Definition is_move_check (c : OracleCall) : bool :=
  match c with
  | ValidMoveCall _ _ _ => true
  | JointPosesCall _ => false
  end.

(** The element that [getShortestPath] pushes for vertex [index] of rung
    [r]. *)
Definition path_point (dof : nat) (r : LadderGraph.Rung) (index : nat)
  : JointTrajectoryPt :=
  mkJointTrajectoryPt (vertex_at (LadderGraph.data r) dof index) (LadderGraph.timing r).

(** The rungs [rs] after the edge block out of rung [k] has been set to the
    block that the builder computes towards rung [k + 1], and emptied where
    rung [k] is the last one. *)
Definition relink (robot : RobotModel)
    (user : option (list double -> list double -> double)) (k : nat)
    (rs : list LadderGraph.Rung) : list LadderGraph.Rung :=
  alter
    (fun r =>
       LadderGraph.set_edges
         (match rs !! S k with
          | Some r_next => edge_block robot user (getDOF robot) r r_next
          | None => []
          end) r)
    k rs.

(** The move checks made while the block out of rung [k] is computed. *)
Definition relink_calls (robot : RobotModel) (k : nat) (rs : list LadderGraph.Rung)
  : list OracleCall :=
  match rs !! k, rs !! S k with
  | Some r, Some r_next => edge_block_calls (getDOF robot) r r_next
  | _, _ => []
  end.

(** The rungs [rs] after [modifyTrajectory] has put [point] on rung [idx]:
    the rung is replaced, then the blocks out of rung [idx - 1] and out of
    rung [idx] are rebuilt. *)
Definition modified_rungs (robot : RobotModel)
    (user : option (list double -> list double -> double))
    (point : TrajectoryPt) (idx : nat) (rs : list LadderGraph.Rung)
  : list LadderGraph.Rung :=
  let rs1 := <[idx := rung_of robot point]> rs in
  relink robot user idx
    (match idx with
     | O => rs1
     | S k => relink robot user k rs1
     end).

(** The rungs [rs] after [addTrajectory] has inserted [point] at [pos]: the
    new rung is put in, then the block out of rung [pos - 1] is built if a
    previous id was given, and the block out of the new rung if a next id
    was given. *)
Definition added_rungs (robot : RobotModel)
    (user : option (list double -> list double -> double))
    (point : TrajectoryPt) (previous_id next_id : ID) (pos : nat)
    (rs : list LadderGraph.Rung) : list LadderGraph.Rung :=
  let rs0 := LadderGraph.invalidate_before pos rs in
  let rs1 := take pos rs0 ++ rung_of robot point :: drop pos rs0 in
  let rs2 := if negb (is_nil previous_id) then relink robot user (pos - 1) rs1 else rs1 in
  if negb (is_nil next_id) then relink robot user pos rs2 else rs2.

(** ** Sequences of calls *)




(** * The lemniscate benchmark trajectory

    A shallow embedding of
    [descartes_benchmarks/src/trajectories/create_lemniscate_curve.cpp].

    - [int] and [unsigned int] values are integers ([Z], [nat] for loop
      counters); the one product of two [int]s has no defined result when it
      exceeds [INT_MAX].
    - The functions of [<cmath>] other than [sqrt], and the vector operations
      of Eigen, are parameters of the development: nothing is assumed about
      the values they return.
    - Memory is not bounded: [reserve] and [push_back] always succeed. *)
Module Lemniscate.

(** [const double EPSILON = 0.0001f]: the [float] nearest to 0.0001, widened
    to [double]. *)
Definition EPSILON : double := 0x1.a36e2ep-14%float.

(** [M_PI], [M_PI_2] and [M_PI_4] of [<cmath>]. *)
Definition M_PI : double := 0x1.921fb54442d18p+1%float.
Definition M_PI_2 : double := 0x1.921fb54442d18p+0%float.
Definition M_PI_4 : double := 0x1.921fb54442d18p-1%float.

Definition INT_MAX : Z := 2147483647.

(** Conversion of a non-negative [int] or [unsigned int] to [double]. *)
Definition of_count (z : Z) : double := PrimFloat.of_uint63 (Uint63.of_Z z).

Abbreviation Vector3d := (double * double * double)%type.

(** [Eigen::Affine3d] as the code builds it: a translation and the three
    columns of a rotation matrix. *)
Record Affine3d : Type := mkAffine3d {
  translation : Vector3d;
  linear : Vector3d * Vector3d * Vector3d
}.

(** [vec[i] = v] on a [std::vector<double>]; no defined result outside the
    vector. *)
Definition write_at (i : Z) (v : double) (vec : list double) : option (list double) :=
  if decide (0 <= i < Z.of_nat (length vec))%Z
  then Some (<[Z.to_nat i := v]> vec) else None.

Definition read_at (i : Z) (vec : list double) : option double :=
  if decide (0 <= i)%Z then vec !! Z.to_nat i else None.

(** [vec[i] = vec[i] + EPSILON] and [vec[i] = vec[i] - EPSILON]. *)
Definition shift_up (i : Z) (vec : list double) : option (list double) :=
  x ← read_at i vec; write_at i (x + EPSILON)%float vec.

Definition shift_down (i : Z) (vec : list double) : option (list double) :=
  x ← read_at i vec; write_at i (x - EPSILON)%float vec.

(** [double d_theta = 2*M_PI_2/(npoints - 1)] *)
Definition d_theta (npoints : Z) : double :=
  (2 * M_PI_2 / of_count (npoints - 1))%float.

(** The polar angles: the vector [theta] when the loops over the poses
    start. Run once the parameters have been checked, hence with
    [npoints >= 10]. *)
Definition theta_values (npoints : Z) : option (list double) :=
  let half := (npoints ÷ 2)%Z in
  theta ← for_each
            (fun i theta =>
               write_at (Z.of_nat i)
                 (- M_PI_4 + of_count (Z.of_nat i) * d_theta npoints)%float theta)
            (seq 0 (Z.to_nat half)) (replicate (Z.to_nat npoints) 0%float);
  theta ← shift_up 0 theta;
  theta ← shift_down (half - 1) theta;
  theta ← for_each
            (fun i theta =>
               write_at (half + Z.of_nat i)
                 (3 * M_PI_4 + of_count (Z.of_nat i) * d_theta npoints)%float theta)
            (seq 0 (Z.to_nat half)) theta;
  theta ← shift_up half theta;
  shift_down (npoints - 1) theta.

(** [double d_omega = M_PI/(nlemns)] *)
Definition d_omega (nlemns : Z) : double := (M_PI / of_count nlemns)%float.

(** The angle offsets of the lemniscates: the vector [omega]. *)
Definition omega_values (nlemns : Z) : option (list double) :=
  for_each
    (fun i omega =>
       write_at (Z.of_nat i) (of_count (Z.of_nat i) * d_omega nlemns)%float omega)
    (seq 0 (Z.to_nat nlemns)) (replicate (Z.to_nat nlemns) 0%float).

Section Curve.

(** [std::cos], [std::sin], [std::asin] and [std::pow]. *)
Variable cos : double -> double.
Variable sin : double -> double.
Variable asin : double -> double.
Variable pow : double -> double -> double.

(** [Eigen::Vector3d::normalized] and [Eigen::Vector3d::cross]. *)
Variable normalized : Vector3d -> Vector3d.
Variable cross : Vector3d -> Vector3d -> Vector3d.

(** Body of the inner loop: the pose for polar angle [theta] on the
    lemniscate of offset [omega]. *)
Definition pose_at (a ro : double) (offset : Vector3d) (theta omega : double)
  : Affine3d :=
  let r := sqrt (pow a 2 * cos (2 * theta))%float in
  let phi := if (r <? ro)%float then asin (r / ro)%float
             else (M_PI - asin ((2 * ro - r) / ro))%float in
  let x := (ro * cos (theta + omega) * sin phi)%float in
  let y := (ro * sin (theta + omega) * sin phi)%float in
  let z := (ro * cos phi)%float in
  let unit_z := normalized (- x, - y, - z)%float in
  let unit_x := normalized (cross (0, 1, 0)%float unit_z) in
  let unit_y := normalized (cross unit_z unit_x) in
  mkAffine3d
    (offset.1.1 + x, offset.1.2 + y, offset.2 + z)%float
    (unit_x, unit_y, unit_z).

(** [createLemniscateCurve(foci_distance, sphere_radius, num_points,
    num_lemniscates, sphere_center, poses)]: returns the flag and the value
    left in [poses]. *)
Definition createLemniscateCurve (foci_distance sphere_radius : double)
    (num_points num_lemniscates : Z) (sphere_center : Vector3d)
    (poses : list Affine3d) : option (bool * list Affine3d) :=
  let a := foci_distance in
  let ro := sphere_radius in
  let npoints := num_points in
  let nlemns := num_lemniscates in
  let offset := sphere_center in
  if (a <=? 0)%float || (ro <=? 0)%float || (npoints <? 10)%Z || (nlemns <? 1)%Z
  then Some (false, poses)
  else
    theta ← theta_values npoints;
    omega ← omega_values nlemns;
    if decide (nlemns * npoints <= INT_MAX)%Z then
      poses ← for_each
                (fun j poses =>
                   for_each
                     (fun i poses =>
                        th ← theta !! i;
                        om ← omega !! j;
                        Some (poses ++ [pose_at a ro offset th om]))
                     (seq 0 (Z.to_nat npoints)) poses)
                (seq 0 (Z.to_nat nlemns)) [];
      Some (true, poses)
    else None.

End Curve.

(** What the vector [theta] holds at index [j]: the first half-interval
    starts at -π/4, the second at 3π/4, the first and the last angle written
    in each half are moved inwards by [EPSILON]; the last element of the
    vector is lowered by [EPSILON] whether or not the second loop has written
    it. *)
Definition theta_at (npoints : Z) (j : nat) : double :=
  let half := Z.to_nat (npoints ÷ 2) in
  let first (i : nat) := (- M_PI_4 + of_count (Z.of_nat i) * d_theta npoints)%float in
  let second (i : nat) := (3 * M_PI_4 + of_count (Z.of_nat i) * d_theta npoints)%float in
  let written := if decide (j < 2 * half) then second (j - half) else 0%float in
  if decide (j = 0) then (first O + EPSILON)%float
  else if decide (j = half - 1) then (first j - EPSILON)%float
  else if decide (j < half) then first j
  else if decide (j = half) then (second O + EPSILON)%float
  else if decide (j = Z.to_nat npoints - 1) then (written - EPSILON)%float
  else written.

(** Stand-ins for [<cmath>] and Eigen on which the development is
    evaluated. *)
Definition series_cos (x : double) : double := (1 - x * x / 2)%float.
Definition series_sin (x : double) : double := (x - x * x * x / 6)%float.
Definition series_asin (x : double) : double := (x + x * x * x / 6)%float.
Definition square_pow (x y : double) : double := (x * x)%float.

Definition scaled_unit (v : Vector3d) : Vector3d :=
  let n := sqrt (v.1.1 * v.1.1 + v.1.2 * v.1.2 + v.2 * v.2)%float in
  (v.1.1 / n, v.1.2 / n, v.2 / n)%float.

Definition cross_product (u v : Vector3d) : Vector3d :=
  (u.1.2 * v.2 - u.2 * v.1.2,
   u.2 * v.1.1 - u.1.1 * v.2,
   u.1.1 * v.1.2 - u.1.2 * v.1.1)%float.

End Lemniscate.
(** * Properties *)

(** *** Arithmetic of the flat layout *)

Lemma strided_exact (n dof : nat) :
  0 < dof -> strided (n * dof) dof = (fun q => q * dof) <$> seq 0 n.
Proof.
  intros Hdof. unfold strided. f_equal. f_equal.
  symmetry. apply (Nat.div_unique _ _ _ (dof - 1)); lia.
Qed.

Lemma joints_at_vertex (v : list double) (dof n m : nat) :
  length v = n * dof -> m < n ->
  joints_at v (m * dof) dof = Some (vertex_at v dof m).
Proof.
  intros Hlen Hm. unfold joints_at, vertex_at.
  destruct (decide _) as [|Hbad]; [done|]. exfalso. apply Hbad. nia.
Qed.

Lemma vertex_at_length (v : list double) (dof n m : nat) :
  length v = n * dof -> m < n -> length (vertex_at v dof m) = dof.
Proof.
  intros Hlen Hm. unfold vertex_at. rewrite length_take, length_drop. nia.
Qed.

Lemma uint_succ_of_nat (m : nat) :
  uint_succ (N.of_nat m mod 4294967296)%N = (N.of_nat (S m) mod 4294967296)%N.
Proof.
  unfold uint_succ. rewrite N.Div0.add_mod_idemp_l. f_equal. lia.
Qed.

(** *** The default cost is the L1 distance of the two vertices *)

Lemma default_cost_from (start_joints end_joints : list double) (i j n k : nat)
    (c : double) :
  i + k + n <= length start_joints ->
  j + k + n <= length end_joints ->
  for_each
    (fun k c =>
       a ← start_joints !! (i + k);
       b ← end_joints !! (j + k);
       Some (c + abs (a - b))%float)
    (seq k n) c
  = Some (foldl (fun c p => (c + abs (p.1 - p.2))%float) c
            (zip (take n (drop (i + k) start_joints))
                 (take n (drop (j + k) end_joints)))).
Proof.
  revert k c. induction n as [|n IH]; intros k c Hi Hj; [done|].
  destruct (lookup_lt_is_Some_2 start_joints (i + k)) as [a Ha]; [lia|].
  destruct (lookup_lt_is_Some_2 end_joints (j + k)) as [b Hb]; [lia|].
  rewrite (drop_S _ _ _ Ha), (drop_S _ _ _ Hb).
  simpl. rewrite Ha, Hb. simpl.
  rewrite (IH (S k)) by lia.
  by replace (i + S k) with (S (i + k)) by lia;
     replace (j + S k) with (S (j + k)) by lia.
Qed.

Lemma default_cost_l1 (start_joints end_joints : list double) (i j dof : nat) :
  i + dof <= length start_joints ->
  j + dof <= length end_joints ->
  default_cost start_joints end_joints i j dof
  = Some (l1_distance (take dof (drop i start_joints))
                      (take dof (drop j end_joints))).
Proof.
  intros Hi Hj. unfold default_cost, l1_distance.
  rewrite (default_cost_from _ _ i j dof 0) by lia.
  by rewrite !Nat.add_0_r.
Qed.

Lemma pair_cost_vertex robot_cost (start_joints end_joints : list double)
    (dof n_from n_to i j : nat) :
  length start_joints = n_from * dof ->
  length end_joints = n_to * dof ->
  i < n_from -> j < n_to ->
  pair_cost robot_cost start_joints end_joints (i * dof) (j * dof) dof
  = Some (cost_of robot_cost (vertex_at start_joints dof i) (vertex_at end_joints dof j)).
Proof.
  intros Hs He Hi Hj. unfold pair_cost, cost_of.
  destruct robot_cost as [user|].
  - by rewrite (joints_at_vertex _ _ n_from i Hs Hi), (joints_at_vertex _ _ n_to j He Hj).
  - rewrite default_cost_l1; [done|nia..].
Qed.

(** *** The two loops *)

Section EdgeBuilderLoops.

Variable robot_model_ : RobotModel.
Variable custom_cost_function_ : option (list double -> list double -> double).
Variables start_joints end_joints : list double.
Variables dof n_from n_to : nat.
Variable tm : TimingConstraint.

Hypothesis dof_pos : 0 < dof.
Hypothesis start_flat : length start_joints = n_from * dof.
Hypothesis end_flat : length end_joints = n_to * dof.

Local Abbreviation emitted_i :=
  (emitted robot_model_ custom_cost_function_ start_joints end_joints dof tm).
Local Abbreviation calls_i := (move_calls start_joints end_joints dof tm).
Local Abbreviation inv_i :=
  (scan_inv robot_model_ custom_cost_function_ start_joints end_joints dof n_to tm).
Local Abbreviation edges_upto :=
  (built_edges robot_model_ custom_cost_function_ start_joints end_joints dof n_to tm).
Local Abbreviation calls_upto := (built_calls start_joints end_joints dof n_to tm).

Lemma emitted_S (i m : nat) :
  emitted_i i (S m)
  = emitted_i i m ++
    (if permitted robot_model_ tm (vertex_at start_joints dof i) (vertex_at end_joints dof m)
     then [mkEdge (cost_of custom_cost_function_ (vertex_at start_joints dof i)
                     (vertex_at end_joints dof m))
             (N.of_nat m mod 4294967296)%N]
     else []).
Proof.
  unfold emitted, permitted_destinations.
  rewrite seq_S, List.filter_app, fmap_app. simpl.
  by destruct (permitted _ _ _ _).
Qed.

Lemma emitted_length_le (i m : nat) : length (emitted_i i m) <= m.
Proof.
  unfold emitted, permitted_destinations. rewrite length_fmap.
  etransitivity; [apply List.filter_length_le|]. by rewrite length_seq.
Qed.

Lemma move_calls_S (i m : nat) :
  calls_i i (S m)
  = calls_i i m ++
    (if isSpecified tm
     then [ValidMoveCall (vertex_at start_joints dof i) (vertex_at end_joints dof m)
             (upper tm)]
     else []).
Proof.
  unfold move_calls. destruct (isSpecified tm); [|done].
  by rewrite seq_S, fmap_app.
Qed.

Lemma to_rung_step_inv (i m : nat) (log0 : list OracleCall) (st : Scan) :
  i < n_from -> m < n_to -> inv_i i m log0 st ->
  exists st',
    to_rung_step robot_model_ custom_cost_function_ start_joints end_joints dof tm
      (i * dof) (m * dof) st = Some st'
    /\ inv_i i (S m) log0 st'.
Proof.
  intros Hi Hm (Hcount & Hidx & Hlen & Htake & Hcalls).
  pose proof (emitted_length_le i m) as Hle.
  unfold to_rung_step.
  rewrite (joints_at_vertex _ _ n_from i start_flat Hi),
          (joints_at_vertex _ _ n_to m end_flat Hm).
  rewrite (pair_cost_vertex _ _ _ _ n_from n_to) by done.
  unfold scan_inv. rewrite emitted_S, move_calls_S. unfold permitted.
  destruct (isSpecified tm); simpl.
  - destruct (isValidMove _ _ _ _); simpl.
    + destruct (decide _) as [Hin|Hout]; [|lia].
      eexists; split; [done|]. simpl.
      rewrite length_app, length_insert, Hidx, uint_succ_of_nat, Hcount.
      repeat split; [simpl; lia|done| |by rewrite Hcalls, <- (assoc_L (++))].
      rewrite <- Hcount.
      erewrite take_S_r by (apply list_lookup_insert_eq; lia).
      rewrite take_insert_ge by lia. by rewrite Htake.
    + eexists; split; [done|]. simpl.
      rewrite !app_nil_r, Hidx, uint_succ_of_nat, Hcalls.
      repeat split; try done. by rewrite <- (assoc_L (++)).
  - destruct (decide _) as [Hin|Hout]; [|lia].
    eexists; split; [done|]. simpl.
    rewrite length_app, length_insert, Hidx, uint_succ_of_nat, Hcount, app_nil_r.
    repeat split; [simpl; lia|done| |done].
    rewrite <- Hcount.
    erewrite take_S_r by (apply list_lookup_insert_eq; lia).
    rewrite take_insert_ge by lia. by rewrite Htake.
Qed.

Lemma to_rung_loop (i : nat) (log0 : list OracleCall) (k m : nat) (st : Scan) :
  i < n_from -> m + k = n_to -> inv_i i m log0 st ->
  exists st',
    for_each
      (to_rung_step robot_model_ custom_cost_function_ start_joints end_joints dof tm
         (i * dof))
      ((fun q => q * dof) <$> seq m k) st = Some st'
    /\ inv_i i n_to log0 st'.
Proof.
  intros Hi. revert m st. induction k as [|k IH]; intros m st Hmk Hinv.
  - assert (m = n_to) as -> by lia. by exists st.
  - destruct (to_rung_step_inv i m log0 st) as (st1 & Hstep & Hinv1); [done|lia|done|].
    destruct (IH (S m) st1) as (st' & Hloop & Hinv'); [lia|done|].
    exists st'. split; [|done]. simpl. by rewrite Hstep.
Qed.

Lemma built_edges_S (m : nat) :
  edges_upto (S m) = edges_upto m ++ [emitted_i m n_to].
Proof. unfold built_edges. by rewrite seq_S, fmap_app. Qed.

Lemma built_calls_S (m : nat) :
  calls_upto (S m) = calls_upto m ++ calls_i m n_to.
Proof.
  unfold built_calls. rewrite seq_S, fmap_app, concat_app. simpl.
  by rewrite app_nil_r.
Qed.

Lemma built_edges_length (m : nat) : length (edges_upto m) = m.
Proof. unfold built_edges. by rewrite length_fmap, length_seq. Qed.

Lemma from_rung_step_inv (m : nat) (scratch : EdgeList) :
  m < n_from -> length scratch = n_to ->
  exists scratch',
    from_rung_step robot_model_ custom_cost_function_ start_joints end_joints dof tm
      (m * dof)
      (edges_upto m ++ replicate (n_from - m) [], scratch, calls_upto m)
    = Some (edges_upto (S m) ++ replicate (n_from - S m) [], scratch',
            calls_upto (S m))
    /\ length scratch' = n_to.
Proof.
  intros Hm Hlen. unfold from_rung_step.
  rewrite end_flat, strided_exact, built_edges_S, built_calls_S by done.
  destruct (to_rung_loop m (calls_upto m) n_to 0 (mkScan 0 0%N scratch (calls_upto m)))
    as (st' & Hloop & Hcount & Hidx & Hlen' & Htake & Hcalls); [done|done| |].
  { unfold scan_inv, move_calls. simpl.
    repeat split; try done. destruct (isSpecified tm); by rewrite app_nil_r. }
  pose proof (built_edges_length m) as Hbl.
  rewrite Hloop. simpl. rewrite Nat.div_mul by lia.
  destruct (decide _) as [_|Hout].
  2:{ exfalso. apply Hout. rewrite length_app, length_replicate. lia. }
  exists (edge_scratch st'). split; [|done].
  rewrite insert_app_r_alt by lia. rewrite Hbl, Nat.sub_diag, Htake, Hcalls.
  replace (n_from - m) with (S (n_from - S m)) by lia. simpl.
  by rewrite <- (assoc_L (++)).
Qed.

Lemma from_rung_loop (k m : nat) (scratch : EdgeList) :
  m + k = n_from -> length scratch = n_to ->
  exists scratch',
    for_each
      (from_rung_step robot_model_ custom_cost_function_ start_joints end_joints dof tm)
      ((fun q => q * dof) <$> seq m k)
      (edges_upto m ++ replicate (n_from - m) [], scratch, calls_upto m)
    = Some (edges_upto n_from, scratch', calls_upto n_from).
Proof.
  revert m scratch. induction k as [|k IH]; intros m scratch Hmk Hlen.
  - assert (m = n_from) as -> by lia. exists scratch. simpl.
    by rewrite Nat.sub_diag, app_nil_r.
  - destruct (from_rung_step_inv m scratch) as (s1 & Hstep & Hlen1); [lia|done|].
    destruct (IH (S m) s1) as (s' & Hloop); [lia|done|].
    exists s'. cbn [seq]. rewrite fmap_cons. cbn [for_each]. by rewrite Hstep.
Qed.

(** On flat arrays of [n_from] and [n_to] vertices the builder returns, for
    each source vertex in order, the edges of the permitted destinations in
    order, and has asked the oracle about every pair exactly when the
    timing is specified. *)
Lemma calculateEdgeWeights_spec :
  calculateEdgeWeights robot_model_ custom_cost_function_ start_joints end_joints dof tm
  = Some (edges_upto n_from, calls_upto n_from).
Proof.
  unfold calculateEdgeWeights. destruct (decide _) as [|_]; [lia|].
  rewrite start_flat, end_flat, !Nat.div_mul, strided_exact by lia.
  destruct (from_rung_loop n_from 0 (replicate n_to (mkEdge d_zero 0%N)))
    as (s' & Hloop); [done|by rewrite length_replicate|].
  change (replicate n_from []) with (edges_upto 0 ++ replicate n_from (@nil Edge)).
  replace n_from with (n_from - 0) at 2 by lia.
  change (@nil OracleCall) with (calls_upto 0) at 1.
  by rewrite Hloop.
Qed.

End EdgeBuilderLoops.

(** *** The permitted destinations of a source vertex *)

Lemma filter_seq_elem (f : nat -> bool) (s n : nat) (l : list nat) (p j : nat) :
  List.filter f (seq s n) !! p = Some j -> s <= j < s + n /\ f j = true.
Proof.
  intros Hp. apply list_elem_of_lookup_2, list_elem_of_In, List.filter_In in Hp.
  destruct Hp as [Hin Hf]. apply in_seq in Hin. done.
Qed.

Lemma filter_seq_ascending (f : nat -> bool) (n s p q a b : nat) :
  p < q ->
  List.filter f (seq s n) !! p = Some a ->
  List.filter f (seq s n) !! q = Some b ->
  a < b.
Proof.
  revert s p q. induction n as [|n IH]; intros s p q Hpq Ha Hb; [done|].
  simpl in Ha, Hb. destruct (f s); [|by eapply IH].
  destruct q as [|q]; [lia|]. simpl in Hb. destruct p as [|p].
  - injection Ha as <-. apply (filter_seq_elem f (S s) n []) in Hb. lia.
  - simpl in Ha. eapply (IH (S s) p q); [lia|done..].
Qed.

Lemma permitted_unspecified robot (tm : TimingConstraint) (a b : list double) :
  isSpecified tm = false -> permitted robot tm a b = true.
Proof. intros Htm. unfold permitted. by rewrite Htm. Qed.

Lemma permitted_destinations_unspecified robot (start_joints end_joints : list double)
    (dof : nat) (tm : TimingConstraint) (i m : nat) :
  isSpecified tm = false ->
  permitted_destinations robot start_joints end_joints dof tm i m = seq 0 m.
Proof.
  intros Htm. unfold permitted_destinations.
  apply List.forallb_filter_id, List.forallb_forall. intros j _.
  by apply permitted_unspecified.
Qed.

Lemma built_calls_unspecified (start_joints end_joints : list double) (dof n_to : nat)
    (tm : TimingConstraint) (m : nat) :
  isSpecified tm = false -> built_calls start_joints end_joints dof n_to tm m = [].
Proof.
  intros Htm. unfold built_calls, move_calls. rewrite Htm.
  induction (seq 0 m) as [|x l IH]; [done|]. by simpl.
Qed.

Lemma built_edges_lookup robot user (start_joints end_joints : list double)
    (dof n_to : nat) (tm : TimingConstraint) (m i : nat) (es : EdgeList) :
  built_edges robot user start_joints end_joints dof n_to tm m !! i = Some es ->
  i < m /\ es = emitted robot user start_joints end_joints dof tm i n_to.
Proof.
  unfold built_edges. rewrite list_lookup_fmap. intros Hi.
  destruct (seq 0 m !! i) as [i'|] eqn:Hseq; [|done].
  apply lookup_seq in Hseq as [-> Hlt]. simpl in Hi. by injection Hi as <-.
Qed.

Lemma emitted_lookup robot user (start_joints end_joints : list double)
    (dof : nat) (tm : TimingConstraint) (i m p : nat) (e : Edge) :
  emitted robot user start_joints end_joints dof tm i m !! p = Some e ->
  exists j,
    permitted_destinations robot start_joints end_joints dof tm i m !! p = Some j
    /\ j < m
    /\ permitted robot tm (vertex_at start_joints dof i) (vertex_at end_joints dof j) = true
    /\ e = mkEdge (cost_of user (vertex_at start_joints dof i) (vertex_at end_joints dof j))
             (N.of_nat j mod 4294967296)%N.
Proof.
  unfold emitted. rewrite list_lookup_fmap. intros He.
  destruct (permitted_destinations _ _ _ _ _ _ _ !! p) as [j|] eqn:Hj; [|done].
  simpl in He. injection He as <-. exists j.
  pose proof Hj as Hj'. unfold permitted_destinations in Hj'.
  apply (filter_seq_elem _ 0 m []) in Hj' as [Hlt Hadm].
  split; [done|]. split; [lia|]. by split.
Qed.

(** ** The edge builder: cost, move check, shape and order *)

(** C1: every edge that the builder emits, for a source vertex [i] and a
    destination vertex [j] of two adjacent rungs, costs the L1 distance
    [sum over k of |A_i[k] - B_j[k]|] over the [dof] joint values of the two
    configurations when no user cost function is registered, and
    [user(A_i, B_j)] when one is. The edge at position [p] of list [i] is
    the one of the [p]-th destination that passed the move check. *)
Theorem calculateEdgeWeights_cost
    (robot : RobotModel) (user : option (list double -> list double -> double))
    (start_joints end_joints : list double) (dof n_from n_to : nat)
    (tm : TimingConstraint) :
  0 < dof ->
  length start_joints = n_from * dof ->
  length end_joints = n_to * dof ->
  exists edges log,
    calculateEdgeWeights robot user start_joints end_joints dof tm = Some (edges, log)
    /\ forall (i p : nat) (es : EdgeList) (e : Edge),
         edges !! i = Some es -> es !! p = Some e ->
         exists j,
           permitted_destinations robot start_joints end_joints dof tm i n_to !! p = Some j
           /\ j < n_to
           /\ length (vertex_at start_joints dof i) = dof
           /\ length (vertex_at end_joints dof j) = dof
           /\ to_index e = (N.of_nat j mod 4294967296)%N
           /\ cost e =
              match user with
              | None =>
                  l1_distance (vertex_at start_joints dof i) (vertex_at end_joints dof j)
              | Some f => f (vertex_at start_joints dof i) (vertex_at end_joints dof j)
              end.
Proof.
  intros Hdof Hs He. eexists _, _. split.
  - by apply (calculateEdgeWeights_spec robot user _ _ dof n_from n_to).
  - intros i p es e Hes Hp.
    apply built_edges_lookup in Hes as [Hi ->].
    apply emitted_lookup in Hp as (j & Hj & Hlt & _ & ->).
    exists j. split; [done|]. split; [done|].
    split; [by apply (vertex_at_length _ _ n_from)|].
    split; [by apply (vertex_at_length _ _ n_to)|]. done.
Qed.

Lemma calculateEdgeWeights_cost_witness :
  exists edges log,
    calculateEdgeWeights bounded_travel_robot None [0; 100]%float [0; 100; 0.5]%float 1
      (mkTiming true 1%float) = Some (edges, log)
    /\ forall (i p : nat) (es : EdgeList) (e : Edge),
         edges !! i = Some es -> es !! p = Some e ->
         exists j,
           permitted_destinations bounded_travel_robot [0; 100]%float [0; 100; 0.5]%float 1
             (mkTiming true 1%float) i 3 !! p = Some j
           /\ j < 3
           /\ length (vertex_at [0; 100]%float 1 i) = 1
           /\ length (vertex_at [0; 100; 0.5]%float 1 j) = 1
           /\ to_index e = (N.of_nat j mod 4294967296)%N
           /\ cost e = l1_distance (vertex_at [0; 100]%float 1 i)
                         (vertex_at [0; 100; 0.5]%float 1 j).
Proof.
  apply (calculateEdgeWeights_cost bounded_travel_robot None [0; 100]%float
           [0; 100; 0.5]%float 1 2 3 (mkTiming true 1%float)).
  - lia.
  - reflexivity.
  - reflexivity.
Defined.

(** C2: with a specified timing on the target rung, a pair [(i, j)] that the
    oracle's [isValidMove] rejects gets no edge: no edge of list [i] points
    to [j]. With an unspecified timing [isValidMove] is never called and
    every pair gets its edge. (Destination indices are stored in an
    [unsigned]: the target rung has at most 2^32 vertices.) *)
Theorem calculateEdgeWeights_move_check
    (robot : RobotModel) (user : option (list double -> list double -> double))
    (start_joints end_joints : list double) (dof n_from n_to : nat)
    (tm : TimingConstraint) :
  0 < dof ->
  length start_joints = n_from * dof ->
  length end_joints = n_to * dof ->
  (N.of_nat n_to <= 4294967296)%N ->
  exists edges log,
    calculateEdgeWeights robot user start_joints end_joints dof tm = Some (edges, log)
    /\ (isSpecified tm = true ->
        forall (i j : nat) (es : EdgeList) (e : Edge),
          j < n_to ->
          isValidMove robot (vertex_at start_joints dof i) (vertex_at end_joints dof j)
            (upper tm) = false ->
          edges !! i = Some es -> e ∈ es -> to_index e <> N.of_nat j)
    /\ (isSpecified tm = false ->
        log = []
        /\ forall i j : nat,
             i < n_from -> j < n_to ->
             exists (es : EdgeList) (e : Edge),
               edges !! i = Some es /\ es !! j = Some e /\ to_index e = N.of_nat j).
Proof.
  intros Hdof Hs He Hrange. eexists _, _. split; [|split].
  - by apply (calculateEdgeWeights_spec robot user _ _ dof n_from n_to).
  - intros Htm i j es e Hj Hbad Hes Hin Hto.
    apply built_edges_lookup in Hes as [_ ->].
    apply list_elem_of_lookup in Hin as [p Hp].
    apply emitted_lookup in Hp as (j' & _ & Hj' & Hadm & ->).
    simpl in Hto. rewrite N.mod_small in Hto by lia.
    assert (j' = j) as -> by lia.
    unfold permitted in Hadm. by rewrite Htm, Hbad in Hadm.
  - intros Htm. split; [by apply built_calls_unspecified|].
    intros i j Hi Hj. eexists _, _. split; [|split].
    + unfold built_edges. rewrite list_lookup_fmap, lookup_seq_lt by done. done.
    + unfold emitted. rewrite permitted_destinations_unspecified by done.
      rewrite list_lookup_fmap, lookup_seq_lt by done. done.
    + simpl. apply N.mod_small. lia.
Qed.

Lemma calculateEdgeWeights_move_check_witness :
  exists edges log,
    calculateEdgeWeights bounded_travel_robot None [0; 100]%float [0; 100; 0.5]%float 1
      (mkTiming true 1%float) = Some (edges, log)
    /\ (isSpecified (mkTiming true 1%float) = true ->
        forall (i j : nat) (es : EdgeList) (e : Edge),
          j < 3 ->
          isValidMove bounded_travel_robot (vertex_at [0; 100]%float 1 i)
            (vertex_at [0; 100; 0.5]%float 1 j) (upper (mkTiming true 1%float)) = false ->
          edges !! i = Some es -> e ∈ es -> to_index e <> N.of_nat j)
    /\ (isSpecified (mkTiming true 1%float) = false ->
        log = []
        /\ forall i j : nat,
             i < 2 -> j < 3 ->
             exists (es : EdgeList) (e : Edge),
               edges !! i = Some es /\ es !! j = Some e /\ to_index e = N.of_nat j).
Proof.
  apply (calculateEdgeWeights_move_check bounded_travel_robot None [0; 100]%float
           [0; 100; 0.5]%float 1 2 3 (mkTiming true 1%float)).
  - lia.
  - reflexivity.
  - reflexivity.
  - vm_compute. discriminate.
Defined.

(** C3: for two adjacent rungs the builder returns exactly [n_from] edge
    lists, the [i]-th one made of the edges out of source vertex [i]; the
    [to_index] values of a list are the enumeration indices of the
    destinations that passed the move check, skipped destinations still being
    counted, in strictly ascending order. (Destination indices are stored in
    an [unsigned]: the target rung has at most 2^32 vertices.) *)
Theorem calculateEdgeWeights_shape
    (robot : RobotModel) (user : option (list double -> list double -> double))
    (start_joints end_joints : list double) (dof n_from n_to : nat)
    (tm : TimingConstraint) :
  0 < dof ->
  length start_joints = n_from * dof ->
  length end_joints = n_to * dof ->
  (N.of_nat n_to <= 4294967296)%N ->
  exists edges log,
    calculateEdgeWeights robot user start_joints end_joints dof tm = Some (edges, log)
    /\ length edges = n_from
    /\ forall i : nat,
         i < n_from ->
         exists es : EdgeList,
           edges !! i = Some es
           /\ to_index <$> es
              = N.of_nat <$> permitted_destinations robot start_joints end_joints dof tm i n_to
           /\ forall (p q : nat) (e1 e2 : Edge),
                p < q -> es !! p = Some e1 -> es !! q = Some e2 ->
                (to_index e1 < to_index e2)%N.
Proof.
  intros Hdof Hs He Hrange. eexists _, _. split; [|split].
  - by apply (calculateEdgeWeights_spec robot user _ _ dof n_from n_to).
  - unfold built_edges. by rewrite length_fmap, length_seq.
  - intros i Hi. eexists. split; [|split].
    + unfold built_edges. rewrite list_lookup_fmap, lookup_seq_lt by done. done.
    + unfold emitted. rewrite <- list_fmap_compose.
      apply list_fmap_ext. intros p j Hj. simpl.
      apply (filter_seq_elem _ 0 n_to []) in Hj. apply N.mod_small. lia.
    + intros p q e1 e2 Hpq H1 H2.
      apply emitted_lookup in H1 as (j1 & Hj1 & Hlt1 & _ & ->).
      apply emitted_lookup in H2 as (j2 & Hj2 & Hlt2 & _ & ->).
      simpl. rewrite !N.mod_small by lia.
      pose proof (filter_seq_ascending _ _ _ _ _ _ _ Hpq Hj1 Hj2). lia.
Qed.

Lemma calculateEdgeWeights_shape_witness :
  exists edges log,
    calculateEdgeWeights bounded_travel_robot None [0; 100]%float [0; 100; 0.5]%float 1
      (mkTiming true 1%float) = Some (edges, log)
    /\ length edges = 2
    /\ forall i : nat,
         i < 2 ->
         exists es : EdgeList,
           edges !! i = Some es
           /\ to_index <$> es
              = N.of_nat <$> permitted_destinations bounded_travel_robot [0; 100]%float
                               [0; 100; 0.5]%float 1 (mkTiming true 1%float) i 3
           /\ forall (p q : nat) (e1 e2 : Edge),
                p < q -> es !! p = Some e1 -> es !! q = Some e2 ->
                (to_index e1 < to_index e2)%N.
Proof.
  apply (calculateEdgeWeights_shape bounded_travel_robot None [0; 100]%float
           [0; 100; 0.5]%float 1 2 3 (mkTiming true 1%float)).
  - lia.
  - reflexivity.
  - reflexivity.
  - vm_compute. discriminate.
Defined.

(** ** The facade *)

Lemma flat_rung_exact (dof : nat) (r : LadderGraph.Rung) :
  0 < dof -> flat_rung dof r ->
  length (LadderGraph.data r) = length (LadderGraph.data r) / dof * dof.
Proof.
  unfold flat_rung. intros Hdof Hflat.
  rewrite Nat.mul_comm. apply Nat.Div0.div_exact. done.
Qed.

Lemma concat_dof_poses (dof : nat) (poses : list (list double)) :
  dof_poses dof poses -> length (concat poses) mod dof = 0.
Proof.
  unfold dof_poses. induction 1 as [|q l Hq _ IH]; simpl.
  - apply Nat.Div0.mod_0_l.
  - rewrite length_app, Hq. rewrite <- Nat.Div0.add_mod_idemp_l, Nat.Div0.mod_same.
    done.
Qed.

Section FacadeLemmas.

Variable robot_model_ : RobotModel.
Variable custom_cost_function_ : option (list double -> list double -> double).

Local Abbreviation DOF := (getDOF robot_model_).

(** [computeAndAssignEdges] on two flat rungs installs the block of the
    builder with the start rung and touches nothing else. *)
Lemma computeAndAssignEdges_flat (a b : nat) (pg : PlanningGraph)
    (r1 r2 : LadderGraph.Rung) :
  LadderGraph.dof_ (graph_ pg) = DOF -> 0 < DOF ->
  LadderGraph.rungs_ (graph_ pg) !! a = Some r1 ->
  LadderGraph.rungs_ (graph_ pg) !! b = Some r2 ->
  flat_rung DOF r1 -> flat_rung DOF r2 ->
  computeAndAssignEdges robot_model_ custom_cost_function_ a b pg
  = Some (mkPlanningGraph
            (LadderGraph.with_rungs (graph_ pg)
               (<[a := LadderGraph.set_edges
                         (edge_block robot_model_ custom_cost_function_ DOF r1 r2) r1]>
                  (LadderGraph.rungs_ (graph_ pg))))
            (oracle_log pg ++ edge_block_calls DOF r1 r2)).
Proof.
  intros Hdof Hpos Ha Hb Hf1 Hf2.
  unfold computeAndAssignEdges, LadderGraph.getRung. rewrite Ha, Hb. simpl.
  rewrite (calculateEdgeWeights_spec robot_model_ custom_cost_function_ _ _ DOF
             (length (LadderGraph.data r1) / DOF) (length (LadderGraph.data r2) / DOF))
    by (done || by apply flat_rung_exact).
  simpl. unfold LadderGraph.assignEdges, LadderGraph.getRung. rewrite Ha. simpl.
  unfold LadderGraph.rungSize. rewrite Hdof.
  destruct (decide _) as [_|Hbad]; [done|].
  exfalso. apply Hbad. unfold built_edges. by rewrite length_fmap, length_seq.
Qed.

(** Frame of [computeAndAssignEdges] on a well-formed graph: it succeeds,
    keeps the graph well-formed and the log's past, and only replaces the
    edge block of rung [a]. *)
Lemma computeAndAssignEdges_frame (a b : nat) (pg : PlanningGraph) :
  wf_graph robot_model_ (graph_ pg) ->
  a < LadderGraph.size (graph_ pg) -> b < LadderGraph.size (graph_ pg) ->
  exists pg',
    computeAndAssignEdges robot_model_ custom_cost_function_ a b pg = Some pg'
    /\ wf_graph robot_model_ (graph_ pg')
    /\ length (LadderGraph.rungs_ (graph_ pg')) = length (LadderGraph.rungs_ (graph_ pg))
    /\ forall (j : nat) (r : LadderGraph.Rung),
         LadderGraph.rungs_ (graph_ pg) !! j = Some r ->
         exists es,
           LadderGraph.rungs_ (graph_ pg') !! j = Some (LadderGraph.set_edges es r)
           /\ (j <> a -> es = LadderGraph.edges r).
Proof.
  intros (Hdof & Hpos & Hflat) Ha Hb. unfold LadderGraph.size in Ha, Hb.
  destruct (lookup_lt_is_Some_2 _ _ Ha) as [r1 Hr1].
  destruct (lookup_lt_is_Some_2 _ _ Hb) as [r2 Hr2].
  pose proof (proj1 (Forall_lookup _ _) Hflat) as Hall.
  eexists. split; [|split; [|split]].
  - apply (computeAndAssignEdges_flat a b pg r1 r2); eauto.
  - simpl. repeat split; [done..|].
    apply Forall_insert; [done|]. exact (Hall a r1 Hr1).
  - simpl. by rewrite length_insert.
  - simpl. intros j r Hj. destruct (decide (j = a)) as [->|Hne].
    + rewrite list_lookup_insert_eq by done. rewrite Hr1 in Hj. injection Hj as <-.
      by eexists.
    + rewrite list_lookup_insert_ne by done. exists (LadderGraph.edges r).
      split; [|done]. rewrite Hj. by destruct r.
Qed.

End FacadeLemmas.

(** *** Looking a waypoint up *)

Lemma find_id_absent (wanted : ID) (rs : list LadderGraph.Rung) (i : nat) :
  (forall r, r ∈ rs -> LadderGraph.id r <> wanted) ->
  LadderGraph.find_id wanted rs i = (0, false).
Proof.
  revert i. induction rs as [|r rs IH]; intros i Habsent; [done|].
  simpl. destruct (N.eqb_spec (LadderGraph.id r) wanted) as [Heq|_].
  - destruct (Habsent r); [left|done].
  - apply IH. intros r' Hr'. apply Habsent. by right.
Qed.

Lemma find_id_present (wanted : ID) (rs : list LadderGraph.Rung) (i k : nat) :
  LadderGraph.find_id wanted rs i = (k, true) ->
  exists r, rs !! (k - i) = Some r /\ LadderGraph.id r = wanted /\ i <= k.
Proof.
  revert i. induction rs as [|r rs IH]; intros i Hfind; [done|].
  simpl in Hfind. destruct (N.eqb_spec (LadderGraph.id r) wanted) as [Heq|_].
  - injection Hfind as <-. exists r. rewrite Nat.sub_diag. done.
  - apply IH in Hfind as (r' & Hr' & Hid & Hle). exists r'.
    replace (k - i) with (S (k - S i)) by lia. repeat split; [done..|lia].
Qed.

Lemma indexOf_present (g : LadderGraph.t) (wanted : ID) (k : nat) :
  LadderGraph.indexOf g wanted = (k, true) ->
  exists r, LadderGraph.rungs_ g !! k = Some r /\ LadderGraph.id r = wanted.
Proof.
  unfold LadderGraph.indexOf. intros Hfind.
  apply find_id_present in Hfind as (r & Hr & Hid & _).
  rewrite Nat.sub_0_r in Hr. by exists r.
Qed.

(** C9: with fewer than two waypoints [insertGraph] returns the failure flag
    and the planner is exactly as before: a non-empty graph is not reset and
    no query has been added to the oracle log. *)
Theorem insertGraph_too_few_points
    (robot : RobotModel) (user : option (list double -> list double -> double))
    (points : list TrajectoryPt) (pg : PlanningGraph) :
  length points < 2 ->
  insertGraph robot user points pg = Some (false, pg).
Proof.
  intros Hfew. unfold insertGraph. by destruct (decide _).
Qed.

Lemma insertGraph_too_few_points_witness :
  insertGraph bounded_travel_robot None [point_4] three_rungs
  = Some (false, three_rungs).
Proof.
  apply (insertGraph_too_few_points bounded_travel_robot None [point_4] three_rungs).
  simpl. lia.
Defined.

(** C8: [modifyTrajectory] and [removeTrajectory] called with a point whose
    id no rung carries return the failure flag and leave the planner, hence
    the rungs, the edges and the id index, exactly as before. *)
Theorem unknown_id_leaves_graph_untouched
    (robot : RobotModel) (user : option (list double -> list double -> double))
    (point : TrajectoryPt) (pg : PlanningGraph) :
  (forall r, r ∈ LadderGraph.rungs_ (graph_ pg) -> LadderGraph.id r <> getID point) ->
  modifyTrajectory robot user point pg = Some (false, pg)
  /\ removeTrajectory robot user point pg = Some (false, pg).
Proof.
  intros Habsent. unfold modifyTrajectory, removeTrajectory, LadderGraph.indexOf.
  by rewrite find_id_absent.
Qed.

Lemma unknown_id_leaves_graph_untouched_witness :
  modifyTrajectory bounded_travel_robot None point_4 three_rungs = Some (false, three_rungs)
  /\ removeTrajectory bounded_travel_robot None point_4 three_rungs
     = Some (false, three_rungs).
Proof.
  apply (unknown_id_leaves_graph_untouched bounded_travel_robot None point_4 three_rungs).
  intros r Hr. vm_compute in Hr.
  repeat (apply elem_of_cons in Hr as [->|Hr]; [vm_compute; discriminate|]).
  by apply elem_of_nil in Hr.
Defined.

(** *** Joint solutions *)

Lemma joint_solutions_from_fails robot (points : list TrajectoryPt) (i : nat)
    (poses : list (list (list double))) (log : list OracleCall) :
  (exists point, point ∈ points /\ getJointPoses point robot = []) ->
  (joint_solutions_from robot points i poses log).1.1 = false.
Proof.
  intros (point & Hin & Hnone). revert i poses log.
  induction points as [|p rest IH]; intros i poses log.
  - by apply elem_of_nil in Hin.
  - simpl. destruct (getJointPoses p robot) as [|q qs] eqn:Hp; [done|].
    apply elem_of_cons in Hin as [->|Hin]; [congruence|]. by apply IH.
Qed.

Lemma calculateJointSolutions_single robot (point : TrajectoryPt)
    (log : list OracleCall) :
  exists ok,
    calculateJointSolutions robot [point] log
    = (ok, [getJointPoses point robot], log ++ [JointPosesCall point]).
Proof.
  unfold calculateJointSolutions. simpl.
  destruct (getJointPoses point robot) as [|q qs]; by eexists.
Qed.

(** C7: given at least two waypoints, if the oracle has no joint
    configuration for one of them, [insertGraph] returns the failure flag
    and leaves the graph without a single rung: the joint poses of all
    waypoints are computed before [allocate]. *)
Theorem insertGraph_ik_failure
    (robot : RobotModel) (user : option (list double -> list double -> double))
    (points : list TrajectoryPt) (pg : PlanningGraph) :
  2 <= length points ->
  (exists point, point ∈ points /\ getJointPoses point robot = []) ->
  exists pg',
    insertGraph robot user points pg = Some (false, pg')
    /\ LadderGraph.rungs_ (graph_ pg') = []
    /\ LadderGraph.size (graph_ pg') = 0.
Proof.
  intros Hlen Hfail. unfold insertGraph.
  destruct (decide (length points < 2)) as [|_]; [lia|].
  pose proof (joint_solutions_from_fails robot points 0
                (replicate (length points) []) (oracle_log pg) Hfail) as Hok.
  unfold calculateJointSolutions.
  destruct (joint_solutions_from _ _ _ _ _) as [[ok sols] log]. simpl in Hok.
  rewrite Hok. simpl. eexists. split; [done|]. simpl.
  destruct (decide _) as [|Hempty]; [done|].
  unfold LadderGraph.size in *.
  destruct (LadderGraph.rungs_ (graph_ pg)); [done|simpl in Hempty; lia].
Qed.

Lemma insertGraph_ik_failure_witness :
  exists pg',
    insertGraph bounded_travel_robot None [point_1; unreachable 9%N; point_3] three_rungs
    = Some (false, pg')
    /\ LadderGraph.rungs_ (graph_ pg') = []
    /\ LadderGraph.size (graph_ pg') = 0.
Proof.
  apply (insertGraph_ik_failure bounded_travel_robot None
           [point_1; unreachable 9%N; point_3] three_rungs).
  - simpl. lia.
  - exists (unreachable 9%N). split; [|reflexivity].
    apply elem_of_cons. right. apply elem_of_cons. by left.
Defined.

(** *** Modifying a rung in place *)

Section ModifyLemmas.

Variable robot_model_ : RobotModel.
Variable custom_cost_function_ : option (list double -> list double -> double).

Local Abbreviation DOF := (getDOF robot_model_).

(** An optional [computeAndAssignEdges], as after the [if]s of the facade. *)
Lemma optional_edges_frame (wanted : bool) (a b : nat) (pg : PlanningGraph) :
  wf_graph robot_model_ (graph_ pg) ->
  (wanted = true ->
   a < LadderGraph.size (graph_ pg) /\ b < LadderGraph.size (graph_ pg)) ->
  exists pg',
    (if wanted
     then computeAndAssignEdges robot_model_ custom_cost_function_ a b pg
     else Some pg) = Some pg'
    /\ wf_graph robot_model_ (graph_ pg')
    /\ length (LadderGraph.rungs_ (graph_ pg')) = length (LadderGraph.rungs_ (graph_ pg))
    /\ forall (j : nat) (r : LadderGraph.Rung),
         LadderGraph.rungs_ (graph_ pg) !! j = Some r ->
         exists es,
           LadderGraph.rungs_ (graph_ pg') !! j = Some (LadderGraph.set_edges es r)
           /\ ((wanted = true -> j <> a) -> es = LadderGraph.edges r).
Proof.
  intros Hwf Hrange. destruct wanted.
  - destruct Hrange as [Ha Hb]; [done|].
    destruct (computeAndAssignEdges_frame robot_model_ custom_cost_function_ a b pg)
      as (pg' & Hrun & Hwf' & Hlen & Hframe); [done..|].
    exists pg'. split; [done|]. split; [done|]. split; [done|]. intros j r Hj.
    destruct (Hframe j r Hj) as (es & Hes & Hsame). exists es. split; [done|].
    intros Hne. apply Hsame. by apply Hne.
  - exists pg. split; [done|]. split; [done|]. split; [done|]. intros j r Hj.
    exists (LadderGraph.edges r). split; [|done]. rewrite Hj. by destruct r.
Qed.

Lemma modifyTrajectory_found (point : TrajectoryPt) (pg : PlanningGraph) (idx : nat) :
  wf_graph robot_model_ (graph_ pg) ->
  LadderGraph.indexOf (graph_ pg) (getID point) = (idx, true) ->
  dof_poses DOF (getJointPoses point robot_model_) ->
  exists pg',
    modifyTrajectory robot_model_ custom_cost_function_ point pg = Some (true, pg')
    /\ wf_graph robot_model_ (graph_ pg')
    /\ length (LadderGraph.rungs_ (graph_ pg')) = length (LadderGraph.rungs_ (graph_ pg))
    /\ (exists es,
          LadderGraph.rungs_ (graph_ pg') !! idx
          = Some (LadderGraph.mkRung (getID point) (getTiming point)
                    (concat (getJointPoses point robot_model_)) es))
    /\ forall (j : nat) (r : LadderGraph.Rung),
         j <> idx ->
         LadderGraph.rungs_ (graph_ pg) !! j = Some r ->
         exists es,
           LadderGraph.rungs_ (graph_ pg') !! j = Some (LadderGraph.set_edges es r)
           /\ (S j <> idx -> es = LadderGraph.edges r).
Proof.
  intros Hwf Hidx Hposes.
  destruct (indexOf_present _ _ _ Hidx) as (r0 & Hr0 & _).
  pose proof (lookup_lt_Some _ _ _ Hr0) as Hlt.
  destruct Hwf as (Hdof & Hpos & Hflat).
  unfold modifyTrajectory. rewrite Hidx. simpl.
  destruct (calculateJointSolutions_single robot_model_ point (oracle_log pg))
    as [ok ->].
  unfold LadderGraph.clearVertices, LadderGraph.clearEdges, LadderGraph.assignRung,
    LadderGraph.getRung.
  rewrite Hr0. simpl. rewrite list_lookup_insert_eq by done. simpl.
  rewrite list_lookup_insert_eq by (by rewrite length_insert). simpl.
  rewrite Hdof. destruct (decide _) as [_|Hbad]; [|by destruct Hbad; apply concat_dof_poses].
  simpl. rewrite !list_insert_insert_eq.
  set (new_rung := LadderGraph.mkRung (getID point) (getTiming point)
                     (concat (getJointPoses point robot_model_)) []).
  set (pg3 := mkPlanningGraph _ _).
  assert (wf_graph robot_model_ (graph_ pg3)) as Hwf3.
  { repeat split; [done..|]. simpl. apply Forall_insert; [done|].
    by apply concat_dof_poses. }
  assert (LadderGraph.size (graph_ pg3) = length (LadderGraph.rungs_ (graph_ pg)))
    as Hsize3 by (unfold LadderGraph.size; simpl; by rewrite length_insert).
  destruct (optional_edges_frame (negb (LadderGraph.isFirst idx)) (size_pred idx) idx pg3)
    as (pg1 & -> & Hwf1 & Hlen1 & Hframe1); [done| |].
  { unfold LadderGraph.isFirst. destruct idx; [done|].
    intros _. rewrite Hsize3. simpl. lia. }
  simpl.
  destruct (optional_edges_frame (negb (LadderGraph.isLast (graph_ pg1) idx)) idx
              (idx + 1) pg1) as (pg2 & -> & Hwf2 & Hlen2 & Hframe2); [done| |].
  { unfold LadderGraph.isLast, LadderGraph.size in *.
    destruct (Nat.eqb_spec (idx + 1) (length (LadderGraph.rungs_ (graph_ pg1))));
      [done|]. intros _. lia. }
  simpl. eexists. split; [done|]. split; [done|]. split; [unfold LadderGraph.size in Hsize3; lia|]. split.
  - destruct (Hframe1 idx new_rung) as (es1 & H1 & _);
      [simpl; by apply list_lookup_insert_eq|].
    destruct (Hframe2 idx _ H1) as (es2 & H2 & _). by exists es2.
  - intros j r Hne Hj.
    destruct (Hframe1 j r) as (es1 & H1 & Hsame1);
      [simpl; by rewrite list_lookup_insert_ne|].
    destruct (Hframe2 j _ H1) as (es2 & H2 & Hsame2).
    exists es2. split; [done|]. intros Hprev.
    rewrite Hsame2 by done. simpl. apply Hsame1.
    destruct idx; [done|]. simpl. lia.
Qed.

End ModifyLemmas.

(** *** Adding a rung *)

Lemma invalidate_before_flat (dof i : nat) (rs : list LadderGraph.Rung) :
  Forall (flat_rung dof) rs -> Forall (flat_rung dof) (LadderGraph.invalidate_before i rs).
Proof.
  intros Hflat. destruct i as [|k]; [done|]. simpl.
  apply Forall_alter; [done|]. by intros [].
Qed.

Lemma invalidate_before_length (i : nat) (rs : list LadderGraph.Rung) :
  length (LadderGraph.invalidate_before i rs) = length rs.
Proof. destruct i; [done|]. simpl. by rewrite length_alter. Qed.

Lemma invalidate_before_lookup (i j : nat) (rs : list LadderGraph.Rung) :
  i <= j -> LadderGraph.invalidate_before i rs !! j = rs !! j.
Proof.
  intros Hij. destruct i as [|k]; [done|]. simpl.
  apply list_lookup_alter_ne. lia.
Qed.

Section AddLemmas.

Variable robot_model_ : RobotModel.
Variable custom_cost_function_ : option (list double -> list double -> double).

Local Abbreviation DOF := (getDOF robot_model_).

Lemma insert_position_lt (g : LadderGraph.t) (next_id : ID) :
  0 < LadderGraph.size g -> insert_position g next_id < LadderGraph.size g.
Proof.
  intros Hsize. unfold insert_position.
  destruct (LadderGraph.indexOf g next_id) as [k found] eqn:Hidx. simpl.
  destruct found.
  - destruct (indexOf_present _ _ _ Hidx) as (r & Hr & _).
    by apply lookup_lt_Some in Hr.
  - unfold LadderGraph.size in *. destruct (length _); simpl; lia.
Qed.

Lemma addTrajectory_inserts (point : TrajectoryPt) (previous_id next_id : ID)
    (pg : PlanningGraph) :
  wf_graph robot_model_ (graph_ pg) ->
  dof_poses DOF (getJointPoses point robot_model_) ->
  0 < LadderGraph.size (graph_ pg) ->
  (is_nil previous_id = false -> 0 < insert_position (graph_ pg) next_id) ->
  exists pg',
    addTrajectory robot_model_ custom_cost_function_ point previous_id next_id pg
    = Some (true, pg')
    /\ wf_graph robot_model_ (graph_ pg')
    /\ LadderGraph.size (graph_ pg') = S (LadderGraph.size (graph_ pg))
    /\ (exists es,
          LadderGraph.rungs_ (graph_ pg') !! insert_position (graph_ pg) next_id
          = Some (LadderGraph.mkRung (getID point) (getTiming point)
                    (concat (getJointPoses point robot_model_)) es))
    /\ forall (j : nat) (r : LadderGraph.Rung),
         insert_position (graph_ pg) next_id <= j ->
         LadderGraph.rungs_ (graph_ pg) !! j = Some r ->
         LadderGraph.rungs_ (graph_ pg') !! S j = Some r.
Proof.
  intros Hwf Hposes Hsize Hprev.
  pose proof (insert_position_lt (graph_ pg) next_id Hsize) as Hlt.
  destruct Hwf as (Hdof & Hpos & Hflat).
  unfold addTrajectory.
  destruct (calculateJointSolutions_single robot_model_ point (oracle_log pg))
    as [ok ->].
  fold (insert_position (graph_ pg) next_id).
  set (i := insert_position (graph_ pg) next_id) in *. clearbody i.
  unfold LadderGraph.insertRung, LadderGraph.size in *.
  destruct (decide _) as [_|Hbad]; [|lia]. simpl.
  set (rs0 := LadderGraph.invalidate_before i (LadderGraph.rungs_ (graph_ pg))).
  assert (length rs0 = length (LadderGraph.rungs_ (graph_ pg))) as Hlen0
    by apply invalidate_before_length.
  assert (length (take i rs0) = i) as Htake by (rewrite length_take; lia).
  unfold LadderGraph.assignRung, LadderGraph.getRung. simpl.
  rewrite lookup_app_r by lia. rewrite Htake, Nat.sub_diag. simpl.
  rewrite Hdof. destruct (decide _) as [_|Hbad]; [|by destruct Hbad; apply concat_dof_poses].
  simpl.
  rewrite insert_app_r_alt by lia. rewrite Htake, Nat.sub_diag. simpl.
  set (new_rung := LadderGraph.mkRung (getID point) (getTiming point)
                     (concat (getJointPoses point robot_model_)) []).
  set (pg2 := mkPlanningGraph _ _).
  assert (wf_graph robot_model_ (graph_ pg2)) as Hwf2.
  { repeat split; [done..|]. simpl. apply Forall_app. split.
    - by apply Forall_take, invalidate_before_flat.
    - apply Forall_cons. split; [by apply concat_dof_poses|].
      by apply Forall_drop, invalidate_before_flat. }
  assert (length (LadderGraph.rungs_ (graph_ pg2))
          = S (length (LadderGraph.rungs_ (graph_ pg)))) as Hsize2.
  { simpl. rewrite length_app, Htake. simpl. rewrite length_drop. lia. }
  destruct (optional_edges_frame robot_model_ custom_cost_function_
              (negb (is_nil previous_id)) (size_pred i) i pg2)
    as (pg3 & -> & Hwf3 & Hlen3 & Hframe3); [done| |].
  { intros Hwanted. apply negb_true_iff in Hwanted. specialize (Hprev Hwanted).
    unfold LadderGraph.size. rewrite Hsize2. destruct i; [lia|]. simpl. lia. }
  simpl.
  destruct (optional_edges_frame robot_model_ custom_cost_function_
              (negb (is_nil next_id)) i (i + 1) pg3)
    as (pg4 & -> & Hwf4 & Hlen4 & Hframe4); [done| |].
  { intros _. unfold LadderGraph.size. lia. }
  simpl. eexists. split; [done|]. split; [done|]. split; [lia|]. split.
  - destruct (Hframe3 i new_rung) as (es1 & H1 & _).
    { simpl. rewrite lookup_app_r by lia. by rewrite Htake, Nat.sub_diag. }
    destruct (Hframe4 i _ H1) as (es2 & H2 & _). by exists es2.
  - intros j r Hij Hj.
    destruct (Hframe3 (S j) r) as (es1 & H1 & Hsame1).
    { simpl. rewrite lookup_app_r by lia. rewrite Htake.
      replace (S j - i) with (S (j - i)) by lia. simpl.
      rewrite lookup_drop. replace (i + (j - i)) with j by lia.
      unfold rs0. by rewrite invalidate_before_lookup. }
    destruct (Hframe4 (S j) _ H1) as (es2 & H2 & Hsame2).
    rewrite H2, Hsame2 by (intros _; lia). simpl. rewrite Hsame1; [by destruct r|].
    intros Hwanted. apply negb_true_iff in Hwanted. specialize (Hprev Hwanted).
    destruct i; [lia|]. simpl. lia.
Qed.

End AddLemmas.

(** ** Incremental edits of the graph *)

(** C6: [modifyTrajectory] on a rung of the graph (in particular an interior
    one) succeeds and changes only that rung's vertices and timing, the edge
    block out of the previous rung and the edge block out of the rung itself,
    towards the next one. The rung keeps its identity; every other rung
    keeps its identity, timing and joint data; every edge block other than
    those two is unchanged. *)
Theorem modifyTrajectory_frame
    (robot : RobotModel) (user : option (list double -> list double -> double))
    (point : TrajectoryPt) (pg : PlanningGraph) (idx : nat) :
  wf_graph robot (graph_ pg) ->
  dof_poses (getDOF robot) (getJointPoses point robot) ->
  LadderGraph.indexOf (graph_ pg) (getID point) = (idx, true) ->
  exists pg',
    modifyTrajectory robot user point pg = Some (true, pg')
    /\ LadderGraph.size (graph_ pg') = LadderGraph.size (graph_ pg)
    /\ (exists old new,
          LadderGraph.rungs_ (graph_ pg) !! idx = Some old
          /\ LadderGraph.rungs_ (graph_ pg') !! idx = Some new
          /\ LadderGraph.id new = LadderGraph.id old
          /\ LadderGraph.timing new = getTiming point
          /\ LadderGraph.data new = concat (getJointPoses point robot))
    /\ forall (j : nat) (r : LadderGraph.Rung),
         j <> idx ->
         LadderGraph.rungs_ (graph_ pg) !! j = Some r ->
         exists r',
           LadderGraph.rungs_ (graph_ pg') !! j = Some r'
           /\ LadderGraph.id r' = LadderGraph.id r
           /\ LadderGraph.timing r' = LadderGraph.timing r
           /\ LadderGraph.data r' = LadderGraph.data r
           /\ (j + 1 <> idx -> LadderGraph.edges r' = LadderGraph.edges r).
Proof.
  intros Hwf Hposes Hidx.
  destruct (modifyTrajectory_found robot user point pg idx Hwf Hidx Hposes)
    as (pg' & Hrun & _ & Hlen & (es & Hnew) & Hframe).
  destruct (indexOf_present _ _ _ Hidx) as (old & Hold & Hid).
  exists pg'. split; [done|]. split; [done|]. split.
  - eexists old, _. split; [done|]. split; [done|]. by rewrite Hid.
  - intros j r Hne Hj. destruct (Hframe j r Hne Hj) as (es' & Hr' & Hsame).
    eexists. split; [done|]. repeat split. intros Hprev. simpl. apply Hsame. lia.
Qed.

Lemma modifyTrajectory_frame_witness :
  exists pg',
    modifyTrajectory bounded_travel_robot None
      (fixed_point 3%N (mkTiming true 1%float) [[4%float]; [6%float]; [8%float]])
      five_rungs = Some (true, pg')
    /\ LadderGraph.size (graph_ pg') = LadderGraph.size (graph_ five_rungs)
    /\ (exists old new,
          LadderGraph.rungs_ (graph_ five_rungs) !! 2 = Some old
          /\ LadderGraph.rungs_ (graph_ pg') !! 2 = Some new
          /\ LadderGraph.id new = LadderGraph.id old
          /\ LadderGraph.timing new = mkTiming true 1%float
          /\ LadderGraph.data new = [4%float; 6%float; 8%float])
    /\ forall (j : nat) (r : LadderGraph.Rung),
         j <> 2 ->
         LadderGraph.rungs_ (graph_ five_rungs) !! j = Some r ->
         exists r',
           LadderGraph.rungs_ (graph_ pg') !! j = Some r'
           /\ LadderGraph.id r' = LadderGraph.id r
           /\ LadderGraph.timing r' = LadderGraph.timing r
           /\ LadderGraph.data r' = LadderGraph.data r
           /\ (j + 1 <> 2 -> LadderGraph.edges r' = LadderGraph.edges r).
Proof.
  apply (modifyTrajectory_frame bounded_travel_robot None
           (fixed_point 3%N (mkTiming true 1%float) [[4%float]; [6%float]; [8%float]])
           five_rungs 2).
  - split; [reflexivity|]. split; [simpl; lia|]. vm_compute. repeat constructor.
  - repeat constructor.
  - reflexivity.
Defined.

(** C10: [addTrajectory] and [modifyTrajectory] discard the outcome of
    [calculateJointSolutions]. When the oracle has no joint configuration
    for the point, [modifyTrajectory] (the id being found) and
    [addTrajectory] (whatever the point, inserting at [insert_idx] in a
    graph that has a rung there and, if a previous id is given, a rung
    before) still install a rung with zero vertices and still return [true]. *)
Theorem ik_failure_is_discarded
    (robot : RobotModel) (user : option (list double -> list double -> double))
    (point : TrajectoryPt) (pg : PlanningGraph) :
  wf_graph robot (graph_ pg) ->
  getJointPoses point robot = [] ->
  (forall idx : nat,
     LadderGraph.indexOf (graph_ pg) (getID point) = (idx, true) ->
     exists pg' es,
       modifyTrajectory robot user point pg = Some (true, pg')
       /\ LadderGraph.rungs_ (graph_ pg') !! idx
          = Some (LadderGraph.mkRung (getID point) (getTiming point) [] es))
  /\ (forall previous_id next_id : ID,
        0 < LadderGraph.size (graph_ pg) ->
        (is_nil previous_id = false -> 0 < insert_position (graph_ pg) next_id) ->
        exists pg' es,
          addTrajectory robot user point previous_id next_id pg = Some (true, pg')
          /\ LadderGraph.size (graph_ pg') = S (LadderGraph.size (graph_ pg))
          /\ LadderGraph.rungs_ (graph_ pg') !! insert_position (graph_ pg) next_id
             = Some (LadderGraph.mkRung (getID point) (getTiming point) [] es)).
Proof.
  intros Hwf Hnone.
  assert (dof_poses (getDOF robot) (getJointPoses point robot)) as Hposes
    by (rewrite Hnone; constructor).
  split.
  - intros idx Hidx.
    destruct (modifyTrajectory_found robot user point pg idx Hwf Hidx Hposes)
      as (pg' & Hrun & _ & _ & (es & Hnew) & _).
    exists pg', es. rewrite Hnone in Hnew. done.
  - intros previous_id next_id Hsize Hprev.
    destruct (addTrajectory_inserts robot user point previous_id next_id pg
                Hwf Hposes Hsize Hprev)
      as (pg' & Hrun & _ & Hlen & (es & Hnew) & _).
    exists pg', es. rewrite Hnone in Hnew. done.
Qed.

Lemma ik_failure_is_discarded_witness :
  (forall idx : nat,
     LadderGraph.indexOf (graph_ three_rungs) (getID (unreachable 2%N)) = (idx, true) ->
     exists pg' es,
       modifyTrajectory bounded_travel_robot None (unreachable 2%N) three_rungs
       = Some (true, pg')
       /\ LadderGraph.rungs_ (graph_ pg') !! idx
          = Some (LadderGraph.mkRung (getID (unreachable 2%N))
                    (getTiming (unreachable 2%N)) [] es))
  /\ (forall previous_id next_id : ID,
        0 < LadderGraph.size (graph_ three_rungs) ->
        (is_nil previous_id = false -> 0 < insert_position (graph_ three_rungs) next_id) ->
        exists pg' es,
          addTrajectory bounded_travel_robot None (unreachable 2%N) previous_id next_id
            three_rungs = Some (true, pg')
          /\ LadderGraph.size (graph_ pg') = S (LadderGraph.size (graph_ three_rungs))
          /\ LadderGraph.rungs_ (graph_ pg') !! insert_position (graph_ three_rungs) next_id
             = Some (LadderGraph.mkRung (getID (unreachable 2%N))
                       (getTiming (unreachable 2%N)) [] es)).
Proof.
  apply (ik_failure_is_discarded bounded_travel_robot None (unreachable 2%N) three_rungs).
  - split; [reflexivity|]. split; [simpl; lia|]. vm_compute. repeat constructor.
  - reflexivity.
Defined.

(** The same for every non-empty graph: with an absent [next_id] the rung
    that was last stays last, behind the new one. *)
Lemma addTrajectory_absent_next_keeps_last
    (robot : RobotModel) (user : option (list double -> list double -> double))
    (point : TrajectoryPt) (next_id : ID) (pg : PlanningGraph) (r_last : LadderGraph.Rung) :
  wf_graph robot (graph_ pg) ->
  dof_poses (getDOF robot) (getJointPoses point robot) ->
  (forall r, r ∈ LadderGraph.rungs_ (graph_ pg) -> LadderGraph.id r <> next_id) ->
  last (LadderGraph.rungs_ (graph_ pg)) = Some r_last ->
  exists pg',
    addTrajectory robot user point 0%N next_id pg = Some (true, pg')
    /\ last (LadderGraph.rungs_ (graph_ pg')) = Some r_last.
Proof.
  intros Hwf Hposes Habsent Hlast.
  assert (0 < LadderGraph.size (graph_ pg)) as Hsize.
  { unfold LadderGraph.size. destruct (LadderGraph.rungs_ (graph_ pg)); [done|simpl; lia]. }
  destruct (addTrajectory_inserts robot user point 0%N next_id pg Hwf Hposes Hsize)
    as (pg' & Hrun & _ & Hlen & _ & Hshift); [done|].
  exists pg'. split; [done|].
  unfold LadderGraph.size in *. rewrite last_lookup in Hlast |- *.
  rewrite Hlen. simpl.
  replace (length (LadderGraph.rungs_ (graph_ pg)))
    with (S (pred (length (LadderGraph.rungs_ (graph_ pg))))) at 1 by lia.
  apply Hshift; [|done].
  unfold insert_position, LadderGraph.indexOf. rewrite find_id_absent by done. simpl.
  unfold LadderGraph.size. destruct (length _); simpl; lia.
Qed.

(** ** The shortest path *)

(** *** Facts on doubles, from the specification of the primitive floats *)

Lemma finite_not_infinity (d : double) :
  d_finite d = true -> PrimFloat.eqb d infinity = false.
Proof.
  unfold d_finite. rewrite FloatAxioms.classify_spec, FloatAxioms.eqb_spec.
  change (Prim2SF infinity) with (S754_infinity false).
  destruct (Prim2SF d) as [s|s| |s m e]; try destruct s; try done.
Qed.

Lemma below_not_infinity (a b : double) :
  (a <? b)%float = true -> PrimFloat.eqb a infinity = false.
Proof.
  rewrite FloatAxioms.ltb_spec, FloatAxioms.eqb_spec.
  change (Prim2SF infinity) with (S754_infinity false).
  destruct (Prim2SF a) as [s|s| |s m e], (Prim2SF b) as [s'|s'| |s' m' e'];
    try destruct s; try destruct s'; try done.
Qed.

Lemma nonneg_finite_iff (d : double) :
  (0 <=? d)%float = true -> d_neq d d_infinity = d_finite d.
Proof.
  unfold d_neq, d_finite, d_infinity. rewrite FloatAxioms.leb_spec, FloatAxioms.classify_spec, FloatAxioms.eqb_spec.
  change (Prim2SF infinity) with (S754_infinity false).
  change (Prim2SF 0) with (S754_zero false).
  destruct (Prim2SF d) as [s|s| |s m e]; try destruct s; try done.
  intros _. unfold SF64classify, SFclassify. by destruct (Z.eqb _ _).
Qed.

Lemma binary_round_aux_shape (prec emax : Z) (sx : bool) (mx ex : Z) (lx : location) :
  binary_round_aux prec emax sx mx ex lx = S754_nan
  \/ binary_round_aux prec emax sx mx ex lx = S754_zero sx
  \/ binary_round_aux prec emax sx mx ex lx = S754_infinity sx
  \/ exists m e, binary_round_aux prec emax sx mx ex lx = S754_finite sx m e.
Proof.
  unfold binary_round_aux.
  destruct (shr_fexp prec emax mx ex lx) as [mrs' e'].
  destruct (shr_fexp prec emax _ e' loc_Exact) as [mrs'' e''].
  destruct (shr_m mrs'') as [|m|m]; [by right; left| |by left].
  destruct (Z.leb e'' (emax - prec)); [|by right; right; left].
  right; right; right. by eexists _, _.
Qed.

Lemma SFadd_no_negative (prec emax : Z) (x c y : spec_float) :
  SFleb (S754_zero false) x = true ->
  SFltb c (S754_zero false) = false ->
  SFltb (SFadd prec emax x c) y = true ->
  SFleb (S754_zero false) (SFadd prec emax x c) = true.
Proof.
  intros Hx Hc Hlt.
  destruct x as [sx|sx| |sx mx ex]; try destruct sx; try done;
    destruct c as [sc|sc| |sc mc ec]; try destruct sc; try done.
  unfold SFadd in *. unfold cond_Zopp in *.
  change (Z.add (Zpos ?p) (Zpos ?q)) with (Zpos (p + q)) in *.
  unfold binary_normalize, binary_round in *.
  destruct (shl_align _ _ _) as [mz ez].
  destruct (binary_round_aux_shape prec emax false (Zpos mz) ez loc_Exact)
    as [Hr|[Hr|[Hr|(m & e & Hr)]]]; rewrite Hr in Hlt |- *; done.
Qed.

Lemma add_no_negative (d c y : double) :
  (0 <=? d)%float = true ->
  (c <? 0)%float = false ->
  (d + c <? y)%float = true ->
  (0 <=? d + c)%float = true.
Proof.
  rewrite !FloatAxioms.leb_spec, !FloatAxioms.ltb_spec, FloatAxioms.add_spec.
  change (Prim2SF 0) with (S754_zero false).
  apply SFadd_no_negative.
Qed.

(** *** Relaxation keeps the columns linked, sized and free of negative
    distances *)

Section Relaxation.

Import DijkstrasSearch.

Lemma relax_edge_length (i v : nat) (d : double) (next : Column) (e : Edge) :
  length (distance (relax_edge i v d next e)) = length (distance next).
Proof.
  unfold relax_edge. destruct (N.ltb _ _); [|done].
  destruct (distance next !! _); [|done].
  destruct (PrimFloat.ltb _ _); [|done]. simpl. by rewrite length_insert.
Qed.

Lemma relax_edge_linked (prev : list double) (i v : nat) (d : double)
    (next : Column) (e : Edge) :
  prev !! v = Some d -> d_finite d = true ->
  linked_to prev next -> linked_to prev (relax_edge i v d next e).
Proof.
  intros Hv Hfin [Hlen Hlink]. unfold relax_edge.
  destruct (N.ltb _ _); [|done].
  destruct (distance next !! N.to_nat (to_index e)) as [dj|] eqn:Hj; [|done].
  destruct (PrimFloat.ltb _ _) eqn:Hlt; [|done].
  pose proof (lookup_lt_Some _ _ _ Hj) as Hrange.
  split; simpl; [by rewrite !length_insert|].
  intros j d' Hd' Hreached.
  destruct (decide (j = N.to_nat (to_index e))) as [->|Hne].
  - exists i, v, d. rewrite list_lookup_insert_eq by lia. done.
  - rewrite list_lookup_insert_ne in Hd' by done.
    rewrite list_lookup_insert_ne by done. by apply (Hlink j d').
Qed.

Lemma relax_edge_nonneg (i v : nat) (d : double) (next : Column) (e : Edge) :
  (0 <=? d)%float = true -> (cost e <? 0)%float = false ->
  col_nonneg next -> col_nonneg (relax_edge i v d next e).
Proof.
  intros Hd He Hnext. unfold relax_edge.
  destruct (N.ltb _ _); [|done].
  destruct (distance next !! _) as [dj|]; [|done].
  destruct (PrimFloat.ltb (d + cost e) dj) eqn:Hlt; [|done].
  unfold col_nonneg. simpl. apply Forall_insert; [exact Hnext|].
  by apply (add_no_negative d (cost e) dj).
Qed.

Lemma relax_edges_length (i v : nat) (d : double) (es : EdgeList) (next : Column) :
  length (distance (foldl (relax_edge i v d) next es)) = length (distance next).
Proof.
  revert next. induction es as [|e es IH]; intros next; [done|].
  simpl. by rewrite IH, relax_edge_length.
Qed.

Lemma relax_edges_linked (prev : list double) (i v : nat) (d : double)
    (es : EdgeList) (next : Column) :
  prev !! v = Some d -> d_finite d = true ->
  linked_to prev next -> linked_to prev (foldl (relax_edge i v d) next es).
Proof.
  intros Hv Hfin. revert next. induction es as [|e es IH]; intros next Hnext; [done|].
  simpl. by apply IH, relax_edge_linked.
Qed.

Lemma relax_edges_nonneg (i v : nat) (d : double) (es : EdgeList) (next : Column) :
  (0 <=? d)%float = true ->
  Forall (fun e => (cost e <? 0)%float = false) es ->
  col_nonneg next -> col_nonneg (foldl (relax_edge i v d) next es).
Proof.
  intros Hd Hes. revert next. induction Hes as [|e es He _ IH]; intros next Hnext; [done|].
  simpl. by apply IH, relax_edge_nonneg.
Qed.

Lemma relax_vertex_length (i : nat) (block : list EdgeList) (cur next : Column) (v : nat) :
  length (distance (relax_vertex i block cur next v)) = length (distance next).
Proof.
  unfold relax_vertex. destruct (distance cur !! v); [|done].
  destruct (d_finite _); [|done]. apply relax_edges_length.
Qed.

Lemma relax_vertex_linked (i : nat) (block : list EdgeList) (cur next : Column) (v : nat) :
  linked_to (distance cur) next ->
  linked_to (distance cur) (relax_vertex i block cur next v).
Proof.
  intros Hnext. unfold relax_vertex. destruct (distance cur !! v) as [d|] eqn:Hv; [|done].
  destruct (d_finite d) eqn:Hfin; [|done]. by apply relax_edges_linked.
Qed.

Lemma relax_vertex_nonneg (i : nat) (block : list EdgeList) (cur next : Column) (v : nat) :
  Forall (Forall (fun e => (cost e <? 0)%float = false)) block ->
  col_nonneg cur -> col_nonneg next ->
  col_nonneg (relax_vertex i block cur next v).
Proof.
  intros Hblock Hcur Hnext. unfold relax_vertex.
  destruct (distance cur !! v) as [d|] eqn:Hv; [|done].
  destruct (d_finite d); [|done]. apply relax_edges_nonneg; [| |done].
  - by apply (proj1 (Forall_lookup _ _) Hcur v d).
  - destruct (block !! v) as [es|] eqn:Hes; simpl; [|by constructor].
    by apply (proj1 (Forall_lookup _ _) Hblock v es).
Qed.

Lemma fresh_column_linked (prev : list double) (n : nat) :
  linked_to prev (fresh_column n).
Proof.
  split; simpl; [by rewrite !length_replicate|].
  intros j d Hd Hreached. apply lookup_replicate in Hd as [-> _]. done.
Qed.

Lemma fresh_column_nonneg (n : nat) : col_nonneg (fresh_column n).
Proof. unfold col_nonneg. simpl. by apply Forall_replicate. Qed.

Lemma source_column_nonneg (n : nat) : col_nonneg (source_column n).
Proof. unfold col_nonneg. simpl. by apply Forall_replicate. Qed.

Lemma relax_rung_spec (dof i : nat) (r r_next : LadderGraph.Rung) (cur : Column) :
  sized dof r_next (relax_rung dof i r r_next cur)
  /\ linked_to (distance cur) (relax_rung dof i r r_next cur).
Proof.
  unfold relax_rung, sized.
  set (n := length (LadderGraph.data r_next) / dof).
  assert (length (distance (fresh_column n)) = n) as Hlen
    by (simpl; by rewrite length_replicate).
  pose proof (fresh_column_linked (distance cur) n) as Hlink.
  revert Hlen Hlink. generalize (fresh_column n).
  induction (seq 0 (length (LadderGraph.data r) / dof)) as [|v vs IH];
    intros next Hlen Hlink; [done|].
  simpl. apply IH.
  - by rewrite relax_vertex_length.
  - by apply relax_vertex_linked.
Qed.

Lemma relax_rung_nonneg (dof i : nat) (r r_next : LadderGraph.Rung) (cur : Column) :
  rung_no_negative_cost r -> col_nonneg cur ->
  col_nonneg (relax_rung dof i r r_next cur).
Proof.
  intros Hr Hcur. unfold relax_rung.
  pose proof (fresh_column_nonneg (length (LadderGraph.data r_next) / dof)) as Hnn.
  revert Hnn. generalize (fresh_column (length (LadderGraph.data r_next) / dof)).
  induction (seq 0 (length (LadderGraph.data r) / dof)) as [|v vs IH];
    intros next Hnn; [done|].
  simpl. apply IH. by apply relax_vertex_nonneg.
Qed.

End Relaxation.

Section ForwardPass.

Import DijkstrasSearch.

Lemma forward_chain (dof i : nat) (r : LadderGraph.Rung) (cur : Column)
    (below : list Column) (rest : list LadderGraph.Rung) :
  chain (cur :: below) -> chain (forward dof i r cur below rest).
Proof.
  revert i r cur below. induction rest as [|r_next rest IH]; intros i r cur below Hc; [done|].
  simpl. apply IH. split; [|done]. apply relax_rung_spec.
Qed.

Lemma forward_sized (dof i : nat) (r : LadderGraph.Rung) (cur : Column)
    (below : list Column) (rest rs_done : list LadderGraph.Rung) :
  Forall2 (sized dof) (r :: rs_done) (cur :: below) ->
  Forall2 (sized dof) (reverse rest ++ r :: rs_done) (forward dof i r cur below rest).
Proof.
  revert i r cur below rs_done.
  induction rest as [|r_next rest IH]; intros i r cur below rs_done Hs; [done|].
  simpl. rewrite reverse_cons, <- (assoc_L (++)). simpl. apply IH.
  constructor; [|done]. apply relax_rung_spec.
Qed.

Lemma forward_nonneg (dof i : nat) (r : LadderGraph.Rung) (cur : Column)
    (below : list Column) (rest : list LadderGraph.Rung) :
  Forall rung_no_negative_cost (r :: rest) ->
  Forall col_nonneg (cur :: below) ->
  Forall col_nonneg (forward dof i r cur below rest).
Proof.
  revert i r cur below.
  induction rest as [|r_next rest IH]; intros i r cur below Hcost Hnn; [done|].
  simpl. apply Forall_cons in Hcost as [Hr Hrest]. apply IH; [done|].
  constructor; [|done]. apply relax_rung_nonneg; [done|].
  by apply Forall_cons in Hnn as [Hcur _].
Qed.

Lemma solution_chain (g : LadderGraph.t) : chain (solution g).
Proof.
  unfold solution. destruct (LadderGraph.rungs_ g) as [|r0 rest]; [done|].
  by apply forward_chain.
Qed.

Lemma solution_sized (g : LadderGraph.t) :
  Forall2 (sized (LadderGraph.dof_ g)) (reverse (LadderGraph.rungs_ g)) (solution g).
Proof.
  unfold solution. destruct (LadderGraph.rungs_ g) as [|r0 rest]; [by constructor|].
  rewrite reverse_cons. apply forward_sized. constructor; [|constructor].
  unfold sized. simpl. by rewrite length_replicate.
Qed.

Lemma solution_nonneg (g : LadderGraph.t) :
  no_negative_cost g -> Forall col_nonneg (solution g).
Proof.
  unfold no_negative_cost, solution. intros Hcost.
  destruct (LadderGraph.rungs_ g) as [|r0 rest]; [by constructor|].
  apply forward_nonneg; [done|]. constructor; [|constructor].
  apply source_column_nonneg.
Qed.

(** *** The minimum over the last rung *)

Lemma min_fold_attained (ds : list double) (l : list (nat * double))
    (acc : double * option nat) :
  Forall (fun vd => ds !! vd.1 = Some vd.2) l ->
  (acc = (d_infinity, None)
   \/ exists v, acc.2 = Some v /\ ds !! v = Some acc.1
                /\ PrimFloat.eqb acc.1 infinity = false) ->
  foldl min_step acc l = (d_infinity, None)
  \/ exists v, (foldl min_step acc l).2 = Some v
               /\ ds !! v = Some (foldl min_step acc l).1
               /\ PrimFloat.eqb (foldl min_step acc l).1 infinity = false.
Proof.
  intros Hl. revert acc. induction Hl as [|[v d] l Hvd _ IH]; intros acc Hacc; [done|].
  simpl. apply IH. unfold min_step. simpl.
  destruct (PrimFloat.ltb d acc.1) eqn:Hlt; [|done].
  right. exists v. simpl. split; [done|]. split; [done|].
  by apply (below_not_infinity d acc.1).
Qed.

Lemma min_fold_nonneg (l : list (nat * double)) (acc : double * option nat) :
  Forall (fun vd => (0 <=? vd.2)%float = true) l ->
  (0 <=? acc.1)%float = true ->
  (0 <=? (foldl min_step acc l).1)%float = true.
Proof.
  intros Hl. revert acc. induction Hl as [|[v d] l Hd _ IH]; intros acc Hacc; [done|].
  simpl. apply IH. unfold min_step. simpl. by destruct (PrimFloat.ltb d acc.1).
Qed.

Lemma indexed_lookup (ds : list double) :
  Forall (fun vd : nat * double => ds !! vd.1 = Some vd.2) (zip (seq 0 (length ds)) ds).
Proof.
  apply Forall_lookup. intros i [v d] Hi. simpl.
  apply lookup_zip_Some in Hi as [Hv Hd]. apply lookup_seq in Hv as [-> _]. done.
Qed.

Lemma min_distance_attained (ds : list double) :
  min_distance ds = (d_infinity, None)
  \/ exists v, (min_distance ds).2 = Some v
               /\ ds !! v = Some (min_distance ds).1
               /\ PrimFloat.eqb (min_distance ds).1 infinity = false.
Proof.
  unfold min_distance. apply min_fold_attained; [apply indexed_lookup|by left].
Qed.

Lemma min_distance_nonneg (ds : list double) :
  Forall (fun d => (0 <=? d)%float = true) ds ->
  (0 <=? (min_distance ds).1)%float = true.
Proof.
  intros Hds. unfold min_distance. apply min_fold_nonneg; [|done].
  apply Forall_lookup. intros i [v d] Hi. simpl.
  apply lookup_zip_Some in Hi as [_ Hd].
  by apply (proj1 (Forall_lookup _ _) Hds i d).
Qed.

Lemma run_nonneg (g : LadderGraph.t) :
  no_negative_cost g -> (0 <=? run g)%float = true.
Proof.
  intros Hcost. unfold run, last_rung_min.
  pose proof (solution_nonneg g Hcost) as Hnn.
  destruct (solution g) as [|col cols]; [done|].
  apply min_distance_nonneg. by apply Forall_cons in Hnn as [Hcol _].
Qed.

(** *** Following the predecessors *)

Lemma backtrack_in_range (cols : list Column) (v : nat) (d : double) :
  chain cols ->
  (head cols ≫= fun col => distance col !! v) = Some d ->
  (1 < length cols -> PrimFloat.eqb d infinity = false) ->
  Forall2 (fun col idx => idx < length (distance col)) cols (backtrack cols v).
Proof.
  revert v d. induction cols as [|col earlier IH]; intros v d Hchain Hv Hreached; [done|].
  simpl in Hv. simpl. constructor; [by apply lookup_lt_Some in Hv|].
  destruct earlier as [|prev earlier].
  { destruct (predecessor col !! v) as [[[i u]|]|]; by constructor. }
  destruct Hchain as [[_ Hlink] Hchain].
  destruct (Hlink v d Hv) as (i & u & du & -> & Hu & Hfin); [apply Hreached; simpl; lia|].
  apply (IH u du); [done..|]. intros _. by apply finite_not_infinity.
Qed.

End ForwardPass.

(** *** The path that [getShortestPath] reads is inside the graph *)

Lemma Forall2_compose {A B C : Type} (P : A -> B -> Prop) (Q : B -> C -> Prop)
    (R : A -> C -> Prop) (l : list A) (k : list B) (m : list C) :
  (forall x y z, P x y -> Q y z -> R x z) ->
  Forall2 P l k -> Forall2 Q k m -> Forall2 R l m.
Proof.
  intros HPQ HP. revert m. induction HP as [|x y l k Hxy _ IH]; intros m HQ.
  - apply Forall2_nil_inv_l in HQ as ->. constructor.
  - apply Forall2_cons_inv_l in HQ as (z & m' & Hyz & HQ & ->).
    constructor; [by eapply HPQ|by apply IH].
Qed.

Lemma shortestPath_vertices (g : LadderGraph.t) :
  DijkstrasSearch.shortestPath g = []
  \/ Forall2 (vertex_of (LadderGraph.dof_ g)) (LadderGraph.rungs_ g)
       (DijkstrasSearch.shortestPath g).
Proof.
  unfold DijkstrasSearch.shortestPath, DijkstrasSearch.run,
    DijkstrasSearch.last_rung_min.
  pose proof (solution_chain g) as Hchain.
  pose proof (solution_sized g) as Hsized.
  destruct (DijkstrasSearch.solution g) as [|col cols] eqn:Hsol; [by left|].
  destruct (PrimFloat.eqb _ _) eqn:Hinf; [by left|].
  destruct (min_distance_attained (DijkstrasSearch.distance col))
    as [Hnone|(v & Hv & Hd & Hreached)].
  { by rewrite Hnone in Hinf. }
  rewrite Hv. right.
  rewrite <- (reverse_involutive (LadderGraph.rungs_ g)).
  apply Forall2_reverse.
  apply (Forall2_compose (sized (LadderGraph.dof_ g))
           (fun col idx => idx < length (DijkstrasSearch.distance col))
           _ _ (col :: cols)); [|done|].
  - unfold sized, vertex_of. intros r c idx Hc Hidx. by rewrite <- Hc.
  - by apply (backtrack_in_range (col :: cols) v _ Hchain Hd).
Qed.

Lemma vertex_in_rung (g : LadderGraph.t) (index : nat) (r : LadderGraph.Rung) :
  vertex_of (LadderGraph.dof_ g) r index ->
  exists values,
    joints_at (LadderGraph.data r) (LadderGraph.dof_ g * index) (LadderGraph.dof g)
    = Some values.
Proof.
  unfold vertex_of, LadderGraph.dof, joints_at. intros Hindex.
  destruct (decide _) as [_|Hout]; [by eexists|]. exfalso. apply Hout.
  destruct (LadderGraph.dof_ g) as [|k] eqn:Hdof; [simpl in Hindex; lia|].
  pose proof (Nat.Div0.mul_div_le (length (LadderGraph.data r)) (S k)). nia.
Qed.

Lemma path_loop_total (g : LadderGraph.t) (path_idxs : list nat) :
  Forall2 (vertex_of (LadderGraph.dof_ g)) (LadderGraph.rungs_ g) path_idxs ->
  forall (n k : nat) (path : list JointTrajectoryPt),
    k + n = length path_idxs ->
    exists path',
      for_each (path_step g (LadderGraph.dof g) path_idxs) (seq k n) path = Some path'.
Proof.
  intros Hin. induction n as [|n IH]; intros k path Hk; [by eexists|].
  destruct (lookup_lt_is_Some_2 path_idxs k) as [index Hindex]; [lia|].
  destruct (Forall2_lookup_r _ _ _ _ _ Hin Hindex) as (r & Hr & Hvertex).
  destruct (vertex_in_rung g index r Hvertex) as [values Hread].
  simpl. unfold path_step at 1, LadderGraph.vertex, LadderGraph.getRung.
  rewrite Hindex. simpl. rewrite Hr. simpl. rewrite Hread. simpl. apply IH. lia.
Qed.

(** [getShortestPath] returns on every graph. *)
Lemma getShortestPath_total (g : LadderGraph.t) (path : list JointTrajectoryPt) :
  exists path',
    getShortestPath g path
    = Some (d_neq (DijkstrasSearch.run g) d_infinity, DijkstrasSearch.run g, path').
Proof.
  unfold getShortestPath.
  destruct (shortestPath_vertices g) as [->|Hin].
  - by exists path.
  - destruct (path_loop_total g _ Hin (length (DijkstrasSearch.shortestPath g)) 0 path)
      as [path' ->]; [done|]. by exists path'.
Qed.

(** C5: [getShortestPath] signals infeasibility by the +∞ cost. On every
    graph it returns; when the minimum distance over the last rung is +∞ it
    returns the cost +∞, appends nothing to [path] (which is empty when the
    caller hands in an empty list) and its flag is [false]; and, the edge
    costs of a graph being never negative, its flag is [true] exactly when
    the returned cost is finite. *)
Theorem getShortestPath_infeasible
    (g : LadderGraph.t) (path : list JointTrajectoryPt) :
  exists (flag : bool) (total_cost : double) (path' : list JointTrajectoryPt),
    getShortestPath g path = Some (flag, total_cost, path')
    /\ total_cost = DijkstrasSearch.run g
    /\ (DijkstrasSearch.run g = d_infinity ->
        total_cost = d_infinity /\ path' = path /\ flag = false)
    /\ (no_negative_cost g -> (flag = true <-> d_finite total_cost = true)).
Proof.
  destruct (getShortestPath_total g path) as [path' Hrun].
  eexists _, _, path'. split; [done|]. split; [done|]. split.
  - intros Hinf. split; [done|]. unfold getShortestPath in Hrun.
    unfold DijkstrasSearch.shortestPath in Hrun. rewrite Hinf in Hrun |- *.
    simpl in Hrun. split; [by injection Hrun|done].
  - intros Hcost. by rewrite (nonneg_finite_iff _ (run_nonneg g Hcost)).
Qed.

Lemma getShortestPath_infeasible_witness :
  (exists path',
     getShortestPath (graph_ three_rungs) [] = Some (true, 10%float, path')
     /\ d_finite 10%float = true)
  /\ getShortestPath
       (graph_ (state_after
                  (modifyTrajectory bounded_travel_robot None (unreachable 2%N) three_rungs)))
       [] = Some (false, d_infinity, []).
Proof.
  split.
  - destruct (getShortestPath_infeasible (graph_ three_rungs) [])
      as (flag & total_cost & path' & Hrun & Hcost & _ & Hflag).
    assert (no_negative_cost (graph_ three_rungs)) as Hnn
      by (vm_compute; repeat constructor).
    apply Hflag in Hnn. rewrite Hcost in Hrun, Hnn.
    change (DijkstrasSearch.run (graph_ three_rungs)) with 10%float in Hrun, Hnn.
    exists path'. split; [|reflexivity].
    rewrite Hrun. f_equal. f_equal. f_equal. apply Hnn. reflexivity.
  - destruct (getShortestPath_infeasible
                (graph_ (state_after
                           (modifyTrajectory bounded_travel_robot None (unreachable 2%N)
                              three_rungs))) [])
      as (flag & total_cost & path' & Hrun & _ & Hinf & _).
    destruct Hinf as (-> & -> & ->); [reflexivity|]. exact Hrun.
Defined.

(** *** The scenarios of the specification *)

Example scenario_two_waypoints :
  getShortestPath
    (graph_ (planned bounded_travel_robot
               [fixed_point 1%N free_timing [[0%float]];
                fixed_point 2%N free_timing [[1%float]]])) []
  = Some (true, 1%float,
          [mkJointTrajectoryPt [0%float] free_timing;
           mkJointTrajectoryPt [1%float] free_timing]).
Proof. vm_compute. reflexivity. Qed.

Example scenario_tie_takes_lowest_index :
  getShortestPath (graph_ three_rungs) []
  = Some (true, 10%float,
          [mkJointTrajectoryPt [0%float] free_timing;
           mkJointTrajectoryPt [5%float] free_timing;
           mkJointTrajectoryPt [0%float] free_timing]).
Proof. vm_compute. reflexivity. Qed.

Example scenario_two_joints :
  getShortestPath
    (graph_ (planned planar_robot
               [fixed_point 1%N (mkTiming true 1%float)
                  [[0%float; 0%float]; [1%float; 1%float]];
                fixed_point 2%N (mkTiming true 1%float)
                  [[0%float; 0%float]; [1%float; 1%float]]])) []
  = Some (true, 0%float,
          [mkJointTrajectoryPt [0%float; 0%float] (mkTiming true 1%float);
           mkJointTrajectoryPt [0%float; 0%float] (mkTiming true 1%float)]).
Proof. vm_compute. reflexivity. Qed.

Example scenario_bounded_travel :
  LadderGraph.edges
    <$> LadderGraph.rungs_
          (graph_ (planned bounded_travel_robot
                     [fixed_point 1%N free_timing [[0%float]; [100%float]];
                      fixed_point 2%N (mkTiming true 1%float) [[0%float]; [100%float]]]))
  = [[[mkEdge 0%float 0%N]; [mkEdge 0%float 1%N]]; []].
Proof. vm_compute. reflexivity. Qed.

Example scenario_every_move_rejected :
  getShortestPath
    (graph_ (planned stuck_robot
               [fixed_point 1%N free_timing [[0%float]];
                fixed_point 2%N (mkTiming true 1%float) [[10%float]]])) []
  = Some (false, d_infinity, []).
Proof. vm_compute. reflexivity. Qed.

(** C4 (the code departs from the claim): [addTrajectory] of waypoint 4 after
    the rungs 1, 2, 3, with previous id 3 and a [next_id] that is nil, hence
    not in the id index, puts the new rung at index [size() - 1]. The rungs
    are then 1, 2, 4, 3: the last rung is still rung 3, not the new one. No
    edge leads from the new rung to rung 3, so that the graph, feasible
    before the call, has no path any more. *)
Lemma addTrajectory_absent_next_not_last :
  exists pg',
    addTrajectory bounded_travel_robot None point_4 3%N 0%N three_rungs = Some (true, pg')
    /\ LadderGraph.id <$> LadderGraph.rungs_ (graph_ pg') = [1; 2; 4; 3]%N
    /\ LadderGraph.id <$> last (LadderGraph.rungs_ (graph_ pg')) <> Some (getID point_4)
    /\ (exists path, getShortestPath (graph_ three_rungs) [] = Some (true, 10%float, path))
    /\ getShortestPath (graph_ pg') [] = Some (false, d_infinity, []).
Proof.
  eexists. split; [vm_compute; reflexivity|].
  split; [by vm_compute|]. split; [by vm_compute|].
  split; [eexists|]; vm_compute; reflexivity.
Qed.

(** * Further properties of the facade *)

(** ** Joint solutions *)

Lemma joint_solutions_from_layout robot (points : list TrajectoryPt)
    (filled : list (list (list double))) (n : nat) (log : list OracleCall) :
  joint_solutions_from robot points (length filled)
    (filled ++ replicate (length points + n) []) log
  = match list_find (fun point => getJointPoses point robot = []) points with
    | None =>
        (true,
         filled ++ ((fun point => getJointPoses point robot) <$> points)
           ++ replicate n [],
         log ++ (JointPosesCall <$> points))
    | Some (k, _) =>
        (false,
         filled ++ ((fun point => getJointPoses point robot) <$> take k points)
           ++ replicate (length points - k + n) [],
         log ++ (JointPosesCall <$> take (S k) points))
    end.
Proof.
  revert filled log. induction points as [|point rest IH]; intros filled log.
  - simpl. by rewrite !app_nil_r.
  - cbn [joint_solutions_from list_find].
    destruct (decide (getJointPoses point robot = [])) as [Hnone|Hsome].
    + by rewrite Hnone.
    + destruct (getJointPoses point robot) as [|q qs] eqn:Hposes; [done|].
      cbn [length Nat.add replicate].
      rewrite insert_app_r_alt by lia. rewrite Nat.sub_diag. cbn [insert list_insert].
      replace (filled ++ (q :: qs) :: replicate (length rest + n) [])
        with ((filled ++ [q :: qs]) ++ replicate (length rest + n) [])
        by (by rewrite <- (assoc_L (++))).
      replace (S (length filled)) with (length (filled ++ [q :: qs]))
        by (rewrite length_app; simpl; lia).
      rewrite IH. destruct (list_find _ rest) as [[k p]|]; simpl.
      * rewrite <- !(assoc_L (++)). simpl. by rewrite Hposes.
      * rewrite <- !(assoc_L (++)). simpl. by rewrite Hposes.
Qed.

(** X1: when the oracle has a joint pose for every point,
    [calculateJointSolutions] returns [true], [poses] holds the joint poses
    of the points, in order, and each point has been queried exactly once,
    in order. *)
Theorem calculateJointSolutions_success
    (robot : RobotModel) (points : list TrajectoryPt) (log : list OracleCall) :
  Forall (fun point => getJointPoses point robot <> []) points ->
  calculateJointSolutions robot points log
  = (true, (fun point => getJointPoses point robot) <$> points,
     log ++ (JointPosesCall <$> points)).
Proof.
  intros Hall. unfold calculateJointSolutions.
  pose proof (joint_solutions_from_layout robot points [] 0 log) as Hlayout.
  simpl in Hlayout. rewrite Nat.add_0_r in Hlayout. rewrite Hlayout.
  destruct (list_find _ points) as [[k point]|] eqn:Hfind.
  - apply list_find_Some in Hfind as (Hk & Hnone & _).
    by destruct (proj1 (Forall_lookup _ _) Hall k point Hk).
  - by rewrite app_nil_r.
Qed.

Lemma calculateJointSolutions_success_witness :
  calculateJointSolutions bounded_travel_robot [point_1; point_2; point_3] []
  = (true, [[[0%float]; [10%float]]; [[5%float]]; [[0%float]; [10%float]]],
     [JointPosesCall point_1; JointPosesCall point_2; JointPosesCall point_3]).
Proof.
  apply (calculateJointSolutions_success bounded_travel_robot
           [point_1; point_2; point_3] []).
  repeat constructor; discriminate.
Defined.

(** X2: [calculateJointSolutions] stops at the first point without a joint
    pose: it returns [false], the points before it have their poses in
    [poses], the entries from the failing point on are empty, and the points
    after the failing one are never handed to the oracle. *)
Theorem calculateJointSolutions_first_failure
    (robot : RobotModel) (before after : list TrajectoryPt) (point : TrajectoryPt)
    (log : list OracleCall) :
  Forall (fun p => getJointPoses p robot <> []) before ->
  getJointPoses point robot = [] ->
  calculateJointSolutions robot (before ++ point :: after) log
  = (false,
     ((fun p => getJointPoses p robot) <$> before) ++ replicate (S (length after)) [],
     log ++ (JointPosesCall <$> before) ++ [JointPosesCall point]).
Proof.
  intros Hbefore Hnone. unfold calculateJointSolutions.
  pose proof (joint_solutions_from_layout robot (before ++ point :: after) [] 0 log)
    as Hlayout.
  simpl in Hlayout. rewrite Nat.add_0_r in Hlayout. rewrite Hlayout.
  assert (list_find (fun p => getJointPoses p robot = []) (before ++ point :: after)
          = Some (length before, point)) as ->.
  { apply list_find_Some. split; [|split; [done|]].
    - rewrite lookup_app_r by lia. by rewrite Nat.sub_diag.
    - intros j p Hj Hlt Hp. rewrite lookup_app_l in Hj by done.
      by destruct (proj1 (Forall_lookup _ _) Hbefore j p Hj). }
  rewrite take_app_length.
  replace (S (length before)) with (length (before ++ [point]))
    by (rewrite length_app; simpl; lia).
  replace (before ++ point :: after) with ((before ++ [point]) ++ after)
    by (by rewrite <- (assoc_L (++))).
  rewrite take_app_length, fmap_app, !length_app. simpl.
  by replace (length before + 1 + length after - length before + 0)
    with (S (length after)) by lia.
Qed.

Lemma calculateJointSolutions_first_failure_witness :
  calculateJointSolutions bounded_travel_robot
    ([point_1] ++ unreachable 9%N :: [point_3; unreachable 8%N]) []
  = (false, [[[0%float]; [10%float]]; []; []; []],
     [JointPosesCall point_1; JointPosesCall (unreachable 9%N)]).
Proof.
  apply (calculateJointSolutions_first_failure bounded_travel_robot
           [point_1] [point_3; unreachable 8%N] (unreachable 9%N) []).
  - repeat constructor; discriminate.
  - reflexivity.
Defined.

(** ** [insertGraph]: the ladder it builds *)

Lemma set_edges_same (r : LadderGraph.Rung) :
  LadderGraph.set_edges (LadderGraph.edges r) r = r.
Proof. by destruct r. Qed.

Lemma solvable_flat (robot : RobotModel) (point : TrajectoryPt) :
  dof_poses (getDOF robot) (getJointPoses point robot) ->
  flat_rung (getDOF robot) (rung_of robot point).
Proof. intros Hposes. by apply concat_dof_poses. Qed.

Lemma link_rungs_length robot user (rs : list LadderGraph.Rung) :
  length (link_rungs robot user rs) = length rs.
Proof. induction rs as [|r rest IH]; simpl; [done|]. by rewrite IH. Qed.

Lemma link_rungs_core robot user (rs : list LadderGraph.Rung) :
  rung_core <$> link_rungs robot user rs = rung_core <$> rs.
Proof.
  induction rs as [|r rest IH]; [done|].
  cbn [link_rungs]. rewrite !fmap_cons, IH. done.
Qed.

Lemma link_rungs_flat robot user (dof : nat) (rs : list LadderGraph.Rung) :
  Forall (flat_rung dof) rs -> Forall (flat_rung dof) (link_rungs robot user rs).
Proof.
  induction 1 as [|r rest Hr Hrest IH]; [constructor|].
  cbn [link_rungs]. constructor; [exact Hr | exact IH].
Qed.

Lemma link_rungs_lookup robot user (rs : list LadderGraph.Rung) (i : nat)
    (r : LadderGraph.Rung) :
  rs !! i = Some r ->
  link_rungs robot user rs !! i
  = Some (LadderGraph.set_edges
            (match rs !! S i with
             | Some r_next => edge_block robot user (getDOF robot) r r_next
             | None => LadderGraph.edges r
             end) r).
Proof.
  revert i. induction rs as [|r0 rest IH]; intros i Hi; [done|].
  destruct i as [|i].
  - simpl in Hi. injection Hi as ->. cbn [link_rungs]. simpl. by destruct rest.
  - simpl in Hi. cbn [link_rungs]. simpl. by apply IH.
Qed.

Section InsertLemmas.

Variable robot_model_ : RobotModel.
Variable custom_cost_function_ : option (list double -> list double -> double).

Local Abbreviation DOF := (getDOF robot_model_).

(** The loop [for (i = 0; i < points.size(); ++i) graph_.assignRung(...)]. *)
Lemma insertGraph_assign_loop (g : LadderGraph.t) (points : list TrajectoryPt)
    (m k : nat) :
  LadderGraph.dof_ g = DOF ->
  Forall (fun point => dof_poses DOF (getJointPoses point robot_model_)) points ->
  k + m = length points ->
  for_each
    (fun i g =>
       point ← points !! i;
       sols ← ((fun point => getJointPoses point robot_model_) <$> points) !! i;
       LadderGraph.assignRung i (getID point) (getTiming point) sols g)
    (seq k m)
    (LadderGraph.with_rungs g
       ((rung_of robot_model_ <$> take k points) ++ replicate m LadderGraph.empty_rung))
  = Some (LadderGraph.with_rungs g (rung_of robot_model_ <$> points)).
Proof.
  intros Hdof Hposes. revert k. induction m as [|m IH]; intros k Hk.
  - simpl. rewrite app_nil_r, take_ge by lia. done.
  - cbn [seq for_each].
    destruct (lookup_lt_is_Some_2 points k) as [point Hpoint]; [lia|].
    rewrite list_lookup_fmap, Hpoint. simpl.
    assert (length (rung_of robot_model_ <$> take k points) = k) as Hlen
      by (rewrite length_fmap, length_take; lia).
    unfold LadderGraph.assignRung, LadderGraph.getRung. simpl.
    rewrite lookup_app_r by lia. rewrite Hlen, Nat.sub_diag. simpl.
    rewrite Hdof.
    destruct (decide _) as [_|Hbad].
    2:{ destruct Hbad. apply concat_dof_poses.
        exact (proj1 (Forall_lookup _ _) Hposes k point Hpoint). }
    simpl. rewrite insert_app_r_alt by lia. rewrite Hlen, Nat.sub_diag. simpl.
    specialize (IH (S k)). rewrite (take_S_r _ _ _ Hpoint), fmap_app in IH.
    simpl in IH. rewrite <- (assoc_L (++)) in IH. simpl in IH.
    unfold LadderGraph.with_rungs in *. simpl. apply IH. lia.
Qed.

(** The loop [for (i = 0; i < graph_.size() - 1; ++i)
    computeAndAssignEdges(i, i + 1)], from the rung after [pre] on. *)
Lemma insertGraph_link_loop (g : LadderGraph.t) (rs pre : list LadderGraph.Rung)
    (log : list OracleCall) :
  LadderGraph.dof_ g = DOF -> 0 < DOF ->
  Forall (flat_rung DOF) rs -> rs <> [] ->
  for_each
    (fun i pg' => computeAndAssignEdges robot_model_ custom_cost_function_ i (i + 1) pg')
    (seq (length pre) (length rs - 1))
    (mkPlanningGraph (LadderGraph.with_rungs g (pre ++ rs)) log)
  = Some (mkPlanningGraph
            (LadderGraph.with_rungs g
               (pre ++ link_rungs robot_model_ custom_cost_function_ rs))
            (log ++ link_calls robot_model_ rs)).
Proof.
  intros Hdof Hpos Hflat. revert pre log.
  induction Hflat as [|r rest Hr Hrest IH]; intros pre log Hne; [done|].
  destruct rest as [|r_next rest].
  - simpl. by rewrite set_edges_same, app_nil_r.
  - replace (length (r :: r_next :: rest) - 1) with (S (length (r_next :: rest) - 1))
      by (simpl; lia).
    cbn [seq for_each].
    rewrite (computeAndAssignEdges_flat robot_model_ custom_cost_function_
               (length pre) (length pre + 1) _ r r_next); simpl; try done.
    + rewrite insert_app_r_alt by lia. rewrite Nat.sub_diag.
      cbn [insert list_insert].
      pose proof (IH (pre ++ [LadderGraph.set_edges
                                (edge_block robot_model_ custom_cost_function_ DOF r r_next) r])
                    (log ++ edge_block_calls DOF r r_next) ltac:(done)) as IH'.
      rewrite length_app, Nat.add_1_r in IH'. cbn [length] in IH'.
      rewrite <- !(assoc_L (++)) in IH'. cbn [app] in IH'.
      unfold LadderGraph.with_rungs in *.
      cbn [LadderGraph.dof_ LadderGraph.rungs_ graph_ oracle_log] in *.
      exact IH'.
    + rewrite lookup_app_r by lia. by rewrite Nat.sub_diag.
    + rewrite lookup_app_r by lia.
      by replace (length pre + 1 - length pre) with 1 by lia.
    + by inversion Hrest.
Qed.

(** [insertGraph] on at least two points that all have joint poses of
    [DOF] values each. *)
Lemma insertGraph_layout (points : list TrajectoryPt) (pg : PlanningGraph) :
  2 <= length points ->
  LadderGraph.dof_ (graph_ pg) = DOF -> 0 < DOF ->
  Forall (solvable robot_model_) points ->
  insertGraph robot_model_ custom_cost_function_ points pg
  = Some (true,
          mkPlanningGraph
            (LadderGraph.mk DOF
               (link_rungs robot_model_ custom_cost_function_
                  (rung_of robot_model_ <$> points)))
            (oracle_log pg ++ (JointPosesCall <$> points)
             ++ link_calls robot_model_ (rung_of robot_model_ <$> points))).
Proof.
  intros Hlen Hdof Hpos Hsolv.
  assert (Forall (fun point => dof_poses DOF (getJointPoses point robot_model_)) points)
    as Hposes by (eapply Forall_impl; [exact Hsolv|]; by intros p [_ Hp]).
  unfold insertGraph. destruct (decide _) as [Hbad|_]; [lia|].
  unfold calculateJointSolutions.
  pose proof (joint_solutions_from_layout robot_model_ points [] 0 (oracle_log pg))
    as Hlayout.
  simpl in Hlayout. rewrite Nat.add_0_r in Hlayout. rewrite Hlayout. clear Hlayout.
  destruct (list_find _ points) as [[k point]|] eqn:Hfind.
  { apply list_find_Some in Hfind as (Hk & Hnone & _).
    by destruct (proj1 (proj1 (Forall_lookup _ _) Hsolv k point Hk)). }
  clear Hfind. rewrite app_nil_r. simpl.
  set (g0 := if decide (0 < LadderGraph.size (graph_ pg))
             then LadderGraph.clear (graph_ pg) else graph_ pg).
  assert (LadderGraph.rungs_ g0 = [] /\ LadderGraph.dof_ g0 = DOF) as [Hempty Hdof0].
  { unfold g0. destruct (decide _) as [|Hz]; simpl; [done|].
    split; [|done]. unfold LadderGraph.size in Hz.
    destruct (LadderGraph.rungs_ (graph_ pg)); [done|simpl in Hz; lia]. }
  unfold LadderGraph.allocate. rewrite Hempty. simpl.
  pose proof (insertGraph_assign_loop g0 points (length points) 0 Hdof0 Hposes eq_refl)
    as Hassign.
  simpl in Hassign. unfold LadderGraph.with_rungs in *. simpl in *.
  rewrite Hassign. simpl. unfold LadderGraph.size. simpl. rewrite length_fmap.
  destruct (length points) as [|n] eqn:Hn; [lia|]. simpl.
  pose proof (insertGraph_link_loop g0 (rung_of robot_model_ <$> points) []
                (oracle_log pg ++ (JointPosesCall <$> points)) Hdof0 Hpos) as Hlink.
  rewrite length_fmap, Hn in Hlink. simpl in Hlink. rewrite Nat.sub_0_r in Hlink.
  unfold LadderGraph.with_rungs in Hlink. simpl in Hlink.
  rewrite Hlink.
  - simpl. rewrite Hdof0. by rewrite <- (assoc_L (++)).
  - apply Forall_fmap. eapply Forall_impl; [exact Hposes|].
    intros p Hp. by apply solvable_flat.
  - destruct points; [done|discriminate].
Qed.

End InsertLemmas.

Lemma edge_block_set_edges robot user (dof : nat) (es1 es2 : list EdgeList)
    (r1 r2 : LadderGraph.Rung) :
  edge_block robot user dof (LadderGraph.set_edges es1 r1) (LadderGraph.set_edges es2 r2)
  = edge_block robot user dof r1 r2.
Proof. done. Qed.

Lemma move_calls_are_checks (start_joints end_joints : list double) (dof : nat)
    (tm : TimingConstraint) (i m : nat) :
  Forall (fun c => is_move_check c = true) (move_calls start_joints end_joints dof tm i m).
Proof.
  unfold move_calls. destruct (isSpecified tm); [|constructor].
  apply Forall_fmap, Forall_forall. by intros j _.
Qed.

Lemma built_calls_are_checks (start_joints end_joints : list double) (dof n_to : nat)
    (tm : TimingConstraint) (m : nat) :
  Forall (fun c => is_move_check c = true)
    (built_calls start_joints end_joints dof n_to tm m).
Proof.
  unfold built_calls. apply Forall_concat, Forall_fmap, Forall_forall.
  intros i _. apply move_calls_are_checks.
Qed.

Lemma link_calls_are_checks robot (rs : list LadderGraph.Rung) :
  Forall (fun c => is_move_check c = true) (link_calls robot rs).
Proof.
  induction rs as [|r rest IH]; [constructor|].
  cbn [link_calls]. apply Forall_app. split; [|exact IH].
  destruct rest; [constructor|]. apply built_calls_are_checks.
Qed.

Lemma link_calls_unspecified robot (rs : list LadderGraph.Rung) :
  Forall (fun r => isSpecified (LadderGraph.timing r) = false) rs ->
  link_calls robot rs = [].
Proof.
  induction 1 as [|r rest Hr Hrest IH]; [done|].
  cbn [link_calls]. rewrite IH, app_nil_r.
  destruct Hrest as [|r_next rest' Hnext _]; [done|].
  by apply built_calls_unspecified.
Qed.

(** X3: [insertGraph] on at least two points that all have joint poses
    returns [true] and leaves a well-formed graph with one rung per point:
    rung [i] carries the id and the timing of point [i] and, as its joint
    data, the joint poses of point [i] laid end to end. *)
Theorem insertGraph_rungs_follow_points
    (robot : RobotModel) (user : option (list double -> list double -> double))
    (points : list TrajectoryPt) (pg : PlanningGraph) :
  2 <= length points ->
  LadderGraph.dof_ (graph_ pg) = getDOF robot -> 0 < getDOF robot ->
  Forall (solvable robot) points ->
  exists pg',
    insertGraph robot user points pg = Some (true, pg')
    /\ wf_graph robot (graph_ pg')
    /\ LadderGraph.size (graph_ pg') = length points
    /\ rung_core <$> LadderGraph.rungs_ (graph_ pg')
       = (fun point => (getID point, getTiming point, concat (getJointPoses point robot)))
           <$> points.
Proof.
  intros Hlen Hdof Hpos Hsolv.
  rewrite (insertGraph_layout robot user points pg Hlen Hdof Hpos Hsolv).
  eexists. split; [done|]. cbn [graph_ LadderGraph.rungs_]. split; [|split].
  - repeat split; [done|]. cbn [LadderGraph.rungs_].
    apply link_rungs_flat, Forall_fmap. eapply Forall_impl; [exact Hsolv|].
    intros p [_ Hp]. by apply solvable_flat.
  - unfold LadderGraph.size. cbn [LadderGraph.rungs_].
    by rewrite link_rungs_length, length_fmap.
  - rewrite link_rungs_core, <- list_fmap_compose. done.
Qed.

Lemma insertGraph_rungs_follow_points_witness :
  exists pg',
    insertGraph bounded_travel_robot None [point_1; point_2; point_3] five_rungs
    = Some (true, pg')
    /\ wf_graph bounded_travel_robot (graph_ pg')
    /\ LadderGraph.size (graph_ pg') = 3
    /\ rung_core <$> LadderGraph.rungs_ (graph_ pg')
       = [(1%N, free_timing, [0%float; 10%float]);
          (2%N, free_timing, [5%float]);
          (3%N, free_timing, [0%float; 10%float])].
Proof.
  apply (insertGraph_rungs_follow_points bounded_travel_robot None
           [point_1; point_2; point_3] five_rungs).
  - simpl. lia.
  - vm_compute. reflexivity.
  - simpl. lia.
  - repeat constructor; discriminate.
Defined.

(** X4: in the graph that a successful [insertGraph] leaves, every rung but
    the last holds exactly the edge block that the edge builder computes
    from it to the next rung, and the last rung holds no edge. *)
Theorem insertGraph_edge_blocks
    (robot : RobotModel) (user : option (list double -> list double -> double))
    (points : list TrajectoryPt) (pg : PlanningGraph) :
  2 <= length points ->
  LadderGraph.dof_ (graph_ pg) = getDOF robot -> 0 < getDOF robot ->
  Forall (solvable robot) points ->
  exists pg',
    insertGraph robot user points pg = Some (true, pg')
    /\ forall (i : nat) (r : LadderGraph.Rung),
         LadderGraph.rungs_ (graph_ pg') !! i = Some r ->
         LadderGraph.edges r
         = match LadderGraph.rungs_ (graph_ pg') !! S i with
           | Some r_next => edge_block robot user (getDOF robot) r r_next
           | None => []
           end.
Proof.
  intros Hlen Hdof Hpos Hsolv.
  rewrite (insertGraph_layout robot user points pg Hlen Hdof Hpos Hsolv).
  eexists. split; [done|]. cbn [graph_ LadderGraph.rungs_]. intros i r Hi.
  set (rs := rung_of robot <$> points) in *.
  destruct (lookup_lt_is_Some_2 rs i) as [r0 Hr0].
  { apply lookup_lt_Some in Hi. by rewrite link_rungs_length in Hi. }
  rewrite (link_rungs_lookup robot user rs i r0 Hr0) in Hi. injection Hi as <-.
  destruct (rs !! S i) as [r1|] eqn:Hr1.
  - rewrite (link_rungs_lookup robot user rs (S i) r1 Hr1). simpl.
    by rewrite edge_block_set_edges.
  - rewrite (proj2 (lookup_ge_None _ _)).
    + simpl. unfold rs in Hr0. rewrite list_lookup_fmap in Hr0.
      destruct (points !! i); [|done]. by injection Hr0 as <-.
    + rewrite link_rungs_length. by apply lookup_ge_None.
Qed.

Lemma insertGraph_edge_blocks_witness :
  exists pg',
    insertGraph planar_robot (Some (fun _ _ => 1%float))
      [fixed_point 1%N free_timing [[0%float; 0%float]; [1%float; 1%float]];
       fixed_point 2%N (mkTiming true 1%float) [[2%float; 2%float]]]
      (new_PlanningGraph planar_robot) = Some (true, pg')
    /\ forall (i : nat) (r : LadderGraph.Rung),
         LadderGraph.rungs_ (graph_ pg') !! i = Some r ->
         LadderGraph.edges r
         = match LadderGraph.rungs_ (graph_ pg') !! S i with
           | Some r_next =>
               edge_block planar_robot (Some (fun _ _ => 1%float)) (getDOF planar_robot)
                 r r_next
           | None => []
           end.
Proof.
  apply (insertGraph_edge_blocks planar_robot (Some (fun _ _ => 1%float))
           [fixed_point 1%N free_timing [[0%float; 0%float]; [1%float; 1%float]];
            fixed_point 2%N (mkTiming true 1%float) [[2%float; 2%float]]]
           (new_PlanningGraph planar_robot)).
  - simpl. lia.
  - reflexivity.
  - simpl. lia.
  - repeat constructor; discriminate.
Defined.

(** X5: a successful [insertGraph] first asks the oracle for the joint poses
    of every point, once each and in order, and only then makes move checks;
    it makes no move check at all when no point has a specified timing. *)
Theorem insertGraph_oracle_queries
    (robot : RobotModel) (user : option (list double -> list double -> double))
    (points : list TrajectoryPt) (pg : PlanningGraph) :
  2 <= length points ->
  LadderGraph.dof_ (graph_ pg) = getDOF robot -> 0 < getDOF robot ->
  Forall (solvable robot) points ->
  exists pg' checks,
    insertGraph robot user points pg = Some (true, pg')
    /\ oracle_log pg' = oracle_log pg ++ (JointPosesCall <$> points) ++ checks
    /\ Forall (fun c => is_move_check c = true) checks
    /\ (Forall (fun point => isSpecified (getTiming point) = false) points ->
        checks = []).
Proof.
  intros Hlen Hdof Hpos Hsolv.
  rewrite (insertGraph_layout robot user points pg Hlen Hdof Hpos Hsolv).
  eexists. exists (link_calls robot (rung_of robot <$> points)).
  split; [done|]. split; [done|]. split; [apply link_calls_are_checks|].
  intros Hfree. apply link_calls_unspecified, Forall_fmap.
  eapply Forall_impl; [exact Hfree|]. by intros p Hp.
Qed.

Lemma insertGraph_oracle_queries_witness :
  exists pg' checks,
    insertGraph bounded_travel_robot None
      [point_1; fixed_point 2%N (mkTiming true 1%float) [[5%float]]] three_rungs
    = Some (true, pg')
    /\ oracle_log pg'
       = oracle_log three_rungs
         ++ (JointPosesCall
               <$> [point_1; fixed_point 2%N (mkTiming true 1%float) [[5%float]]])
         ++ checks
    /\ Forall (fun c => is_move_check c = true) checks
    /\ (Forall (fun point => isSpecified (getTiming point) = false)
          [point_1; fixed_point 2%N (mkTiming true 1%float) [[5%float]]] ->
        checks = []).
Proof.
  apply (insertGraph_oracle_queries bounded_travel_robot None
           [point_1; fixed_point 2%N (mkTiming true 1%float) [[5%float]]] three_rungs).
  - simpl. lia.
  - vm_compute. reflexivity.
  - simpl. lia.
  - repeat constructor; discriminate.
Defined.

(** X6: a successful [insertGraph] replaces the graph: the graph it leaves
    is the same whatever rungs and edges the planner held before. *)
Theorem insertGraph_replaces_graph
    (robot : RobotModel) (user : option (list double -> list double -> double))
    (points : list TrajectoryPt) (pg1 pg2 : PlanningGraph) :
  2 <= length points ->
  LadderGraph.dof_ (graph_ pg1) = getDOF robot ->
  LadderGraph.dof_ (graph_ pg2) = getDOF robot ->
  0 < getDOF robot ->
  Forall (solvable robot) points ->
  exists pg1' pg2',
    insertGraph robot user points pg1 = Some (true, pg1')
    /\ insertGraph robot user points pg2 = Some (true, pg2')
    /\ graph_ pg1' = graph_ pg2'.
Proof.
  intros Hlen Hdof1 Hdof2 Hpos Hsolv.
  rewrite (insertGraph_layout robot user points pg1 Hlen Hdof1 Hpos Hsolv).
  rewrite (insertGraph_layout robot user points pg2 Hlen Hdof2 Hpos Hsolv).
  by do 2 eexists.
Qed.

Lemma insertGraph_replaces_graph_witness :
  exists pg1' pg2',
    insertGraph bounded_travel_robot None [point_4; point_5] five_rungs
    = Some (true, pg1')
    /\ insertGraph bounded_travel_robot None [point_4; point_5]
         (new_PlanningGraph bounded_travel_robot) = Some (true, pg2')
    /\ graph_ pg1' = graph_ pg2'.
Proof.
  apply (insertGraph_replaces_graph bounded_travel_robot None [point_4; point_5]
           five_rungs (new_PlanningGraph bounded_travel_robot)).
  - simpl. lia.
  - vm_compute. reflexivity.
  - reflexivity.
  - simpl. lia.
  - repeat constructor; discriminate.
Defined.

(** * Further properties of the edge builder *)

Lemma move_calls_specified (start_joints end_joints : list double) (dof : nat)
    (tm : TimingConstraint) (i m : nat) :
  isSpecified tm = true ->
  length (move_calls start_joints end_joints dof tm i m) = m
  /\ forall j, j < m ->
       move_calls start_joints end_joints dof tm i m !! j
       = Some (ValidMoveCall (vertex_at start_joints dof i) (vertex_at end_joints dof j)
                 (upper tm)).
Proof.
  intros Hspec. unfold move_calls. rewrite Hspec. split.
  - by rewrite length_fmap, length_seq.
  - intros j Hj. rewrite list_lookup_fmap, lookup_seq_lt by done. done.
Qed.

Lemma built_calls_specified (start_joints end_joints : list double) (dof n_to : nat)
    (tm : TimingConstraint) (m : nat) :
  isSpecified tm = true ->
  length (built_calls start_joints end_joints dof n_to tm m) = m * n_to
  /\ forall i j, i < m -> j < n_to ->
       built_calls start_joints end_joints dof n_to tm m !! (i * n_to + j)
       = Some (ValidMoveCall (vertex_at start_joints dof i) (vertex_at end_joints dof j)
                 (upper tm)).
Proof.
  intros Hspec. induction m as [|m [IHlen IHlookup]].
  - split; [done|]. intros i j Hi. lia.
  - rewrite built_calls_S.
    destruct (move_calls_specified start_joints end_joints dof tm m n_to Hspec)
      as [Hlen Hlookup].
    split.
    + rewrite length_app, IHlen, Hlen. lia.
    + intros i j Hi Hj. destruct (decide (i < m)) as [Hlt|Hge].
      * rewrite lookup_app_l by (rewrite IHlen; nia). by apply IHlookup.
      * assert (i = m) as -> by lia.
        rewrite lookup_app_r by (rewrite IHlen; lia). rewrite IHlen.
        replace (m * n_to + j - m * n_to) with j by lia. by apply Hlookup.
Qed.

(** X7: with a specified timing on the target rung the edge builder asks the
    oracle's [isValidMove] about every pair of a source and a destination
    vertex exactly once, source by source and, for one source, destination by
    destination, whether or not the pair then gets an edge: the log has
    [n_from * n_to] entries and entry [i * n_to + j] is the check of the pair
    [(i, j)]. *)
Theorem calculateEdgeWeights_checks_every_pair
    (robot : RobotModel) (user : option (list double -> list double -> double))
    (start_joints end_joints : list double) (dof n_from n_to : nat)
    (tm : TimingConstraint) :
  0 < dof ->
  length start_joints = n_from * dof ->
  length end_joints = n_to * dof ->
  isSpecified tm = true ->
  exists edges log,
    calculateEdgeWeights robot user start_joints end_joints dof tm = Some (edges, log)
    /\ length log = n_from * n_to
    /\ forall i j : nat,
         i < n_from -> j < n_to ->
         log !! (i * n_to + j)
         = Some (ValidMoveCall (vertex_at start_joints dof i)
                   (vertex_at end_joints dof j) (upper tm)).
Proof.
  intros Hdof Hfrom Hto Hspec.
  rewrite (calculateEdgeWeights_spec robot user start_joints end_joints dof n_from n_to tm)
    by done.
  eexists _, _. split; [done|]. by apply built_calls_specified.
Qed.

Lemma calculateEdgeWeights_checks_every_pair_witness :
  exists edges log,
    calculateEdgeWeights bounded_travel_robot None [0; 100]%float [0; 100; 0.5]%float 1
      (mkTiming true 1%float) = Some (edges, log)
    /\ length log = 2 * 3
    /\ forall i j : nat,
         i < 2 -> j < 3 ->
         log !! (i * 3 + j)
         = Some (ValidMoveCall (vertex_at [0; 100]%float 1 i)
                   (vertex_at [0; 100; 0.5]%float 1 j) (upper (mkTiming true 1%float))).
Proof.
  apply (calculateEdgeWeights_checks_every_pair bounded_travel_robot None
           [0; 100]%float [0; 100; 0.5]%float 1 2 3 (mkTiming true 1%float)).
  - lia.
  - reflexivity.
  - reflexivity.
  - reflexivity.
Defined.

(** X8: every edge that the builder emits points at a vertex of the target
    rung, [to_index < n_to], and no edge list is longer than the target rung,
    whatever the size of the target rung is, that is, even where the 32-bit
    counter [idx] has wrapped. *)
Theorem calculateEdgeWeights_indices_in_range
    (robot : RobotModel) (user : option (list double -> list double -> double))
    (start_joints end_joints : list double) (dof n_from n_to : nat)
    (tm : TimingConstraint) :
  0 < dof ->
  length start_joints = n_from * dof ->
  length end_joints = n_to * dof ->
  exists edges log,
    calculateEdgeWeights robot user start_joints end_joints dof tm = Some (edges, log)
    /\ forall (i : nat) (es : EdgeList),
         edges !! i = Some es ->
         length es <= n_to
         /\ forall e : Edge, e ∈ es -> (to_index e < N.of_nat n_to)%N.
Proof.
  intros Hdof Hfrom Hto.
  rewrite (calculateEdgeWeights_spec robot user start_joints end_joints dof n_from n_to tm)
    by done.
  eexists _, _. split; [done|]. intros i es Hi.
  apply built_edges_lookup in Hi as [_ ->]. split; [apply emitted_length_le|].
  intros e He. apply list_elem_of_lookup in He as [p Hp].
  apply emitted_lookup in Hp as (j & _ & Hj & _ & ->). simpl.
  pose proof (N.Div0.mod_le (N.of_nat j) 4294967296). lia.
Qed.

Lemma calculateEdgeWeights_indices_in_range_witness :
  exists edges log,
    calculateEdgeWeights bounded_travel_robot None [0; 100]%float [0; 100; 0.5]%float 1
      (mkTiming true 1%float) = Some (edges, log)
    /\ forall (i : nat) (es : EdgeList),
         edges !! i = Some es ->
         length es <= 3
         /\ forall e : Edge, e ∈ es -> (to_index e < N.of_nat 3)%N.
Proof.
  apply (calculateEdgeWeights_indices_in_range bounded_travel_robot None
           [0; 100]%float [0; 100; 0.5]%float 1 2 3 (mkTiming true 1%float)).
  - lia.
  - reflexivity.
  - reflexivity.
Defined.

(** *** The default cost is never negative *)

Lemma SFadd_abs_not_negative (prec emax : Z) (c z : spec_float) :
  SFltb c (S754_zero false) = false ->
  SFltb (SFadd prec emax c (SFabs z)) (S754_zero false) = false.
Proof.
  intros Hc.
  destruct c as [sc|sc| |sc mc ec]; try destruct sc; try done;
    destruct z as [sz|sz| |sz mz ez]; try done.
  unfold SFabs, SFadd. unfold cond_Zopp.
  change (Z.add (Zpos ?p) (Zpos ?q)) with (Zpos (p + q)).
  unfold binary_normalize, binary_round.
  destruct (shl_align _ _ _) as [m' e'].
  destruct (binary_round_aux_shape prec emax false (Zpos m') e' loc_Exact)
    as [Hr|[Hr|[Hr|(m & e & Hr)]]]; by rewrite Hr.
Qed.

Lemma add_abs_not_negative (c z : double) :
  (c <? 0)%float = false -> (c + abs z <? 0)%float = false.
Proof.
  rewrite !FloatAxioms.ltb_spec, FloatAxioms.add_spec, FloatAxioms.abs_spec.
  change (Prim2SF 0) with (S754_zero false).
  apply SFadd_abs_not_negative.
Qed.

Lemma l1_fold_not_negative (l : list (double * double)) (c : double) :
  (c <? 0)%float = false ->
  (foldl (fun c p => (c + abs (p.1 - p.2))%float) c l <? 0)%float = false.
Proof.
  revert c. induction l as [|p l IH]; intros c Hc; [done|].
  simpl. by apply IH, add_abs_not_negative.
Qed.

Lemma l1_distance_not_negative (a b : list double) :
  (l1_distance a b <? 0)%float = false.
Proof. by apply l1_fold_not_negative. Qed.

Lemma built_edges_default_not_negative robot (start_joints end_joints : list double)
    (dof n_to : nat) (tm : TimingConstraint) (m : nat) :
  Forall (Forall (fun e => (cost e <? 0)%float = false))
    (built_edges robot None start_joints end_joints dof n_to tm m).
Proof.
  unfold built_edges, emitted. apply Forall_fmap, Forall_forall. intros i _.
  apply Forall_fmap, Forall_forall. intros j _. simpl.
  apply l1_distance_not_negative.
Qed.

(** X9: when no cost function is registered, no edge that the builder emits
    has a negative cost, whatever the joint values are (infinities and NaNs
    included): the accumulated sum of absolute differences is a NaN or is
    not below zero. *)
Theorem calculateEdgeWeights_default_cost_not_negative
    (robot : RobotModel) (start_joints end_joints : list double)
    (dof n_from n_to : nat) (tm : TimingConstraint) :
  0 < dof ->
  length start_joints = n_from * dof ->
  length end_joints = n_to * dof ->
  exists edges log,
    calculateEdgeWeights robot None start_joints end_joints dof tm = Some (edges, log)
    /\ Forall (Forall (fun e => (cost e <? 0)%float = false)) edges.
Proof.
  intros Hdof Hfrom Hto.
  rewrite (calculateEdgeWeights_spec robot None start_joints end_joints dof n_from n_to tm)
    by done.
  eexists _, _. split; [done|]. apply built_edges_default_not_negative.
Qed.

Lemma calculateEdgeWeights_default_cost_not_negative_witness :
  exists edges log,
    calculateEdgeWeights planar_robot None
      [0; neg_infinity; 3; nan]%float [infinity; 1; -2; 5]%float 2 free_timing
    = Some (edges, log)
    /\ Forall (Forall (fun e => (cost e <? 0)%float = false)) edges.
Proof.
  apply (calculateEdgeWeights_default_cost_not_negative planar_robot
           [0; neg_infinity; 3; nan]%float [infinity; 1; -2; 5]%float 2 2 2 free_timing).
  - lia.
  - reflexivity.
  - reflexivity.
Defined.

(** * Further properties of [getShortestPath] *)

Lemma eqb_infinity_eq (d : double) :
  PrimFloat.eqb d infinity = true -> d = infinity.
Proof.
  rewrite FloatAxioms.eqb_spec. intros Heq. apply Prim2SF_inj.
  change (Prim2SF infinity) with (S754_infinity false) in *.
  destruct (Prim2SF d) as [s|s| |s m e]; try destruct s; done.
Qed.

(** A feasible graph has a vertex of the path in every rung. *)
Lemma shortestPath_feasible (g : LadderGraph.t) :
  PrimFloat.eqb (DijkstrasSearch.run g) d_infinity = false ->
  Forall2 (vertex_of (LadderGraph.dof_ g)) (LadderGraph.rungs_ g)
    (DijkstrasSearch.shortestPath g).
Proof.
  unfold DijkstrasSearch.shortestPath, DijkstrasSearch.run,
    DijkstrasSearch.last_rung_min.
  pose proof (solution_chain g) as Hchain.
  pose proof (solution_sized g) as Hsized.
  destruct (DijkstrasSearch.solution g) as [|col cols] eqn:Hsol; [done|].
  intros Hinf. rewrite Hinf.
  destruct (min_distance_attained (DijkstrasSearch.distance col))
    as [Hnone|(v & Hv & Hd & Hreached)].
  { by rewrite Hnone in Hinf. }
  rewrite Hv.
  rewrite <- (reverse_involutive (LadderGraph.rungs_ g)).
  apply Forall2_reverse.
  apply (Forall2_compose (sized (LadderGraph.dof_ g))
           (fun col idx => idx < length (DijkstrasSearch.distance col))
           _ _ (col :: cols)); [|done|].
  - unfold sized, vertex_of. intros r c idx Hc Hidx. by rewrite <- Hc.
  - by apply (backtrack_in_range (col :: cols) v _ Hchain Hd).
Qed.

(** The loop that fills [path], from rung [k] on. *)
Lemma path_loop_exact (g : LadderGraph.t) (path_idxs : list nat) :
  Forall2 (vertex_of (LadderGraph.dof_ g)) (LadderGraph.rungs_ g) path_idxs ->
  forall (n k : nat) (path : list JointTrajectoryPt),
    k + n = length path_idxs ->
    for_each (path_step g (LadderGraph.dof g) path_idxs) (seq k n) path
    = Some (path ++ take n (drop k (zip_with (path_point (LadderGraph.dof_ g))
                                      (LadderGraph.rungs_ g) path_idxs))).
Proof.
  intros Hin. induction n as [|n IH]; intros k path Hk.
  { simpl. by rewrite app_nil_r. }
  destruct (lookup_lt_is_Some_2 path_idxs k) as [index Hindex]; [lia|].
  destruct (Forall2_lookup_r _ _ _ _ _ Hin Hindex) as (r & Hr & Hvertex).
  destruct (vertex_in_rung g index r Hvertex) as [values Hread].
  assert (values = vertex_at (LadderGraph.data r) (LadderGraph.dof_ g) index) as ->.
  { unfold joints_at, LadderGraph.dof in Hread. destruct (decide _); [|done].
    injection Hread as <-. unfold vertex_at. by rewrite Nat.mul_comm. }
  cbn [seq for_each]. unfold path_step at 1, LadderGraph.vertex, LadderGraph.getRung.
  rewrite Hindex. simpl. rewrite Hr. simpl. rewrite Hread. simpl.
  rewrite IH by lia.
  rewrite (drop_S _ (path_point (LadderGraph.dof_ g) r index) k).
  - simpl. by rewrite <- (assoc_L (++)).
  - rewrite lookup_zip_with, Hr. simpl. by rewrite Hindex.
Qed.

(** What [getShortestPath] returns on every graph. *)
Lemma getShortestPath_exact (g : LadderGraph.t) (path : list JointTrajectoryPt) :
  getShortestPath g path
  = Some (d_neq (DijkstrasSearch.run g) d_infinity, DijkstrasSearch.run g,
          path ++ zip_with (path_point (LadderGraph.dof_ g)) (LadderGraph.rungs_ g)
                    (DijkstrasSearch.shortestPath g)).
Proof.
  unfold getShortestPath.
  destruct (PrimFloat.eqb (DijkstrasSearch.run g) d_infinity) eqn:Hinf.
  - assert (DijkstrasSearch.shortestPath g = []) as ->
      by (unfold DijkstrasSearch.shortestPath; by rewrite Hinf).
    simpl. destruct (LadderGraph.rungs_ g); simpl; by rewrite app_nil_r.
  - pose proof (shortestPath_feasible g Hinf) as Hin.
    rewrite (path_loop_exact g _ Hin _ 0 path) by done. simpl.
    rewrite drop_0, take_ge; [done|].
    rewrite length_zip_with. lia.
Qed.

Lemma path_points_follow_rungs (dof : nat) (rs : list LadderGraph.Rung)
    (idxs : list nat) :
  Forall2 (vertex_of dof) rs idxs ->
  Forall2
    (fun r pt =>
       pt_timing pt = LadderGraph.timing r
       /\ exists index, vertex_of dof r index
                        /\ joints pt = vertex_at (LadderGraph.data r) dof index)
    rs (zip_with (path_point dof) rs idxs).
Proof.
  induction 1 as [|r index rs idxs Hvertex _ IH]; [constructor|].
  simpl. constructor; [|exact IH]. split; [done|]. by exists index.
Qed.

(** X10: [getShortestPath] returns on every graph and only appends to
    [path]. When its flag is [false] the cost is +∞ and nothing has been
    appended. When its flag is [true] it has appended one element per rung,
    in rung order, the element for a rung holding the timing of that rung and
    the [dof] joint values of one of its vertices. *)
Theorem getShortestPath_path_shape
    (g : LadderGraph.t) (path : list JointTrajectoryPt) :
  exists (flag : bool) (total_cost : double) (new : list JointTrajectoryPt),
    getShortestPath g path = Some (flag, total_cost, path ++ new)
    /\ (flag = false -> total_cost = d_infinity /\ new = [])
    /\ (flag = true ->
        Forall2
          (fun r pt =>
             pt_timing pt = LadderGraph.timing r
             /\ exists index,
                  vertex_of (LadderGraph.dof_ g) r index
                  /\ joints pt = vertex_at (LadderGraph.data r) (LadderGraph.dof_ g) index)
          (LadderGraph.rungs_ g) new).
Proof.
  rewrite getShortestPath_exact. eexists _, _, _. split; [done|].
  unfold d_neq. split; intros Hflag.
  - apply negb_false_iff in Hflag. split; [by apply eqb_infinity_eq|].
    unfold DijkstrasSearch.shortestPath. rewrite Hflag.
    by destruct (LadderGraph.rungs_ g).
  - apply negb_true_iff in Hflag.
    by apply path_points_follow_rungs, shortestPath_feasible.
Qed.

Lemma getShortestPath_path_shape_witness :
  exists (flag : bool) (total_cost : double) (new : list JointTrajectoryPt),
    getShortestPath (graph_ three_rungs) [] = Some (flag, total_cost, [] ++ new)
    /\ (flag = false -> total_cost = d_infinity /\ new = [])
    /\ (flag = true ->
        Forall2
          (fun r pt =>
             pt_timing pt = LadderGraph.timing r
             /\ exists index,
                  vertex_of (LadderGraph.dof_ (graph_ three_rungs)) r index
                  /\ joints pt
                     = vertex_at (LadderGraph.data r)
                         (LadderGraph.dof_ (graph_ three_rungs)) index)
          (LadderGraph.rungs_ (graph_ three_rungs)) new).
Proof.
  apply (getShortestPath_path_shape (graph_ three_rungs) []).
Defined.

(** * The planner end to end *)

Lemma link_rungs_default_not_negative robot (rs : list LadderGraph.Rung) :
  Forall rung_no_negative_cost rs ->
  Forall rung_no_negative_cost (link_rungs robot None rs).
Proof.
  induction 1 as [|r rest Hr Hrest IH]; [constructor|].
  cbn [link_rungs]. constructor; [|exact IH].
  unfold rung_no_negative_cost. simpl.
  destruct rest as [|r_next rest]; [exact Hr|].
  apply built_edges_default_not_negative.
Qed.

(** X11: on the graph that a successful [insertGraph] leaves when no cost
    function is registered, [getShortestPath] returns a cost that is neither
    negative nor a NaN, its flag is [true] exactly when that cost is finite,
    and it then yields one path element per point handed to [insertGraph]. *)
Theorem insertGraph_then_getShortestPath
    (robot : RobotModel) (points : list TrajectoryPt) (pg : PlanningGraph) :
  2 <= length points ->
  LadderGraph.dof_ (graph_ pg) = getDOF robot -> 0 < getDOF robot ->
  Forall (solvable robot) points ->
  exists pg' flag total_cost path,
    insertGraph robot None points pg = Some (true, pg')
    /\ getShortestPath (graph_ pg') [] = Some (flag, total_cost, path)
    /\ (0 <=? total_cost)%float = true
    /\ (flag = true <-> d_finite total_cost = true)
    /\ (flag = true -> length path = length points)
    /\ (flag = false -> path = []).
Proof.
  intros Hlen Hdof Hpos Hsolv.
  rewrite (insertGraph_layout robot None points pg Hlen Hdof Hpos Hsolv).
  set (g := LadderGraph.mk _ _).
  assert (no_negative_cost g) as Hcost.
  { apply link_rungs_default_not_negative, Forall_fmap, Forall_forall.
    intros p _. constructor. }
  eexists _, _, _, _. split; [done|]. cbn [graph_].
  split; [apply (getShortestPath_exact g [])|].
  split; [by apply run_nonneg|].
  split; [by rewrite (nonneg_finite_iff _ (run_nonneg g Hcost))|].
  unfold d_neq. split; intros Hflag.
  - apply negb_true_iff in Hflag.
    pose proof (shortestPath_feasible g Hflag) as Hin.
    apply Forall2_length in Hin. simpl in *.
    rewrite length_zip_with, <- Hin, link_rungs_length, length_fmap. lia.
  - apply negb_false_iff in Hflag.
    unfold DijkstrasSearch.shortestPath. rewrite Hflag. simpl.
    by destruct (link_rungs _ _ _).
Qed.

Lemma insertGraph_then_getShortestPath_witness :
  exists pg' flag total_cost path,
    insertGraph bounded_travel_robot None
      [point_1; fixed_point 2%N (mkTiming true 1%float) [[5%float]]; point_3]
      (new_PlanningGraph bounded_travel_robot) = Some (true, pg')
    /\ getShortestPath (graph_ pg') [] = Some (flag, total_cost, path)
    /\ (0 <=? total_cost)%float = true
    /\ (flag = true <-> d_finite total_cost = true)
    /\ (flag = true
        -> length path
           = length [point_1; fixed_point 2%N (mkTiming true 1%float) [[5%float]]; point_3])
    /\ (flag = false -> path = []).
Proof.
  apply (insertGraph_then_getShortestPath bounded_travel_robot
           [point_1; fixed_point 2%N (mkTiming true 1%float) [[5%float]]; point_3]
           (new_PlanningGraph bounded_travel_robot)).
  - simpl. lia.
  - reflexivity.
  - simpl. lia.
  - repeat constructor; discriminate.
Defined.

(** * Further properties of [removeTrajectory] *)

Lemma delete_alter_lt {A : Type} (f : A -> A) (l : list A) (i k : nat) :
  k < i -> delete i (alter f k l) = alter f k (delete i l).
Proof.
  revert i k. induction l as [|x l IH]; intros i k Hlt; [done|].
  destruct i as [|i]; [lia|]. destruct k as [|k]; [done|].
  simpl. f_equal. apply IH. lia.
Qed.

Lemma relink_length robot user (k : nat) (rs : list LadderGraph.Rung) :
  length (relink robot user k rs) = length rs.
Proof. unfold relink. by rewrite length_alter. Qed.

Lemma relink_core robot user (k : nat) (rs : list LadderGraph.Rung) :
  rung_core <$> relink robot user k rs = rung_core <$> rs.
Proof.
  unfold relink. apply list_eq. intros j. rewrite !list_lookup_fmap.
  destruct (decide (k = j)) as [->|Hne].
  - rewrite list_lookup_alter_eq. by destruct (rs !! j).
  - by rewrite list_lookup_alter_ne.
Qed.

Lemma relink_flat robot user (dof k : nat) (rs : list LadderGraph.Rung) :
  Forall (flat_rung dof) rs -> Forall (flat_rung dof) (relink robot user k rs).
Proof.
  intros Hflat. unfold relink. apply Forall_alter; [done|]. by intros r _ Hr.
Qed.

Lemma relink_calls_are_checks robot (k : nat) (rs : list LadderGraph.Rung) :
  Forall (fun c => is_move_check c = true) (relink_calls robot k rs).
Proof.
  unfold relink_calls. destruct (rs !! k); [|constructor].
  destruct (rs !! S k); [|constructor]. apply built_calls_are_checks.
Qed.

Section RemoveLemmas.

Variable robot_model_ : RobotModel.
Variable custom_cost_function_ : option (list double -> list double -> double).

Local Abbreviation DOF := (getDOF robot_model_).

(** [computeAndAssignEdges(k, k + 1)] between two rungs of a well-formed
    graph. *)
Lemma computeAndAssignEdges_relink (k : nat) (pg : PlanningGraph) :
  wf_graph robot_model_ (graph_ pg) ->
  S k < LadderGraph.size (graph_ pg) ->
  computeAndAssignEdges robot_model_ custom_cost_function_ k (S k) pg
  = Some (mkPlanningGraph
            (LadderGraph.with_rungs (graph_ pg)
               (relink robot_model_ custom_cost_function_ k
                  (LadderGraph.rungs_ (graph_ pg))))
            (oracle_log pg ++ relink_calls robot_model_ k (LadderGraph.rungs_ (graph_ pg)))).
Proof.
  intros (Hdof & Hpos & Hflat) Hk. unfold LadderGraph.size in Hk.
  destruct (lookup_lt_is_Some_2 (LadderGraph.rungs_ (graph_ pg)) k) as [r Hr]; [lia|].
  destruct (lookup_lt_is_Some_2 (LadderGraph.rungs_ (graph_ pg)) (S k)) as [r_next Hnext];
    [lia|].
  rewrite (computeAndAssignEdges_flat robot_model_ custom_cost_function_ k (S k) pg
             r r_next); try done.
  - unfold relink, relink_calls. rewrite Hr, Hnext. do 3 f_equal.
    rewrite list_insert_alter. apply list_alter_ext; [|done].
    intros r' Hr'. rewrite Hr in Hr'. by injection Hr' as <-.
  - exact (proj1 (Forall_lookup _ _) Hflat k r Hr).
  - exact (proj1 (Forall_lookup _ _) Hflat (S k) r_next Hnext).
Qed.

(** [removeTrajectory] of a point whose rung is rung [idx]. *)
Lemma removeTrajectory_layout (point : TrajectoryPt) (pg : PlanningGraph) (idx : nat) :
  wf_graph robot_model_ (graph_ pg) ->
  LadderGraph.indexOf (graph_ pg) (getID point) = (idx, true) ->
  removeTrajectory robot_model_ custom_cost_function_ point pg
  = Some (true,
          mkPlanningGraph
            (LadderGraph.with_rungs (graph_ pg)
               (match idx with
                | O => delete 0 (LadderGraph.rungs_ (graph_ pg))
                | S k => relink robot_model_ custom_cost_function_ k
                           (delete (S k) (LadderGraph.rungs_ (graph_ pg)))
                end))
            (oracle_log pg
             ++ match idx with
                | O => []
                | S k => relink_calls robot_model_ k
                           (delete (S k) (LadderGraph.rungs_ (graph_ pg)))
                end)).
Proof.
  intros Hwf Hidx. pose proof Hwf as (Hdof & Hpos & Hflat).
  destruct (indexOf_present _ _ _ Hidx) as (r_idx & Hr_idx & _).
  pose proof (lookup_lt_Some _ _ _ Hr_idx) as Hlt.
  unfold removeTrajectory. rewrite Hidx. simpl.
  unfold LadderGraph.removeRung, LadderGraph.size.
  destruct (decide _) as [_|Hbad]; [|done]. simpl.
  destruct idx as [|k].
  { simpl. by rewrite app_nil_r. }
  simpl. rewrite delete_alter_lt by lia.
  set (rs := LadderGraph.rungs_ (graph_ pg)) in *.
  unfold LadderGraph.isLast, LadderGraph.size. fold rs.
  destruct (Nat.eqb_spec (S k + 1) (length rs)) as [Hlast|Hinner]; simpl.
  - unfold relink, relink_calls.
    rewrite (proj2 (lookup_ge_None (delete (S k) rs) (S k)))
      by (rewrite length_delete by done; lia).
    destruct (delete (S k) rs !! k); by rewrite app_nil_r.
  - set (rs1 := alter (LadderGraph.set_edges []) k (delete (S k) rs)).
    assert (length (delete (S k) rs) = length rs - 1) as Hlen
      by (by rewrite length_delete).
    rewrite (computeAndAssignEdges_relink k); simpl.
    + do 3 f_equal.
      * unfold relink, rs1. rewrite list_lookup_alter_ne by lia.
        rewrite list_alter_alter_eq. unfold LadderGraph.with_rungs. simpl. by f_equal.
      * unfold relink_calls, rs1. rewrite list_lookup_alter_eq.
        rewrite list_lookup_alter_ne by lia.
        by destruct (delete (S k) rs !! k).
    + repeat split; [done..|]. simpl. unfold rs1.
      apply Forall_alter; [|by intros r _ Hr].
      rewrite delete_take_drop. apply Forall_app. split.
      * by apply Forall_take.
      * by apply Forall_drop.
    + unfold LadderGraph.size. simpl. unfold rs1. rewrite length_alter. lia.
Qed.

End RemoveLemmas.

Lemma fmap_delete {A B : Type} (f : A -> B) (l : list A) (i : nat) :
  f <$> delete i l = delete i (f <$> l).
Proof.
  revert i. induction l as [|x l IH]; intros [|i]; try done.
  simpl. by rewrite <- IH.
Qed.

Lemma delete_flat (dof i : nat) (rs : list LadderGraph.Rung) :
  Forall (flat_rung dof) rs -> Forall (flat_rung dof) (delete i rs).
Proof.
  intros Hflat. rewrite delete_take_drop. apply Forall_app.
  split; [by apply Forall_take | by apply Forall_drop].
Qed.

(** X12: [removeTrajectory] of a point whose id is carried by rung [idx] of
    a well-formed graph returns [true] and leaves a well-formed graph with
    one rung less: rung [idx] is gone, the other rungs keep their id, timing
    and joint data in the same order, the rungs after [idx] and those before
    [idx - 1] are exactly as they were, edges included, and the oracle is
    asked move checks only, never joint poses. *)
Theorem removeTrajectory_found
    (robot : RobotModel) (user : option (list double -> list double -> double))
    (point : TrajectoryPt) (pg : PlanningGraph) (idx : nat) :
  wf_graph robot (graph_ pg) ->
  LadderGraph.indexOf (graph_ pg) (getID point) = (idx, true) ->
  exists pg' checks,
    removeTrajectory robot user point pg = Some (true, pg')
    /\ wf_graph robot (graph_ pg')
    /\ S (LadderGraph.size (graph_ pg')) = LadderGraph.size (graph_ pg)
    /\ rung_core <$> LadderGraph.rungs_ (graph_ pg')
       = delete idx (rung_core <$> LadderGraph.rungs_ (graph_ pg))
    /\ (forall j, S j < idx ->
          LadderGraph.rungs_ (graph_ pg') !! j = LadderGraph.rungs_ (graph_ pg) !! j)
    /\ (forall j, idx <= j ->
          LadderGraph.rungs_ (graph_ pg') !! j = LadderGraph.rungs_ (graph_ pg) !! S j)
    /\ oracle_log pg' = oracle_log pg ++ checks
    /\ Forall (fun c => is_move_check c = true) checks.
Proof.
  intros Hwf Hidx.
  rewrite (removeTrajectory_layout robot user point pg idx Hwf Hidx).
  destruct (indexOf_present _ _ _ Hidx) as (r_idx & Hr_idx & _).
  pose proof (lookup_lt_Some _ _ _ Hr_idx) as Hlt.
  destruct Hwf as (Hdof & Hpos & Hflat).
  destruct idx as [|k]; eexists _, _; (split; [done|]); cbn [graph_ oracle_log];
    unfold LadderGraph.size, LadderGraph.with_rungs;
    cbn [LadderGraph.rungs_ LadderGraph.dof_].
  - split; [repeat split; [done..|by apply delete_flat]|].
    split; [rewrite length_delete by done; lia|].
    split; [by rewrite fmap_delete|].
    split; [intros j Hj; lia|].
    split; [intros j Hj; by rewrite list_lookup_delete_ge by lia|].
    split; [done|constructor].
  - split; [repeat split; [done..|by apply relink_flat, delete_flat]|].
    split; [rewrite relink_length, length_delete by done; lia|].
    split; [by rewrite relink_core, fmap_delete|].
    split; [|split].
    + intros j Hj. unfold relink. rewrite list_lookup_alter_ne by lia.
      by rewrite list_lookup_delete_lt by lia.
    + intros j Hj. unfold relink. rewrite list_lookup_alter_ne by lia.
      by rewrite list_lookup_delete_ge by lia.
    + split; [done|apply relink_calls_are_checks].
Qed.

Lemma removeTrajectory_found_witness :
  exists pg' checks,
    removeTrajectory bounded_travel_robot None point_3 five_rungs = Some (true, pg')
    /\ wf_graph bounded_travel_robot (graph_ pg')
    /\ S (LadderGraph.size (graph_ pg')) = LadderGraph.size (graph_ five_rungs)
    /\ rung_core <$> LadderGraph.rungs_ (graph_ pg')
       = delete 2 (rung_core <$> LadderGraph.rungs_ (graph_ five_rungs))
    /\ (forall j, S j < 2 ->
          LadderGraph.rungs_ (graph_ pg') !! j
          = LadderGraph.rungs_ (graph_ five_rungs) !! j)
    /\ (forall j, 2 <= j ->
          LadderGraph.rungs_ (graph_ pg') !! j
          = LadderGraph.rungs_ (graph_ five_rungs) !! S j)
    /\ oracle_log pg' = oracle_log five_rungs ++ checks
    /\ Forall (fun c => is_move_check c = true) checks.
Proof.
  apply (removeTrajectory_found bounded_travel_robot None point_3 five_rungs 2).
  - split; [reflexivity|]. split; [simpl; lia|]. vm_compute. repeat constructor.
  - reflexivity.
Defined.

(** X13: after [removeTrajectory] of an interior rung [idx], rung [idx - 1]
    holds exactly the edge block that the builder computes from it to the
    former rung [idx + 1], and the oracle log has grown by the move checks of
    that block. After the removal of the first or of the last rung the oracle
    has not been asked anything, and the rung that has become the last one
    holds no edge. *)
Theorem removeTrajectory_relinks_neighbours
    (robot : RobotModel) (user : option (list double -> list double -> double))
    (point : TrajectoryPt) (pg : PlanningGraph) (idx : nat) :
  wf_graph robot (graph_ pg) ->
  LadderGraph.indexOf (graph_ pg) (getID point) = (idx, true) ->
  exists pg',
    removeTrajectory robot user point pg = Some (true, pg')
    /\ (forall k r_prev r_next,
          idx = S k ->
          LadderGraph.rungs_ (graph_ pg) !! k = Some r_prev ->
          LadderGraph.rungs_ (graph_ pg) !! S idx = Some r_next ->
          LadderGraph.rungs_ (graph_ pg') !! k
          = Some (LadderGraph.set_edges
                    (edge_block robot user (getDOF robot) r_prev r_next) r_prev)
          /\ oracle_log pg'
             = oracle_log pg ++ edge_block_calls (getDOF robot) r_prev r_next)
    /\ (idx = 0 \/ S idx = LadderGraph.size (graph_ pg) ->
        oracle_log pg' = oracle_log pg)
    /\ (forall k r_prev,
          idx = S k -> S idx = LadderGraph.size (graph_ pg) ->
          LadderGraph.rungs_ (graph_ pg) !! k = Some r_prev ->
          LadderGraph.rungs_ (graph_ pg') !! k
          = Some (LadderGraph.set_edges [] r_prev)).
Proof.
  intros Hwf Hidx.
  rewrite (removeTrajectory_layout robot user point pg idx Hwf Hidx).
  eexists. split; [done|]. cbn [graph_ oracle_log].
  unfold LadderGraph.size, LadderGraph.with_rungs. cbn [LadderGraph.rungs_].
  set (rs := LadderGraph.rungs_ (graph_ pg)).
  split; [|split].
  - intros k r_prev r_next -> Hprev Hnext.
    unfold relink, relink_calls. rewrite list_lookup_alter_eq.
    rewrite (list_lookup_delete_lt rs (S k) k) by lia.
    rewrite (list_lookup_delete_ge rs (S k) (S k)) by lia.
    fold rs. by rewrite Hprev, Hnext.
  - intros [->|Hlast]; [by rewrite app_nil_r|].
    destruct idx as [|k]; [by rewrite app_nil_r|].
    unfold relink_calls.
    rewrite (proj2 (lookup_ge_None (delete (S k) rs) (S k))).
    + destruct (delete (S k) rs !! k); by rewrite app_nil_r.
    + rewrite length_delete by (apply lookup_lt_is_Some; lia). lia.
  - intros k r_prev -> Hlast Hprev.
    unfold relink. rewrite list_lookup_alter_eq.
    rewrite (list_lookup_delete_lt rs (S k) k) by lia.
    rewrite (list_lookup_delete_ge rs (S k) (S k)) by lia.
    fold rs. rewrite Hprev.
    by rewrite (proj2 (lookup_ge_None rs (S (S k)))) by lia.
Qed.

Lemma removeTrajectory_relinks_neighbours_witness :
  exists pg',
    removeTrajectory bounded_travel_robot None point_2 three_rungs = Some (true, pg')
    /\ (forall k r_prev r_next,
          1 = S k ->
          LadderGraph.rungs_ (graph_ three_rungs) !! k = Some r_prev ->
          LadderGraph.rungs_ (graph_ three_rungs) !! 2 = Some r_next ->
          LadderGraph.rungs_ (graph_ pg') !! k
          = Some (LadderGraph.set_edges
                    (edge_block bounded_travel_robot None
                       (getDOF bounded_travel_robot) r_prev r_next) r_prev)
          /\ oracle_log pg'
             = oracle_log three_rungs
               ++ edge_block_calls (getDOF bounded_travel_robot) r_prev r_next)
    /\ (1 = 0 \/ 2 = LadderGraph.size (graph_ three_rungs) ->
        oracle_log pg' = oracle_log three_rungs)
    /\ (forall k r_prev,
          1 = S k -> 2 = LadderGraph.size (graph_ three_rungs) ->
          LadderGraph.rungs_ (graph_ three_rungs) !! k = Some r_prev ->
          LadderGraph.rungs_ (graph_ pg') !! k
          = Some (LadderGraph.set_edges [] r_prev)).
Proof.
  apply (removeTrajectory_relinks_neighbours bounded_travel_robot None point_2
           three_rungs 1).
  - split; [reflexivity|]. split; [simpl; lia|]. vm_compute. repeat constructor.
  - reflexivity.
Defined.

(** * Further properties of [modifyTrajectory] *)

Lemma alter_fixed {A : Type} (f : A -> A) (l : list A) (k : nat) (x : A) :
  l !! k = Some x -> f x = x -> alter f k l = l.
Proof.
  intros Hk Hx. apply list_eq. intros j. destruct (decide (k = j)) as [<-|Hne].
  - rewrite list_lookup_alter_eq, Hk. simpl. by rewrite Hx.
  - by rewrite list_lookup_alter_ne.
Qed.

Section ModifyLayout.

Variable robot_model_ : RobotModel.
Variable custom_cost_function_ : option (list double -> list double -> double).

Local Abbreviation DOF := (getDOF robot_model_).

(** The step [if (!graph_.isLast(idx)) computeAndAssignEdges(idx, idx + 1)]
    on a rung that holds no edge. *)
Lemma relink_unless_last (k : nat) (pg : PlanningGraph) (r : LadderGraph.Rung) :
  wf_graph robot_model_ (graph_ pg) ->
  LadderGraph.rungs_ (graph_ pg) !! k = Some r ->
  LadderGraph.edges r = [] ->
  (if negb (LadderGraph.isLast (graph_ pg) k)
   then computeAndAssignEdges robot_model_ custom_cost_function_ k (k + 1) pg
   else Some pg)
  = Some (mkPlanningGraph
            (LadderGraph.with_rungs (graph_ pg)
               (relink robot_model_ custom_cost_function_ k
                  (LadderGraph.rungs_ (graph_ pg))))
            (oracle_log pg ++ relink_calls robot_model_ k (LadderGraph.rungs_ (graph_ pg)))).
Proof.
  intros Hwf Hr Hedges. pose proof (lookup_lt_Some _ _ _ Hr) as Hlt.
  unfold LadderGraph.isLast, LadderGraph.size.
  destruct (Nat.eqb_spec (k + 1) (length (LadderGraph.rungs_ (graph_ pg))))
    as [Hlast|Hinner]; simpl.
  - unfold relink, relink_calls.
    rewrite (proj2 (lookup_ge_None (LadderGraph.rungs_ (graph_ pg)) (S k))) by lia.
    rewrite Hr, app_nil_r.
    rewrite (alter_fixed _ _ k r Hr); [by destruct pg as [[] ?]|].
    destruct r. simpl in *. by subst.
  - rewrite Nat.add_1_r. apply computeAndAssignEdges_relink; [done|].
    unfold LadderGraph.size. lia.
Qed.

(** [modifyTrajectory] of a point whose rung is rung [idx]. *)
Lemma modifyTrajectory_layout (point : TrajectoryPt) (pg : PlanningGraph) (idx : nat) :
  wf_graph robot_model_ (graph_ pg) ->
  LadderGraph.indexOf (graph_ pg) (getID point) = (idx, true) ->
  dof_poses DOF (getJointPoses point robot_model_) ->
  exists checks,
    modifyTrajectory robot_model_ custom_cost_function_ point pg
    = Some (true,
            mkPlanningGraph
              (LadderGraph.with_rungs (graph_ pg)
                 (modified_rungs robot_model_ custom_cost_function_ point idx
                    (LadderGraph.rungs_ (graph_ pg))))
              (oracle_log pg ++ JointPosesCall point :: checks))
    /\ Forall (fun c => is_move_check c = true) checks.
Proof.
  intros Hwf Hidx Hposes.
  destruct (indexOf_present _ _ _ Hidx) as (r0 & Hr0 & Hid0).
  pose proof (lookup_lt_Some _ _ _ Hr0) as Hlt.
  destruct Hwf as (Hdof & Hpos & Hflat).
  unfold modifyTrajectory. rewrite Hidx. simpl.
  destruct (calculateJointSolutions_single robot_model_ point (oracle_log pg))
    as [ok ->].
  unfold LadderGraph.clearVertices, LadderGraph.clearEdges, LadderGraph.assignRung,
    LadderGraph.getRung.
  rewrite Hr0. simpl. rewrite list_lookup_insert_eq by done. simpl.
  rewrite list_lookup_insert_eq by (by rewrite length_insert). simpl.
  rewrite Hdof. destruct (decide _) as [_|Hbad]; [|by destruct Hbad; apply concat_dof_poses].
  simpl. rewrite !list_insert_insert_eq.
  fold (rung_of robot_model_ point).
  set (rs := LadderGraph.rungs_ (graph_ pg)) in *.
  set (rs1 := <[idx := rung_of robot_model_ point]> rs).
  set (pg3 := mkPlanningGraph _ _).
  assert (wf_graph robot_model_ (graph_ pg3)) as Hwf3.
  { repeat split; [done..|]. simpl. apply Forall_insert; [done|].
    by apply concat_dof_poses. }
  assert (length rs1 = length rs) as Hlen1 by apply length_insert.
  assert (rs1 !! idx = Some (rung_of robot_model_ point)) as Hnew
    by (by apply list_lookup_insert_eq).
  unfold modified_rungs. fold rs1.
  destruct idx as [|k].
  - simpl negb. cbv iota. cbn [mbind option_bind].
    rewrite (relink_unless_last 0 pg3 (rung_of robot_model_ point)); try done.
    simpl. eexists. split; [by rewrite <- (assoc_L (++))|].
    apply relink_calls_are_checks.
  - simpl negb. cbv iota. simpl size_pred. cbn [mbind option_bind].
    rewrite (computeAndAssignEdges_relink robot_model_ custom_cost_function_ k pg3 Hwf3)
      by (unfold LadderGraph.size; simpl; fold rs1; lia).
    cbn [mbind option_bind].
    set (pg1 := mkPlanningGraph _ _).
    rewrite (relink_unless_last (S k) pg1 (rung_of robot_model_ point)); try done.
    + simpl. eexists. split; [by rewrite <- !(assoc_L (++))|].
      apply Forall_app. split; apply relink_calls_are_checks.
    + repeat split; [done..|]. simpl. by apply relink_flat, Hwf3.
    + simpl. unfold relink. by rewrite list_lookup_alter_ne by lia.
Qed.

End ModifyLayout.

Lemma modified_rungs_length robot user (point : TrajectoryPt) (idx : nat)
    (rs : list LadderGraph.Rung) :
  length (modified_rungs robot user point idx rs) = length rs.
Proof.
  unfold modified_rungs. rewrite relink_length.
  destruct idx; [|rewrite relink_length]; apply length_insert.
Qed.

Lemma modified_rungs_flat robot user (point : TrajectoryPt) (idx : nat)
    (rs : list LadderGraph.Rung) :
  dof_poses (getDOF robot) (getJointPoses point robot) ->
  Forall (flat_rung (getDOF robot)) rs ->
  Forall (flat_rung (getDOF robot)) (modified_rungs robot user point idx rs).
Proof.
  intros Hposes Hflat. unfold modified_rungs. apply relink_flat.
  assert (Forall (flat_rung (getDOF robot)) (<[idx := rung_of robot point]> rs)) as Hflat1
    by (apply Forall_insert; [done|by apply solvable_flat]).
  destruct idx; [done|]. by apply relink_flat.
Qed.

Lemma modified_rungs_lookup robot user (point : TrajectoryPt) (idx j : nat)
    (rs : list LadderGraph.Rung) :
  idx < length rs ->
  modified_rungs robot user point idx rs !! j
  = if decide (j = idx) then
      Some (LadderGraph.set_edges
              (match rs !! S idx with
               | Some r_next => edge_block robot user (getDOF robot) (rung_of robot point) r_next
               | None => []
               end) (rung_of robot point))
    else if decide (S j = idx) then
      (fun r => LadderGraph.set_edges
                  (edge_block robot user (getDOF robot) r (rung_of robot point)) r)
        <$> rs !! j
    else rs !! j.
Proof.
  intros Hidx. unfold modified_rungs.
  set (rs1 := <[idx := rung_of robot point]> rs).
  assert (rs1 !! idx = Some (rung_of robot point)) as Hnew
    by (by apply list_lookup_insert_eq).
  assert (forall i, i <> idx -> rs1 !! i = rs !! i) as Hother
    by (intros i Hi; by apply list_lookup_insert_ne).
  unfold relink at 1.
  destruct (decide (j = idx)) as [->|Hne].
  - rewrite list_lookup_alter_eq.
    destruct idx as [|k].
    + rewrite Hnew, Hother by lia. done.
    + unfold relink. rewrite !list_lookup_alter_ne by lia.
      rewrite Hnew, Hother by lia. done.
  - rewrite list_lookup_alter_ne by done.
    destruct idx as [|k].
    + rewrite Hother by done. by destruct (decide _); [lia|].
    + unfold relink. destruct (decide (S j = S k)) as [Hjk|Hjk].
      * assert (j = k) as -> by lia.
        rewrite list_lookup_alter_eq, Hnew, Hother by lia. done.
      * rewrite list_lookup_alter_ne by lia. by apply Hother.
Qed.

Lemma modified_rungs_idempotent robot user (point : TrajectoryPt) (idx : nat)
    (rs : list LadderGraph.Rung) :
  idx < length rs ->
  modified_rungs robot user point idx (modified_rungs robot user point idx rs)
  = modified_rungs robot user point idx rs.
Proof.
  intros Hidx. apply list_eq. intros j.
  rewrite (modified_rungs_lookup robot user point idx j (modified_rungs _ _ _ _ _))
    by (by rewrite modified_rungs_length).
  rewrite (modified_rungs_lookup robot user point idx (S idx) rs) by done.
  rewrite (modified_rungs_lookup robot user point idx j rs) by done.
  destruct (decide (S idx = idx)) as [|_]; [lia|].
  destruct (decide (S (S idx) = idx)) as [|_]; [lia|].
  destruct (decide (j = idx)) as [_|_]; [done|].
  destruct (decide (S j = idx)) as [_|_]; [|done].
  by destruct (rs !! j).
Qed.

Lemma find_id_same_ids (wanted : ID) (rs1 rs2 : list LadderGraph.Rung) (i : nat) :
  LadderGraph.id <$> rs1 = LadderGraph.id <$> rs2 ->
  LadderGraph.find_id wanted rs1 i = LadderGraph.find_id wanted rs2 i.
Proof.
  revert rs2 i. induction rs1 as [|r1 rs1 IH]; intros [|r2 rs2] i Hids; try done.
  simpl in *. injection Hids as Hid Hrest. rewrite Hid.
  destruct (N.eqb _ _); [done|]. by apply IH.
Qed.

Lemma rung_core_ids (rs1 rs2 : list LadderGraph.Rung) :
  rung_core <$> rs1 = rung_core <$> rs2 ->
  LadderGraph.id <$> rs1 = LadderGraph.id <$> rs2.
Proof.
  intros Hcore.
  assert (forall rs, LadderGraph.id <$> rs = (fun c => c.1.1) <$> (rung_core <$> rs)) as Hid
    by (intros rs; by rewrite <- list_fmap_compose).
  by rewrite !Hid, Hcore.
Qed.

Lemma relink_ids robot user (k : nat) (rs : list LadderGraph.Rung) :
  LadderGraph.id <$> relink robot user k rs = LadderGraph.id <$> rs.
Proof. apply rung_core_ids, relink_core. Qed.

Lemma modified_rungs_ids robot user (point : TrajectoryPt) (idx : nat)
    (rs : list LadderGraph.Rung) (r : LadderGraph.Rung) :
  rs !! idx = Some r -> LadderGraph.id r = getID point ->
  LadderGraph.id <$> modified_rungs robot user point idx rs = LadderGraph.id <$> rs.
Proof.
  intros Hr Hid. unfold modified_rungs. rewrite relink_ids.
  assert (LadderGraph.id <$> <[idx := rung_of robot point]> rs = LadderGraph.id <$> rs)
    as Hids.
  { rewrite list_fmap_insert. apply list_insert_id.
    rewrite list_lookup_fmap, Hr. simpl. by rewrite Hid. }
  destruct idx as [|k]; [|rewrite relink_ids]; done.
Qed.

(** X14: [modifyTrajectory] is idempotent on the graph: on a well-formed
    graph that carries the point's id, a second call with the same point
    succeeds like the first one and leaves the graph, rungs and edges, exactly
    as the first call left it. *)
Theorem modifyTrajectory_idempotent
    (robot : RobotModel) (user : option (list double -> list double -> double))
    (point : TrajectoryPt) (pg : PlanningGraph) (idx : nat) :
  wf_graph robot (graph_ pg) ->
  LadderGraph.indexOf (graph_ pg) (getID point) = (idx, true) ->
  dof_poses (getDOF robot) (getJointPoses point robot) ->
  exists pg1 pg2,
    modifyTrajectory robot user point pg = Some (true, pg1)
    /\ modifyTrajectory robot user point pg1 = Some (true, pg2)
    /\ graph_ pg2 = graph_ pg1.
Proof.
  intros Hwf Hidx Hposes.
  destruct (modifyTrajectory_layout robot user point pg idx Hwf Hidx Hposes)
    as (checks1 & Hfirst & _).
  destruct (indexOf_present _ _ _ Hidx) as (r0 & Hr0 & Hid0).
  pose proof (lookup_lt_Some _ _ _ Hr0) as Hlt.
  set (pg1 := mkPlanningGraph _ _) in Hfirst.
  assert (wf_graph robot (graph_ pg1)) as Hwf1.
  { destruct Hwf as (Hdof & Hpos & Hflat). repeat split; [done..|].
    simpl. by apply modified_rungs_flat. }
  assert (LadderGraph.indexOf (graph_ pg1) (getID point) = (idx, true)) as Hidx1.
  { rewrite <- Hidx. unfold LadderGraph.indexOf. simpl.
    apply find_id_same_ids. by apply (modified_rungs_ids robot user point idx _ r0). }
  destruct (modifyTrajectory_layout robot user point pg1 idx Hwf1 Hidx1 Hposes)
    as (checks2 & Hsecond & _).
  eexists _, _. split; [exact Hfirst|]. split; [exact Hsecond|].
  simpl. unfold LadderGraph.with_rungs. simpl.
  by rewrite modified_rungs_idempotent.
Qed.

Lemma modifyTrajectory_idempotent_witness :
  exists pg1 pg2,
    modifyTrajectory bounded_travel_robot None
      (fixed_point 3%N (mkTiming true 1%float) [[4%float]; [6%float]; [8%float]])
      five_rungs = Some (true, pg1)
    /\ modifyTrajectory bounded_travel_robot None
         (fixed_point 3%N (mkTiming true 1%float) [[4%float]; [6%float]; [8%float]])
         pg1 = Some (true, pg2)
    /\ graph_ pg2 = graph_ pg1.
Proof.
  apply (modifyTrajectory_idempotent bounded_travel_robot None
           (fixed_point 3%N (mkTiming true 1%float) [[4%float]; [6%float]; [8%float]])
           five_rungs 2).
  - split; [reflexivity|]. split; [simpl; lia|]. vm_compute. repeat constructor.
  - reflexivity.
  - repeat constructor.
Defined.

(** X15: after [modifyTrajectory] on rung [idx] of a well-formed graph, the
    edge block out of rung [idx] is exactly the block that the builder
    computes from the new joint data to rung [idx + 1] (no edge when the rung
    is the last one), the block out of rung [idx - 1] is exactly the block
    computed from that rung to the new joint data, and the oracle has been
    asked for the joint poses of the point once, before any move check. *)
Theorem modifyTrajectory_rebuilds_blocks
    (robot : RobotModel) (user : option (list double -> list double -> double))
    (point : TrajectoryPt) (pg : PlanningGraph) (idx : nat) :
  wf_graph robot (graph_ pg) ->
  LadderGraph.indexOf (graph_ pg) (getID point) = (idx, true) ->
  dof_poses (getDOF robot) (getJointPoses point robot) ->
  exists pg' checks,
    modifyTrajectory robot user point pg = Some (true, pg')
    /\ LadderGraph.rungs_ (graph_ pg') !! idx
       = Some (LadderGraph.set_edges
                 (match LadderGraph.rungs_ (graph_ pg) !! S idx with
                  | Some r_next =>
                      edge_block robot user (getDOF robot) (rung_of robot point) r_next
                  | None => []
                  end) (rung_of robot point))
    /\ (forall k r_prev,
          idx = S k ->
          LadderGraph.rungs_ (graph_ pg) !! k = Some r_prev ->
          LadderGraph.rungs_ (graph_ pg') !! k
          = Some (LadderGraph.set_edges
                    (edge_block robot user (getDOF robot) r_prev (rung_of robot point))
                    r_prev))
    /\ oracle_log pg' = oracle_log pg ++ JointPosesCall point :: checks
    /\ Forall (fun c => is_move_check c = true) checks.
Proof.
  intros Hwf Hidx Hposes.
  destruct (modifyTrajectory_layout robot user point pg idx Hwf Hidx Hposes)
    as (checks & -> & Hchecks).
  destruct (indexOf_present _ _ _ Hidx) as (r0 & Hr0 & _).
  pose proof (lookup_lt_Some _ _ _ Hr0) as Hlt.
  eexists _, checks. split; [done|]. simpl.
  split; [|split; [|done]].
  - rewrite modified_rungs_lookup by done. by destruct (decide _).
  - intros k r_prev -> Hprev. rewrite modified_rungs_lookup by done.
    destruct (decide (k = S k)) as [|_]; [lia|].
    destruct (decide (S k = S k)) as [_|]; [|done]. by rewrite Hprev.
Qed.

Lemma modifyTrajectory_rebuilds_blocks_witness :
  exists pg' checks,
    modifyTrajectory bounded_travel_robot None
      (fixed_point 2%N (mkTiming true 6%float) [[4%float]; [6%float]])
      three_rungs = Some (true, pg')
    /\ LadderGraph.rungs_ (graph_ pg') !! 1
       = Some (LadderGraph.set_edges
                 (match LadderGraph.rungs_ (graph_ three_rungs) !! 2 with
                  | Some r_next =>
                      edge_block bounded_travel_robot None (getDOF bounded_travel_robot)
                        (rung_of bounded_travel_robot
                           (fixed_point 2%N (mkTiming true 6%float) [[4%float]; [6%float]]))
                        r_next
                  | None => []
                  end)
                 (rung_of bounded_travel_robot
                    (fixed_point 2%N (mkTiming true 6%float) [[4%float]; [6%float]])))
    /\ (forall k r_prev,
          1 = S k ->
          LadderGraph.rungs_ (graph_ three_rungs) !! k = Some r_prev ->
          LadderGraph.rungs_ (graph_ pg') !! k
          = Some (LadderGraph.set_edges
                    (edge_block bounded_travel_robot None (getDOF bounded_travel_robot)
                       r_prev
                       (rung_of bounded_travel_robot
                          (fixed_point 2%N (mkTiming true 6%float) [[4%float]; [6%float]])))
                    r_prev))
    /\ oracle_log pg'
       = oracle_log three_rungs
         ++ JointPosesCall (fixed_point 2%N (mkTiming true 6%float) [[4%float]; [6%float]])
            :: checks
    /\ Forall (fun c => is_move_check c = true) checks.
Proof.
  apply (modifyTrajectory_rebuilds_blocks bounded_travel_robot None
           (fixed_point 2%N (mkTiming true 6%float) [[4%float]; [6%float]])
           three_rungs 1).
  - split; [reflexivity|]. split; [simpl; lia|]. vm_compute. repeat constructor.
  - reflexivity.
  - repeat constructor.
Defined.

(** * Further properties of [addTrajectory] *)

Section AddLayout.

Variable robot_model_ : RobotModel.
Variable custom_cost_function_ : option (list double -> list double -> double).

Local Abbreviation DOF := (getDOF robot_model_).

(** [addTrajectory] into a graph with at least one rung. *)
Lemma addTrajectory_layout (point : TrajectoryPt) (previous_id next_id : ID)
    (pg : PlanningGraph) :
  wf_graph robot_model_ (graph_ pg) ->
  dof_poses DOF (getJointPoses point robot_model_) ->
  0 < LadderGraph.size (graph_ pg) ->
  (is_nil previous_id = false -> 0 < insert_position (graph_ pg) next_id) ->
  exists checks,
    addTrajectory robot_model_ custom_cost_function_ point previous_id next_id pg
    = Some (true,
            mkPlanningGraph
              (LadderGraph.with_rungs (graph_ pg)
                 (added_rungs robot_model_ custom_cost_function_ point previous_id next_id
                    (insert_position (graph_ pg) next_id)
                    (LadderGraph.rungs_ (graph_ pg))))
              (oracle_log pg ++ JointPosesCall point :: checks))
    /\ Forall (fun c => is_move_check c = true) checks.
Proof.
  intros Hwf Hposes Hsize Hprev.
  pose proof (insert_position_lt (graph_ pg) next_id Hsize) as Hlt.
  destruct Hwf as (Hdof & Hpos & Hflat).
  unfold addTrajectory.
  destruct (calculateJointSolutions_single robot_model_ point (oracle_log pg))
    as [ok ->].
  fold (insert_position (graph_ pg) next_id).
  set (i := insert_position (graph_ pg) next_id) in *. clearbody i.
  unfold LadderGraph.insertRung, LadderGraph.size in *.
  destruct (decide _) as [_|Hbad]; [|lia]. simpl.
  unfold added_rungs.
  set (rs0 := LadderGraph.invalidate_before i (LadderGraph.rungs_ (graph_ pg))).
  assert (length rs0 = length (LadderGraph.rungs_ (graph_ pg))) as Hlen0
    by apply invalidate_before_length.
  assert (length (take i rs0) = i) as Htake by (rewrite length_take; lia).
  unfold LadderGraph.assignRung, LadderGraph.getRung. simpl.
  rewrite lookup_app_r by lia. rewrite Htake, Nat.sub_diag. simpl.
  rewrite Hdof. destruct (decide _) as [_|Hbad]; [|by destruct Hbad; apply concat_dof_poses].
  cbn [mbind option_bind]. unfold LadderGraph.with_rungs.
  cbn [LadderGraph.dof_ LadderGraph.rungs_ LadderGraph.edges LadderGraph.empty_rung].
  rewrite insert_app_r_alt by lia. rewrite Htake, Nat.sub_diag.
  cbn [insert list_insert]. fold (rung_of robot_model_ point).
  set (rs1 := take i rs0 ++ rung_of robot_model_ point :: drop i rs0).
  assert (length rs1 = S (length rs0)) as Hlen1.
  { unfold rs1. rewrite length_app, Htake. simpl. rewrite length_drop. lia. }
  assert (Forall (flat_rung DOF) rs1) as Hflat1.
  { apply Forall_app. split.
    - by apply Forall_take, invalidate_before_flat.
    - apply Forall_cons. split; [by apply concat_dof_poses|].
      by apply Forall_drop, invalidate_before_flat. }
  set (pg2 := mkPlanningGraph _ _).
  assert (exists checks1,
            (if negb (is_nil previous_id)
             then computeAndAssignEdges robot_model_ custom_cost_function_ (size_pred i) i pg2
             else Some pg2)
            = Some (mkPlanningGraph
                      (LadderGraph.mk (LadderGraph.dof_ (graph_ pg))
                         (if negb (is_nil previous_id)
                          then relink robot_model_ custom_cost_function_ (i - 1) rs1
                          else rs1))
                      ((oracle_log pg ++ [JointPosesCall point]) ++ checks1))
            /\ Forall (fun c => is_move_check c = true) checks1)
    as (checks1 & -> & Hchecks1).
  { destruct (is_nil previous_id) eqn:Hnil; simpl.
    - exists []. split; [by rewrite app_nil_r|constructor].
    - specialize (Hprev eq_refl). destruct i as [|k]; [lia|]. simpl.
      rewrite Nat.sub_0_r.
      rewrite (computeAndAssignEdges_relink robot_model_ custom_cost_function_ k pg2).
      + eexists. split; [done|]. apply relink_calls_are_checks.
      + by repeat split.
      + unfold LadderGraph.size. simpl. fold rs1. lia. }
  cbn [mbind option_bind].
  set (rs2 := if negb (is_nil previous_id) then _ else rs1).
  assert (length rs2 = length rs1 /\ Forall (flat_rung DOF) rs2) as [Hlen2 Hflat2].
  { unfold rs2. destruct (negb _); [|done].
    split; [apply relink_length|by apply relink_flat]. }
  set (pg3 := mkPlanningGraph _ _).
  destruct (is_nil next_id) eqn:Hnil; simpl.
  - exists checks1. split; [|done]. unfold pg3. by rewrite <- (assoc_L (++)).
  - rewrite Nat.add_1_r.
    rewrite (computeAndAssignEdges_relink robot_model_ custom_cost_function_ i pg3).
    + simpl. eexists. split; [by rewrite <- !(assoc_L (++))|].
      apply Forall_app. split; [done|apply relink_calls_are_checks].
    + by repeat split.
    + unfold LadderGraph.size. simpl. fold rs2. lia.
Qed.

End AddLayout.

Lemma invalidate_before_core (i : nat) (rs : list LadderGraph.Rung) :
  rung_core <$> LadderGraph.invalidate_before i rs = rung_core <$> rs.
Proof.
  destruct i as [|k]; [done|]. simpl. apply list_eq. intros j.
  rewrite !list_lookup_fmap. destruct (decide (k = j)) as [->|Hne].
  - rewrite list_lookup_alter_eq. by destruct (rs !! j).
  - by rewrite list_lookup_alter_ne.
Qed.

Lemma added_rungs_core robot user (point : TrajectoryPt) (previous_id next_id : ID)
    (pos : nat) (rs : list LadderGraph.Rung) :
  rung_core <$> added_rungs robot user point previous_id next_id pos rs
  = take pos (rung_core <$> rs) ++ rung_core (rung_of robot point)
    :: drop pos (rung_core <$> rs).
Proof.
  unfold added_rungs.
  assert (forall b k l, rung_core <$> (if b : bool then relink robot user k l else l)
                        = rung_core <$> l) as Hopt
    by (intros [] k l; [apply relink_core|done]).
  rewrite !Hopt, fmap_app, fmap_cons, fmap_take, fmap_drop.
  by rewrite invalidate_before_core.
Qed.

Lemma added_rungs_flat robot user (point : TrajectoryPt) (previous_id next_id : ID)
    (pos : nat) (rs : list LadderGraph.Rung) :
  dof_poses (getDOF robot) (getJointPoses point robot) ->
  Forall (flat_rung (getDOF robot)) rs ->
  Forall (flat_rung (getDOF robot))
    (added_rungs robot user point previous_id next_id pos rs).
Proof.
  intros Hposes Hflat. unfold added_rungs.
  assert (forall b k l, Forall (flat_rung (getDOF robot)) l ->
                        Forall (flat_rung (getDOF robot))
                          (if b : bool then relink robot user k l else l)) as Hopt
    by (intros [] k l Hl; [by apply relink_flat|done]).
  apply Hopt, Hopt, Forall_app. split.
  - by apply Forall_take, invalidate_before_flat.
  - apply Forall_cons. split; [by apply solvable_flat|].
    by apply Forall_drop, invalidate_before_flat.
Qed.

(** X16: [addTrajectory] with a [next_id] that rung [k] carries returns
    [true] and puts the new rung at index [k], immediately before that rung:
    the rungs before index [k] and those from index [k] on keep their id,
    timing and joint data and their order, and the new rung carries the id,
    the timing and the concatenated joint poses of the point. *)
Theorem addTrajectory_before_next
    (robot : RobotModel) (user : option (list double -> list double -> double))
    (point : TrajectoryPt) (previous_id next_id : ID) (pg : PlanningGraph) (k : nat) :
  wf_graph robot (graph_ pg) ->
  dof_poses (getDOF robot) (getJointPoses point robot) ->
  LadderGraph.indexOf (graph_ pg) next_id = (k, true) ->
  (is_nil previous_id = false -> 0 < k) ->
  exists pg',
    addTrajectory robot user point previous_id next_id pg = Some (true, pg')
    /\ wf_graph robot (graph_ pg')
    /\ rung_core <$> LadderGraph.rungs_ (graph_ pg')
       = take k (rung_core <$> LadderGraph.rungs_ (graph_ pg))
         ++ (getID point, getTiming point, concat (getJointPoses point robot))
         :: drop k (rung_core <$> LadderGraph.rungs_ (graph_ pg))
    /\ exists r_next,
         LadderGraph.rungs_ (graph_ pg') !! S k = Some r_next
         /\ LadderGraph.id r_next = next_id.
Proof.
  intros Hwf Hposes Hnext Hprev.
  destruct (indexOf_present _ _ _ Hnext) as (r_next & Hr_next & Hid).
  pose proof (lookup_lt_Some _ _ _ Hr_next) as Hlt.
  assert (insert_position (graph_ pg) next_id = k) as Hpos
    by (unfold insert_position; by rewrite Hnext).
  destruct (addTrajectory_layout robot user point previous_id next_id pg)
    as (checks & -> & _); try done.
  { unfold LadderGraph.size. lia. }
  { by rewrite Hpos. }
  rewrite Hpos. eexists. split; [done|]. simpl.
  destruct Hwf as (Hdof & Hdofpos & Hflat).
  split; [repeat split; [done..|by apply added_rungs_flat]|].
  pose proof (added_rungs_core robot user point previous_id next_id k
                (LadderGraph.rungs_ (graph_ pg))) as Hcore.
  split; [exact Hcore|].
  assert ((rung_core <$> added_rungs robot user point previous_id next_id k
                           (LadderGraph.rungs_ (graph_ pg))) !! S k
          = Some (rung_core r_next)) as Hlookup.
  { rewrite Hcore. rewrite lookup_app_r by (rewrite length_take, length_fmap; lia).
    rewrite length_take, length_fmap.
    replace (S k - k `min` length (LadderGraph.rungs_ (graph_ pg))) with 1 by lia.
    simpl. rewrite lookup_drop, Nat.add_0_r, list_lookup_fmap, Hr_next. done. }
  rewrite list_lookup_fmap in Hlookup.
  destruct (added_rungs _ _ _ _ _ _ _ !! S k) as [r'|]; [|done].
  exists r'. split; [done|]. simpl in Hlookup. unfold rung_core in Hlookup.
  injection Hlookup as Hid' _ _. by rewrite Hid'.
Qed.

Lemma addTrajectory_before_next_witness :
  exists pg',
    addTrajectory bounded_travel_robot None point_4 1%N 2%N three_rungs = Some (true, pg')
    /\ wf_graph bounded_travel_robot (graph_ pg')
    /\ rung_core <$> LadderGraph.rungs_ (graph_ pg')
       = take 1 (rung_core <$> LadderGraph.rungs_ (graph_ three_rungs))
         ++ (getID point_4, getTiming point_4,
             concat (getJointPoses point_4 bounded_travel_robot))
         :: drop 1 (rung_core <$> LadderGraph.rungs_ (graph_ three_rungs))
    /\ exists r_next,
         LadderGraph.rungs_ (graph_ pg') !! 2 = Some r_next
         /\ LadderGraph.id r_next = 2%N.
Proof.
  apply (addTrajectory_before_next bounded_travel_robot None point_4 1%N 2%N
           three_rungs 1).
  - split; [reflexivity|]. split; [simpl; lia|]. vm_compute. repeat constructor.
  - repeat constructor.
  - reflexivity.
  - intros _. lia.
Defined.

Lemma spliced_lookup {A : Type} (l : list A) (x : A) (pos j : nat) :
  pos <= length l ->
  (take pos l ++ x :: drop pos l) !! j
  = if decide (j < pos) then l !! j
    else if decide (j = pos) then Some x else l !! (j - 1).
Proof.
  intros Hpos. assert (length (take pos l) = pos) as Hlen by (rewrite length_take; lia).
  destruct (decide (j < pos)) as [Hlt|Hge].
  - rewrite lookup_app_l by lia. by apply lookup_take_lt.
  - rewrite lookup_app_r by lia. rewrite Hlen.
    destruct (decide (j = pos)) as [->|Hne]; [by rewrite Nat.sub_diag|].
    replace (j - pos) with (S (j - 1 - pos)) by lia. simpl.
    rewrite lookup_drop. f_equal. lia.
Qed.

Lemma optional_relink_lookup_ne robot user (b : bool) (k j : nat)
    (rs : list LadderGraph.Rung) :
  (b = true -> k <> j) ->
  (if b then relink robot user k rs else rs) !! j = rs !! j.
Proof.
  intros Hne. destruct b; [|done]. unfold relink.
  by rewrite list_lookup_alter_ne by (by apply Hne).
Qed.

(** X17: [addTrajectory] with a non-nil [next_id] that rung [k] carries
    gives the new rung exactly the edge block that the builder computes from
    the new joint data to that rung. The rung before the new one gets the
    block computed from it to the new joint data when a previous id is given;
    with a nil previous id its edges are cleared and not rebuilt. *)
Theorem addTrajectory_links_new_rung
    (robot : RobotModel) (user : option (list double -> list double -> double))
    (point : TrajectoryPt) (previous_id next_id : ID) (pg : PlanningGraph) (k : nat) :
  wf_graph robot (graph_ pg) ->
  dof_poses (getDOF robot) (getJointPoses point robot) ->
  LadderGraph.indexOf (graph_ pg) next_id = (k, true) ->
  is_nil next_id = false ->
  (is_nil previous_id = false -> 0 < k) ->
  exists pg' r_next,
    addTrajectory robot user point previous_id next_id pg = Some (true, pg')
    /\ LadderGraph.rungs_ (graph_ pg) !! k = Some r_next
    /\ LadderGraph.rungs_ (graph_ pg') !! k
       = Some (LadderGraph.set_edges
                 (edge_block robot user (getDOF robot) (rung_of robot point) r_next)
                 (rung_of robot point))
    /\ forall j r_prev,
         k = S j ->
         LadderGraph.rungs_ (graph_ pg) !! j = Some r_prev ->
         LadderGraph.rungs_ (graph_ pg') !! j
         = Some (LadderGraph.set_edges
                   (if is_nil previous_id then []
                    else edge_block robot user (getDOF robot) r_prev (rung_of robot point))
                   r_prev).
Proof.
  intros Hwf Hposes Hnext Hnil Hprev.
  destruct (indexOf_present _ _ _ Hnext) as (r_next & Hr_next & Hid).
  pose proof (lookup_lt_Some _ _ _ Hr_next) as Hlt.
  assert (insert_position (graph_ pg) next_id = k) as Hpos
    by (unfold insert_position; by rewrite Hnext).
  destruct (addTrajectory_layout robot user point previous_id next_id pg)
    as (checks & -> & _); try done.
  { unfold LadderGraph.size. lia. }
  { by rewrite Hpos. }
  rewrite Hpos. eexists _, r_next. split; [done|]. split; [done|]. simpl.
  set (rs := LadderGraph.rungs_ (graph_ pg)) in *.
  unfold added_rungs. rewrite Hnil. simpl negb. cbv iota.
  set (rs0 := LadderGraph.invalidate_before k rs).
  assert (length rs0 = length rs) as Hlen0 by apply invalidate_before_length.
  set (rs1 := take k rs0 ++ rung_of robot point :: drop k rs0).
  assert (forall j, rs1 !! j
                    = if decide (j < k) then rs0 !! j
                      else if decide (j = k) then Some (rung_of robot point)
                           else rs0 !! (j - 1)) as Hrs1
    by (intros j; apply spliced_lookup; lia).
  set (rs2 := if negb (is_nil previous_id) then relink robot user (k - 1) rs1 else rs1).
  assert (forall j, (is_nil previous_id = false -> k - 1 <> j) -> rs2 !! j = rs1 !! j)
    as Hrs2.
  { intros j Hj. apply optional_relink_lookup_ne. intros Hb.
    apply negb_true_iff in Hb. by apply Hj. }
  split.
  - unfold relink. rewrite list_lookup_alter_eq.
    rewrite !Hrs2 by (intros Hb; specialize (Hprev Hb); lia).
    rewrite !Hrs1.
    destruct (decide (k < k)) as [|_]; [lia|].
    destruct (decide (k = k)) as [_|]; [|done].
    destruct (decide (S k < k)) as [|_]; [lia|].
    destruct (decide (S k = k)) as [|_]; [lia|].
    simpl. rewrite Nat.sub_0_r. unfold rs0.
    rewrite invalidate_before_lookup by done. by rewrite Hr_next.
  - intros j r_prev -> Hr_prev.
    unfold relink at 1. rewrite list_lookup_alter_ne by lia.
    assert (rs1 !! j = Some (LadderGraph.set_edges [] r_prev)) as Hj.
    { rewrite Hrs1. destruct (decide (j < S j)) as [_|]; [|lia].
      unfold rs0. simpl. by rewrite list_lookup_alter_eq, Hr_prev. }
    assert (rs1 !! S j = Some (rung_of robot point)) as HSj.
    { rewrite Hrs1. destruct (decide (S j < S j)) as [|_]; [lia|].
      by destruct (decide (S j = S j)). }
    unfold rs2. destruct (is_nil previous_id); simpl; [done|].
    rewrite Nat.sub_0_r. unfold relink. rewrite list_lookup_alter_eq, Hj, HSj. done.
Qed.

Lemma addTrajectory_links_new_rung_witness :
  exists pg' r_next,
    addTrajectory bounded_travel_robot None point_4 1%N 2%N three_rungs = Some (true, pg')
    /\ LadderGraph.rungs_ (graph_ three_rungs) !! 1 = Some r_next
    /\ LadderGraph.rungs_ (graph_ pg') !! 1
       = Some (LadderGraph.set_edges
                 (edge_block bounded_travel_robot None (getDOF bounded_travel_robot)
                    (rung_of bounded_travel_robot point_4) r_next)
                 (rung_of bounded_travel_robot point_4))
    /\ forall j r_prev,
         1 = S j ->
         LadderGraph.rungs_ (graph_ three_rungs) !! j = Some r_prev ->
         LadderGraph.rungs_ (graph_ pg') !! j
         = Some (LadderGraph.set_edges
                   (if is_nil 1%N then []
                    else edge_block bounded_travel_robot None
                           (getDOF bounded_travel_robot) r_prev
                           (rung_of bounded_travel_robot point_4))
                   r_prev).
Proof.
  apply (addTrajectory_links_new_rung bounded_travel_robot None point_4 1%N 2%N
           three_rungs 1).
  - split; [reflexivity|]. split; [simpl; lia|]. vm_compute. repeat constructor.
  - repeat constructor.
  - reflexivity.
  - reflexivity.
  - intros _. lia.
Defined.

(** *** Adding a rung and removing it again *)

Lemma find_id_first (wanted : ID) (rs : list LadderGraph.Rung) (i k : nat)
    (r : LadderGraph.Rung) :
  rs !! k = Some r -> LadderGraph.id r = wanted ->
  (forall j r', j < k -> rs !! j = Some r' -> LadderGraph.id r' <> wanted) ->
  LadderGraph.find_id wanted rs i = (i + k, true).
Proof.
  revert i k. induction rs as [|r0 rs IH]; intros i k Hk Hid Hbefore; [done|].
  destruct k as [|k].
  - simpl in Hk. injection Hk as ->. simpl. rewrite Hid, N.eqb_refl.
    by rewrite Nat.add_0_r.
  - simpl. destruct (N.eqb_spec (LadderGraph.id r0) wanted) as [Heq|_].
    { by destruct (Hbefore 0 r0 ltac:(lia) eq_refl). }
    rewrite (IH (S i) k); [f_equal; lia|done..|].
    intros j r' Hj Hr'. apply (Hbefore (S j) r'); [lia|done].
Qed.

Lemma added_rungs_lookup_other robot user (point : TrajectoryPt)
    (previous_id next_id : ID) (pos i : nat) (rs : list LadderGraph.Rung) :
  pos <= length rs -> i <> pos -> S i <> pos ->
  added_rungs robot user point previous_id next_id pos rs !! i
  = if decide (i < pos) then rs !! i else rs !! (i - 1).
Proof.
  intros Hpos Hi HSi. unfold added_rungs.
  rewrite !optional_relink_lookup_ne by (intros _; lia).
  rewrite spliced_lookup by (rewrite invalidate_before_length; lia).
  destruct (decide (i < pos)) as [Hlt|Hge].
  - destruct pos as [|k]; [lia|]. simpl. by rewrite list_lookup_alter_ne by lia.
  - destruct (decide (i = pos)) as [|_]; [done|].
    apply invalidate_before_lookup. lia.
Qed.

Lemma added_rungs_lookup_prev robot user (point : TrajectoryPt)
    (previous_id next_id : ID) (k : nat) (rs : list LadderGraph.Rung)
    (r : LadderGraph.Rung) :
  S k <= length rs -> rs !! k = Some r ->
  exists es,
    added_rungs robot user point previous_id next_id (S k) rs !! k
    = Some (LadderGraph.set_edges es r).
Proof.
  intros Hpos Hr. unfold added_rungs.
  rewrite (optional_relink_lookup_ne robot user _ (S k) k) by (intros _; lia).
  assert ((take (S k) (LadderGraph.invalidate_before (S k) rs)
           ++ rung_of robot point :: drop (S k) (LadderGraph.invalidate_before (S k) rs))
          !! k = Some (LadderGraph.set_edges [] r)) as Hk.
  { rewrite spliced_lookup by (rewrite invalidate_before_length; lia).
    destruct (decide (k < S k)) as [_|]; [|lia].
    simpl. by rewrite list_lookup_alter_eq, Hr. }
  destruct (negb (is_nil previous_id)).
  - simpl. rewrite Nat.sub_0_r. unfold relink.
    rewrite list_lookup_alter_eq. simpl in Hk. rewrite Hk. simpl. by eexists.
  - by eexists.
Qed.

Lemma added_then_removed robot user (point : TrajectoryPt) (previous_id next_id : ID)
    (pos : nat) (rs : list LadderGraph.Rung) :
  pos < length rs ->
  (forall j r_prev r_next,
     pos = S j -> rs !! j = Some r_prev -> rs !! S j = Some r_next ->
     LadderGraph.edges r_prev = edge_block robot user (getDOF robot) r_prev r_next) ->
  match pos with
  | O => delete 0 (added_rungs robot user point previous_id next_id pos rs)
  | S k => relink robot user k
             (delete (S k) (added_rungs robot user point previous_id next_id pos rs))
  end = rs.
Proof.
  intros Hpos Hconsistent. apply list_eq. intros j.
  destruct pos as [|k].
  - rewrite list_lookup_delete_ge by lia.
    rewrite added_rungs_lookup_other by lia.
    destruct (decide (S j < 0)) as [|_]; [lia|]. simpl. by rewrite Nat.sub_0_r.
  - destruct (lookup_lt_is_Some_2 rs k) as [r_prev Hr_prev]; [lia|].
    destruct (lookup_lt_is_Some_2 rs (S k)) as [r_next Hr_next]; [lia|].
    unfold relink. destruct (decide (k = j)) as [<-|Hne].
    + rewrite list_lookup_alter_eq.
      rewrite (list_lookup_delete_lt _ (S k) k) by lia.
      rewrite (list_lookup_delete_ge _ (S k) (S k)) by lia.
      rewrite (added_rungs_lookup_other _ _ _ _ _ (S k) (S (S k))) by lia.
      destruct (decide (S (S k) < S k)) as [|_]; [lia|]. simpl.
      rewrite Hr_next.
      destruct (added_rungs_lookup_prev robot user point previous_id next_id k rs r_prev)
        as [es ->]; [lia|done|].
      rewrite Hr_prev. cbn [fmap option_fmap option_map]. f_equal.
      transitivity (LadderGraph.set_edges (LadderGraph.edges r_prev) r_prev);
        [|by destruct r_prev].
      by rewrite (Hconsistent k r_prev r_next eq_refl Hr_prev Hr_next).
    + rewrite list_lookup_alter_ne by done.
      destruct (decide (j < S k)) as [Hlt|Hge].
      * rewrite list_lookup_delete_lt by lia.
        rewrite added_rungs_lookup_other by lia.
        by destruct (decide (j < S k)).
      * rewrite list_lookup_delete_ge by lia.
        rewrite added_rungs_lookup_other by lia.
        destruct (decide (S j < S k)) as [|_]; [lia|]. simpl.
        by rewrite Nat.sub_0_r.
Qed.

(** X18: adding a point and removing it again restores the graph. On a
    well-formed graph with at least one rung that does not yet carry the id
    of the point, [addTrajectory] followed by [removeTrajectory] of the same
    point both return [true] and leave the graph, rungs and edges, exactly
    as it was, provided the edge block out of the rung before the insertion
    index was the block that the builder computes towards its successor. *)
Theorem addTrajectory_then_removeTrajectory
    (robot : RobotModel) (user : option (list double -> list double -> double))
    (point : TrajectoryPt) (previous_id next_id : ID) (pg : PlanningGraph) :
  wf_graph robot (graph_ pg) ->
  dof_poses (getDOF robot) (getJointPoses point robot) ->
  0 < LadderGraph.size (graph_ pg) ->
  (is_nil previous_id = false -> 0 < insert_position (graph_ pg) next_id) ->
  (forall r, r ∈ LadderGraph.rungs_ (graph_ pg) -> LadderGraph.id r <> getID point) ->
  (forall j r_prev r_next,
     insert_position (graph_ pg) next_id = S j ->
     LadderGraph.rungs_ (graph_ pg) !! j = Some r_prev ->
     LadderGraph.rungs_ (graph_ pg) !! S j = Some r_next ->
     LadderGraph.edges r_prev = edge_block robot user (getDOF robot) r_prev r_next) ->
  exists pg1 pg2,
    addTrajectory robot user point previous_id next_id pg = Some (true, pg1)
    /\ removeTrajectory robot user point pg1 = Some (true, pg2)
    /\ graph_ pg2 = graph_ pg.
Proof.
  intros Hwf Hposes Hsize Hprev Hfresh Hconsistent.
  pose proof (insert_position_lt (graph_ pg) next_id Hsize) as Hlt.
  destruct (addTrajectory_layout robot user point previous_id next_id pg)
    as (checks & Hadd & _); try done.
  set (pos := insert_position (graph_ pg) next_id) in *.
  set (rs := LadderGraph.rungs_ (graph_ pg)) in *.
  set (rs' := added_rungs robot user point previous_id next_id pos rs) in *.
  set (pg1 := mkPlanningGraph _ _) in Hadd.
  unfold LadderGraph.size in Hlt. fold rs in Hlt.
  assert (wf_graph robot (graph_ pg1)) as Hwf1.
  { destruct Hwf as (Hdof & Hdofpos & Hflat). repeat split; [done..|].
    simpl. by apply added_rungs_flat. }
  pose proof (added_rungs_core robot user point previous_id next_id pos rs) as Hcore.
  fold rs' in Hcore.
  assert (forall j, (rung_core <$> rs') !! j
                    = if decide (j < pos) then rung_core <$> rs !! j
                      else if decide (j = pos) then Some (rung_core (rung_of robot point))
                           else rung_core <$> rs !! (j - 1)) as Hlookup.
  { intros j. rewrite Hcore, spliced_lookup by (rewrite length_fmap; lia).
    by rewrite !list_lookup_fmap. }
  assert (LadderGraph.indexOf (graph_ pg1) (getID point) = (pos, true)) as Hidx.
  { unfold LadderGraph.indexOf. simpl. fold rs'.
    pose proof (Hlookup pos) as Hnew.
    destruct (decide (pos < pos)) as [|_]; [lia|].
    destruct (decide (pos = pos)) as [_|]; [|done].
    rewrite list_lookup_fmap in Hnew.
    destruct (rs' !! pos) as [r_new|] eqn:Hr_new; [|done].
    simpl in Hnew. unfold rung_core in Hnew. injection Hnew as Hid _ _.
    apply (find_id_first (getID point) rs' 0 pos r_new Hr_new Hid).
    intros j r' Hj Hr'. pose proof (Hlookup j) as Hold.
    destruct (decide (j < pos)) as [_|]; [|lia].
    rewrite !list_lookup_fmap, Hr' in Hold.
    destruct (rs !! j) as [r|] eqn:Hr; [|done].
    simpl in Hold. unfold rung_core in Hold. injection Hold as -> _ _.
    apply Hfresh. by apply (list_elem_of_lookup_2 _ j). }
  eexists _, _. split; [exact Hadd|].
  rewrite (removeTrajectory_layout robot user point pg1 pos Hwf1 Hidx).
  split; [done|]. simpl. fold rs'. unfold rs'.
  rewrite (added_then_removed robot user point previous_id next_id pos rs Hlt Hconsistent).
  unfold LadderGraph.with_rungs, rs. simpl. by destruct (graph_ pg).
Qed.

Lemma addTrajectory_then_removeTrajectory_witness :
  exists pg1 pg2,
    addTrajectory bounded_travel_robot None point_4 1%N 2%N three_rungs = Some (true, pg1)
    /\ removeTrajectory bounded_travel_robot None point_4 pg1 = Some (true, pg2)
    /\ graph_ pg2 = graph_ three_rungs.
Proof.
  apply (addTrajectory_then_removeTrajectory bounded_travel_robot None point_4 1%N 2%N
           three_rungs).
  - split; [reflexivity|]. split; [simpl; lia|]. vm_compute. repeat constructor.
  - repeat constructor.
  - vm_compute. lia.
  - intros _. vm_compute. lia.
  - intros r Hr. vm_compute in Hr.
    repeat (apply elem_of_cons in Hr as [->|Hr]; [discriminate|]).
    by apply elem_of_nil in Hr.
  - intros j r_prev r_next Hj. vm_compute in Hj. injection Hj as <-.
    intros Hprev Hnext. vm_compute in Hprev, Hnext.
    injection Hprev as <-. injection Hnext as <-. vm_compute. reflexivity.
Defined.

(** * The graph invariant *)


Section Invariant.

Variable robot_model_ : RobotModel.
Variable custom_cost_function_ : option (list double -> list double -> double).

Local Abbreviation DOF := (getDOF robot_model_).
Local Abbreviation wf := (wf_graph robot_model_).















End Invariant.



(** * Edge cases of [addTrajectory] *)

(** X20: [addTrajectory] on a planner that holds no rung has no defined
    result: no id is found, the insertion index is [size() - 1], which wraps
    around to [SIZE_MAX], and [insertRung] is asked for a position far
    outside the graph. *)
Theorem addTrajectory_empty_graph
    (robot : RobotModel) (user : option (list double -> list double -> double))
    (point : TrajectoryPt) (previous_id next_id : ID) (pg : PlanningGraph) :
  LadderGraph.rungs_ (graph_ pg) = [] ->
  addTrajectory robot user point previous_id next_id pg = None.
Proof.
  intros Hempty. unfold addTrajectory.
  destruct (calculateJointSolutions_single robot point (oracle_log pg)) as [ok ->].
  unfold LadderGraph.indexOf, LadderGraph.insertRung, LadderGraph.size.
  rewrite Hempty. cbn [LadderGraph.find_id snd length size_pred].
  destruct (decide _) as [Hle|]; [|done]. exfalso.
  apply Nat.le_0_r in Hle.
  assert (N.of_nat (N.to_nat 18446744073709551615) = N.of_nat 0) as Hback
    by (by rewrite Hle).
  rewrite N2Nat.id in Hback. discriminate Hback.
Qed.

Lemma addTrajectory_empty_graph_witness :
  addTrajectory bounded_travel_robot None point_1 0%N 0%N
    (new_PlanningGraph bounded_travel_robot) = None.
Proof.
  apply (addTrajectory_empty_graph bounded_travel_robot None point_1 0%N 0%N
           (new_PlanningGraph bounded_travel_robot)).
  reflexivity.
Defined.

(** X21: on every well-formed graph with at least one rung, [addTrajectory]
    with a [next_id] that no rung carries returns [true] and puts the new
    rung at index [size() - 1]: the rung that was last is still the last one,
    behind the new rung, and, [next_id] being nil, the new rung holds no
    edge towards it. *)
Theorem addTrajectory_absent_next_second_to_last
    (robot : RobotModel) (user : option (list double -> list double -> double))
    (point : TrajectoryPt) (previous_id next_id : ID) (pg : PlanningGraph)
    (r_last : LadderGraph.Rung) :
  wf_graph robot (graph_ pg) ->
  dof_poses (getDOF robot) (getJointPoses point robot) ->
  (forall r, r ∈ LadderGraph.rungs_ (graph_ pg) -> LadderGraph.id r <> next_id) ->
  last (LadderGraph.rungs_ (graph_ pg)) = Some r_last ->
  (is_nil previous_id = false -> 1 < LadderGraph.size (graph_ pg)) ->
  exists pg' es,
    addTrajectory robot user point previous_id next_id pg = Some (true, pg')
    /\ LadderGraph.size (graph_ pg') = S (LadderGraph.size (graph_ pg))
    /\ LadderGraph.rungs_ (graph_ pg') !! (LadderGraph.size (graph_ pg) - 1)
       = Some (LadderGraph.set_edges es (rung_of robot point))
    /\ (is_nil next_id = true -> es = [])
    /\ last (LadderGraph.rungs_ (graph_ pg')) = Some r_last.
Proof.
  intros Hwf Hposes Habsent Hlast Hprev.
  set (rs := LadderGraph.rungs_ (graph_ pg)) in *.
  assert (0 < length rs) as Hsize by (destruct rs; [done|simpl; lia]).
  assert (insert_position (graph_ pg) next_id = length rs - 1) as Hpos.
  { unfold insert_position, LadderGraph.indexOf. fold rs.
    rewrite (find_id_absent next_id rs 0 Habsent). simpl.
    unfold LadderGraph.size. fold rs. destruct (length rs); [lia|simpl; lia]. }
  unfold LadderGraph.size in *. fold rs in Hprev |- *.
  destruct (addTrajectory_layout robot user point previous_id next_id pg)
    as (checks & -> & _); try done.
  { rewrite Hpos. intros Hnil. specialize (Hprev Hnil). lia. }
  rewrite Hpos. fold rs. set (pos := length rs - 1).
  pose proof (added_rungs_core robot user point previous_id next_id pos rs) as Hcore.
  assert (length (added_rungs robot user point previous_id next_id pos rs)
          = S (length rs)) as Hlen.
  { rewrite <- (length_fmap rung_core), Hcore, length_app, length_take, length_fmap.
    simpl. rewrite length_drop, length_fmap. lia. }
  assert (exists es,
            added_rungs robot user point previous_id next_id pos rs !! pos
            = Some (LadderGraph.set_edges es (rung_of robot point))
            /\ (is_nil next_id = true -> es = [])) as (es & Hnew & Hes).
  { unfold added_rungs.
    set (rs0 := LadderGraph.invalidate_before pos rs).
    set (rs1 := take pos rs0 ++ rung_of robot point :: drop pos rs0).
    assert (rs1 !! pos = Some (rung_of robot point)) as Hrs1.
    { unfold rs1. rewrite spliced_lookup
        by (unfold rs0; rewrite invalidate_before_length; lia).
      destruct (decide (pos < pos)) as [|_]; [lia|]. by destruct (decide (pos = pos)). }
    set (rs2 := if negb (is_nil previous_id) then relink robot user (pos - 1) rs1 else rs1).
    assert (rs2 !! pos = Some (rung_of robot point)) as Hrs2.
    { unfold rs2. rewrite optional_relink_lookup_ne; [done|].
      intros Hb. apply negb_true_iff in Hb. specialize (Hprev Hb). lia. }
    destruct (is_nil next_id); simpl.
    - exists []. by rewrite Hrs2.
    - unfold relink. rewrite list_lookup_alter_eq, Hrs2. simpl.
      eexists. split; [done|]. intros Hnil. discriminate Hnil. }
  eexists _, es. split; [done|]. simpl. split; [done|]. split; [done|].
  split; [done|].
  rewrite last_lookup, Hlen. simpl.
  rewrite added_rungs_lookup_other by lia.
  destruct (decide (length rs < pos)) as [|_]; [lia|].
  by rewrite <- Hlast, last_lookup, Nat.sub_1_r.
Qed.

Lemma addTrajectory_absent_next_second_to_last_witness :
  exists pg' es,
    addTrajectory bounded_travel_robot None point_4 5%N 0%N five_rungs = Some (true, pg')
    /\ LadderGraph.size (graph_ pg') = S (LadderGraph.size (graph_ five_rungs))
    /\ LadderGraph.rungs_ (graph_ pg') !! (LadderGraph.size (graph_ five_rungs) - 1)
       = Some (LadderGraph.set_edges es (rung_of bounded_travel_robot point_4))
    /\ (is_nil 0%N = true -> es = [])
    /\ last (LadderGraph.rungs_ (graph_ pg'))
       = Some (LadderGraph.mkRung 5%N free_timing [1%float; 2%float] []).
Proof.
  apply (addTrajectory_absent_next_second_to_last bounded_travel_robot None point_4
           5%N 0%N five_rungs).
  - split; [reflexivity|]. split; [simpl; lia|]. vm_compute. repeat constructor.
  - repeat constructor.
  - intros r Hr. vm_compute in Hr.
    repeat (apply elem_of_cons in Hr as [->|Hr]; [discriminate|]).
    by apply elem_of_nil in Hr.
  - vm_compute. reflexivity.
  - intros _. vm_compute. lia.
Defined.

(** * Incremental edits against a rebuild *)

Lemma link_rungs_lookup_all robot user (rs : list LadderGraph.Rung) (j : nat) :
  link_rungs robot user rs !! j
  = (fun r => LadderGraph.set_edges
                (match rs !! S j with
                 | Some r_next => edge_block robot user (getDOF robot) r r_next
                 | None => LadderGraph.edges r
                 end) r) <$> rs !! j.
Proof.
  destruct (rs !! j) as [r|] eqn:Hr.
  - by rewrite (link_rungs_lookup robot user rs j r Hr).
  - apply lookup_ge_None. rewrite link_rungs_length. by apply lookup_ge_None.
Qed.

(** Lookup in the ladder that [insertGraph] builds. *)
Lemma ladder_lookup robot user (points : list TrajectoryPt) (j : nat) :
  link_rungs robot user (rung_of robot <$> points) !! j
  = (fun point =>
       LadderGraph.set_edges
         (match points !! S j with
          | Some point_next =>
              edge_block robot user (getDOF robot) (rung_of robot point)
                (rung_of robot point_next)
          | None => []
          end) (rung_of robot point)) <$> points !! j.
Proof.
  rewrite link_rungs_lookup_all, !list_lookup_fmap.
  destruct (points !! j) as [point|]; [|done]. simpl.
  by destruct (points !! S j).
Qed.

Lemma ladder_length robot user (points : list TrajectoryPt) :
  length (link_rungs robot user (rung_of robot <$> points)) = length points.
Proof. by rewrite link_rungs_length, length_fmap. Qed.

Lemma ladder_indexOf robot user (points : list TrajectoryPt) (i : nat)
    (point : TrajectoryPt) :
  NoDup (getID <$> points) ->
  points !! i = Some point ->
  LadderGraph.find_id (getID point) (link_rungs robot user (rung_of robot <$> points)) 0
  = (i, true).
Proof.
  intros Hdistinct Hi.
  assert (forall j, LadderGraph.id
                      <$> link_rungs robot user (rung_of robot <$> points) !! j
                    = getID <$> points !! j) as Hids.
  { intros j. rewrite ladder_lookup. by destruct (points !! j). }
  pose proof (Hids i) as Hid. rewrite Hi in Hid.
  destruct (link_rungs _ _ _ !! i) as [r|] eqn:Hr; [|done].
  simpl in Hid. injection Hid as Hid.
  apply (find_id_first (getID point) _ 0 i r Hr Hid).
  intros j r' Hj Hr' Hsame. pose proof (Hids j) as Hidj. rewrite Hr' in Hidj.
  simpl in Hidj. rewrite Hsame in Hidj.
  assert (j = i); [|lia].
  apply (NoDup_lookup (getID <$> points) j i (getID point) Hdistinct).
  - by rewrite list_lookup_fmap.
  - by rewrite list_lookup_fmap, Hi.
Qed.

Lemma ladder_flat robot user (points : list TrajectoryPt) :
  Forall (solvable robot) points ->
  Forall (flat_rung (getDOF robot)) (link_rungs robot user (rung_of robot <$> points)).
Proof.
  intros Hsolv. apply link_rungs_flat, Forall_fmap.
  eapply Forall_impl; [exact Hsolv|]. intros p [_ Hp]. by apply solvable_flat.
Qed.

Lemma modified_ladder robot user (points : list TrajectoryPt) (point : TrajectoryPt)
    (i : nat) :
  i < length points ->
  modified_rungs robot user point i (link_rungs robot user (rung_of robot <$> points))
  = link_rungs robot user (rung_of robot <$> <[i := point]> points).
Proof.
  intros Hi. apply list_eq. intros j.
  rewrite modified_rungs_lookup by (by rewrite ladder_length).
  rewrite !ladder_lookup.
  destruct (decide (j = i)) as [->|Hne].
  - rewrite (list_lookup_insert_eq points i) by done.
    rewrite (list_lookup_insert_ne points i (S i)) by lia. simpl.
    by destruct (points !! S i).
  - destruct (decide (S j = i)) as [<-|Hne'].
    + rewrite (list_lookup_insert_ne points (S j) j) by lia.
      rewrite (list_lookup_insert_eq points (S j)) by done.
      by destruct (points !! j).
    + rewrite (list_lookup_insert_ne points i j) by lia.
      by rewrite (list_lookup_insert_ne points i (S j)) by lia.
Qed.

(** X22: modifying a point after [insertGraph] gives the graph that
    [insertGraph] builds from the modified list of points: for points with
    pairwise distinct ids, [insertGraph] followed by [modifyTrajectory] with a
    point that has the id of the [i]-th point leaves exactly the graph, rungs
    and edges, that [insertGraph] leaves on the list in which that point has
    taken the place of the [i]-th one. *)
Theorem insertGraph_then_modifyTrajectory
    (robot : RobotModel) (user : option (list double -> list double -> double))
    (points : list TrajectoryPt) (point old : TrajectoryPt) (i : nat)
    (pg : PlanningGraph) :
  2 <= length points ->
  LadderGraph.dof_ (graph_ pg) = getDOF robot -> 0 < getDOF robot ->
  Forall (solvable robot) points ->
  NoDup (getID <$> points) ->
  points !! i = Some old -> getID point = getID old ->
  solvable robot point ->
  exists pg1 pg2 pg3,
    insertGraph robot user points pg = Some (true, pg1)
    /\ modifyTrajectory robot user point pg1 = Some (true, pg2)
    /\ insertGraph robot user (<[i := point]> points) pg = Some (true, pg3)
    /\ graph_ pg2 = graph_ pg3.
Proof.
  intros Hlen Hdof Hpos Hsolv Hdistinct Hold Hid [Hsome Hposes].
  pose proof (lookup_lt_Some _ _ _ Hold) as Hi.
  rewrite (insertGraph_layout robot user points pg Hlen Hdof Hpos Hsolv).
  rewrite (insertGraph_layout robot user (<[i := point]> points) pg);
    [|by rewrite length_insert|done..|by apply Forall_insert].
  set (pg1 := mkPlanningGraph _ _).
  destruct (modifyTrajectory_layout robot user point pg1 i) as (checks & Hmodify & _).
  - repeat split; [done..|]. by apply ladder_flat.
  - rewrite Hid. by apply ladder_indexOf.
  - done.
  - eexists pg1, _, _. split; [done|]. split; [exact Hmodify|]. split; [done|].
    simpl. unfold LadderGraph.with_rungs. simpl. by rewrite modified_ladder.
Qed.

Lemma insertGraph_then_modifyTrajectory_witness :
  exists pg1 pg2 pg3,
    insertGraph bounded_travel_robot None [point_1; point_2; point_3]
      (new_PlanningGraph bounded_travel_robot) = Some (true, pg1)
    /\ modifyTrajectory bounded_travel_robot None
         (fixed_point 2%N (mkTiming true 6%float) [[4%float]; [6%float]]) pg1
       = Some (true, pg2)
    /\ insertGraph bounded_travel_robot None
         (<[1 := fixed_point 2%N (mkTiming true 6%float) [[4%float]; [6%float]]]>
            [point_1; point_2; point_3])
         (new_PlanningGraph bounded_travel_robot) = Some (true, pg3)
    /\ graph_ pg2 = graph_ pg3.
Proof.
  apply (insertGraph_then_modifyTrajectory bounded_travel_robot None
           [point_1; point_2; point_3]
           (fixed_point 2%N (mkTiming true 6%float) [[4%float]; [6%float]])
           point_2 1 (new_PlanningGraph bounded_travel_robot)).
  - simpl. lia.
  - reflexivity.
  - simpl. lia.
  - repeat constructor; discriminate.
  - apply (bool_decide_unpack _). vm_compute. reflexivity.
  - reflexivity.
  - reflexivity.
  - repeat constructor; discriminate.
Defined.

Lemma removed_ladder robot user (points : list TrajectoryPt) (i : nat) :
  i < length points ->
  match i with
  | O => delete 0 (link_rungs robot user (rung_of robot <$> points))
  | S k => relink robot user k
             (delete (S k) (link_rungs robot user (rung_of robot <$> points)))
  end
  = link_rungs robot user (rung_of robot <$> delete i points).
Proof.
  intros Hi. apply list_eq. intros j. rewrite (ladder_lookup robot user (delete i points)).
  destruct i as [|k].
  - rewrite list_lookup_delete_ge by lia. rewrite ladder_lookup.
    rewrite (list_lookup_delete_ge points 0 j) by lia.
    by rewrite (list_lookup_delete_ge points 0 (S j)) by lia.
  - set (L := link_rungs robot user (rung_of robot <$> points)).
    unfold relink. destruct (decide (k = j)) as [<-|Hne].
    + rewrite list_lookup_alter_eq.
      rewrite (list_lookup_delete_lt L (S k) k) by lia.
      rewrite (list_lookup_delete_ge L (S k) (S k)) by lia.
      rewrite (list_lookup_delete_lt points (S k) k) by lia.
      rewrite (list_lookup_delete_ge points (S k) (S k)) by lia.
      unfold L. rewrite !ladder_lookup.
      destruct (points !! k); [|done]. simpl.
      by destruct (points !! S (S k)).
    + rewrite list_lookup_alter_ne by done.
      destruct (decide (j < k)) as [Hlt|Hge].
      * rewrite (list_lookup_delete_lt L (S k) j) by lia.
        rewrite (list_lookup_delete_lt points (S k) j) by lia.
        rewrite (list_lookup_delete_lt points (S k) (S j)) by lia.
        apply ladder_lookup.
      * rewrite (list_lookup_delete_ge L (S k) j) by lia.
        rewrite (list_lookup_delete_ge points (S k) j) by lia.
        rewrite (list_lookup_delete_ge points (S k) (S j)) by lia.
        apply ladder_lookup.
Qed.

(** X23: removing a point after [insertGraph] gives the graph that
    [insertGraph] builds without that point: for at least three points with
    pairwise distinct ids, [insertGraph] followed by [removeTrajectory] of the
    [i]-th point leaves exactly the graph, rungs and edges, that
    [insertGraph] leaves on the list without its [i]-th point. *)
Theorem insertGraph_then_removeTrajectory
    (robot : RobotModel) (user : option (list double -> list double -> double))
    (points : list TrajectoryPt) (point : TrajectoryPt) (i : nat)
    (pg : PlanningGraph) :
  3 <= length points ->
  LadderGraph.dof_ (graph_ pg) = getDOF robot -> 0 < getDOF robot ->
  Forall (solvable robot) points ->
  NoDup (getID <$> points) ->
  points !! i = Some point ->
  exists pg1 pg2 pg3,
    insertGraph robot user points pg = Some (true, pg1)
    /\ removeTrajectory robot user point pg1 = Some (true, pg2)
    /\ insertGraph robot user (delete i points) pg = Some (true, pg3)
    /\ graph_ pg2 = graph_ pg3.
Proof.
  intros Hlen Hdof Hpos Hsolv Hdistinct Hpoint.
  pose proof (lookup_lt_Some _ _ _ Hpoint) as Hi.
  rewrite (insertGraph_layout robot user points pg) by (done || lia).
  rewrite (insertGraph_layout robot user (delete i points) pg);
    [|rewrite length_delete by done; lia|done..|].
  2:{ rewrite delete_take_drop. apply Forall_app.
      split; [by apply Forall_take|by apply Forall_drop]. }
  set (pg1 := mkPlanningGraph _ _).
  assert (wf_graph robot (graph_ pg1)) as Hwf1
    by (repeat split; [done..|]; by apply ladder_flat).
  assert (LadderGraph.indexOf (graph_ pg1) (getID point) = (i, true)) as Hidx
    by (by apply ladder_indexOf).
  eexists pg1, _, _. split; [done|].
  split; [exact (removeTrajectory_layout robot user point pg1 i Hwf1 Hidx)|].
  split; [done|]. simpl. unfold LadderGraph.with_rungs. simpl.
  by rewrite (removed_ladder robot user points i Hi).
Qed.

Lemma insertGraph_then_removeTrajectory_witness :
  exists pg1 pg2 pg3,
    insertGraph bounded_travel_robot None [point_1; point_2; point_3; point_4]
      (new_PlanningGraph bounded_travel_robot) = Some (true, pg1)
    /\ removeTrajectory bounded_travel_robot None point_2 pg1 = Some (true, pg2)
    /\ insertGraph bounded_travel_robot None
         (delete 1 [point_1; point_2; point_3; point_4])
         (new_PlanningGraph bounded_travel_robot) = Some (true, pg3)
    /\ graph_ pg2 = graph_ pg3.
Proof.
  apply (insertGraph_then_removeTrajectory bounded_travel_robot None
           [point_1; point_2; point_3; point_4] point_2 1
           (new_PlanningGraph bounded_travel_robot)).
  - simpl. lia.
  - reflexivity.
  - simpl. lia.
  - repeat constructor; discriminate.
  - apply (bool_decide_unpack _). vm_compute. reflexivity.
  - reflexivity.
Defined.

Lemma added_ladder robot user (points : list TrajectoryPt) (point : TrajectoryPt)
    (previous_id next_id : ID) (k : nat) :
  k < length points ->
  is_nil next_id = false ->
  (k = 0 -> is_nil previous_id = true) ->
  (0 < k -> is_nil previous_id = false) ->
  added_rungs robot user point previous_id next_id k
    (link_rungs robot user (rung_of robot <$> points))
  = link_rungs robot user (rung_of robot <$> (take k points ++ point :: drop k points)).
Proof.
  intros Hk Hnext Hfirst Hinner. apply list_eq. intros j.
  set (L := link_rungs robot user (rung_of robot <$> points)).
  assert (length L = length points) as HL by apply ladder_length.
  rewrite ladder_lookup, !spliced_lookup by lia.
  destruct (decide (j = k)) as [->|Hjk].
  - (* the new rung *)
    destruct (decide (k < k)) as [|_]; [lia|].
    destruct (decide (k = k)) as [_|]; [|done].
    destruct (decide (S k < k)) as [|_]; [lia|].
    destruct (decide (S k = k)) as [|_]; [lia|]. simpl. rewrite Nat.sub_0_r.
    unfold added_rungs. rewrite Hnext. simpl negb. cbv iota.
    unfold relink at 1. rewrite list_lookup_alter_eq.
    rewrite !optional_relink_lookup_ne
      by (intros Hb; destruct k; [by rewrite Hfirst in Hb|lia]).
    rewrite !spliced_lookup by (rewrite invalidate_before_length; lia).
    destruct (decide (k < k)) as [|_]; [lia|].
    destruct (decide (k = k)) as [_|]; [|done].
    destruct (decide (S k < k)) as [|_]; [lia|].
    destruct (decide (S k = k)) as [|_]; [lia|]. simpl. rewrite Nat.sub_0_r.
    rewrite invalidate_before_lookup by done. unfold L. rewrite ladder_lookup.
    by destruct (points !! k).
  - destruct (decide (S j = k)) as [<-|HSjk].
    + (* the rung before the new one *)
      destruct (decide (j < S j)) as [_|]; [|lia].
      destruct (decide (S j < S j)) as [|_]; [lia|].
      destruct (decide (S j = S j)) as [_|]; [|done].
      unfold added_rungs. rewrite Hnext, Hinner by lia. simpl negb. cbv iota.
      unfold relink at 1. rewrite list_lookup_alter_ne by lia.
      simpl. rewrite Nat.sub_0_r. unfold relink. rewrite list_lookup_alter_eq.
      rewrite !spliced_lookup by (rewrite length_alter; lia).
      destruct (decide (j < S j)) as [_|]; [|lia].
      destruct (decide (S j < S j)) as [|_]; [lia|].
      destruct (decide (S j = S j)) as [_|]; [|done].
      rewrite list_lookup_alter_eq. unfold L. rewrite ladder_lookup.
      by destruct (points !! j).
    + rewrite added_rungs_lookup_other by lia.
      destruct (decide (j < k)) as [Hlt|Hge].
      * destruct (decide (S j < k)) as [_|]; [|lia].
        apply ladder_lookup.
      * destruct (decide (S j < k)) as [|_]; [lia|].
        destruct (decide (S j = k)) as [|_]; [lia|].
        unfold L. rewrite ladder_lookup. simpl. rewrite Nat.sub_0_r.
        destruct j as [|j']; [lia|]. simpl. by rewrite Nat.sub_0_r.
Qed.

(** X24: adding a point after [insertGraph] gives the graph that
    [insertGraph] builds with that point in place: for points with pairwise
    distinct ids, [insertGraph] followed by [addTrajectory] with the non-nil
    id of the [k]-th point as [next_id], and with a previous id exactly when
    [k] is not 0, leaves exactly the graph, rungs and edges, that
    [insertGraph] leaves on the list with the new point put before its
    [k]-th point. *)
Theorem insertGraph_then_addTrajectory
    (robot : RobotModel) (user : option (list double -> list double -> double))
    (points : list TrajectoryPt) (point next : TrajectoryPt)
    (previous_id : ID) (k : nat) (pg : PlanningGraph) :
  2 <= length points ->
  LadderGraph.dof_ (graph_ pg) = getDOF robot -> 0 < getDOF robot ->
  Forall (solvable robot) points ->
  NoDup (getID <$> points) ->
  solvable robot point ->
  points !! k = Some next -> is_nil (getID next) = false ->
  (k = 0 -> is_nil previous_id = true) ->
  (0 < k -> is_nil previous_id = false) ->
  exists pg1 pg2 pg3,
    insertGraph robot user points pg = Some (true, pg1)
    /\ addTrajectory robot user point previous_id (getID next) pg1 = Some (true, pg2)
    /\ insertGraph robot user (take k points ++ point :: drop k points) pg
       = Some (true, pg3)
    /\ graph_ pg2 = graph_ pg3.
Proof.
  intros Hlen Hdof Hpos Hsolv Hdistinct [Hsome Hposes] Hnext Hnil Hfirst Hinner.
  pose proof (lookup_lt_Some _ _ _ Hnext) as Hk.
  rewrite (insertGraph_layout robot user points pg) by done.
  rewrite (insertGraph_layout robot user (take k points ++ point :: drop k points) pg);
    [|rewrite length_app, length_take; simpl; rewrite length_drop; lia|done..|].
  2:{ apply Forall_app. split; [by apply Forall_take|].
      apply Forall_cons. split; [done|by apply Forall_drop]. }
  set (pg1 := mkPlanningGraph _ _).
  assert (wf_graph robot (graph_ pg1)) as Hwf1
    by (repeat split; [done..|]; by apply ladder_flat).
  assert (LadderGraph.indexOf (graph_ pg1) (getID next) = (k, true)) as Hidx
    by (by apply ladder_indexOf).
  assert (insert_position (graph_ pg1) (getID next) = k) as Hposition
    by (unfold insert_position; by rewrite Hidx).
  destruct (addTrajectory_layout robot user point previous_id (getID next) pg1)
    as (checks & Hadd & _); try done.
  { unfold LadderGraph.size. simpl. rewrite ladder_length. lia. }
  { rewrite Hposition. intros Hgiven. destruct k; [|lia].
    by rewrite Hfirst in Hgiven. }
  eexists pg1, _, _. split; [done|]. split; [exact Hadd|]. split; [done|].
  rewrite Hposition. simpl. unfold LadderGraph.with_rungs. simpl.
  by rewrite (added_ladder robot user points point previous_id (getID next) k).
Qed.

Lemma insertGraph_then_addTrajectory_witness :
  exists pg1 pg2 pg3,
    insertGraph bounded_travel_robot None [point_1; point_2; point_3]
      (new_PlanningGraph bounded_travel_robot) = Some (true, pg1)
    /\ addTrajectory bounded_travel_robot None point_4 1%N (getID point_2) pg1
       = Some (true, pg2)
    /\ insertGraph bounded_travel_robot None
         (take 1 [point_1; point_2; point_3] ++ point_4 :: drop 1 [point_1; point_2; point_3])
         (new_PlanningGraph bounded_travel_robot) = Some (true, pg3)
    /\ graph_ pg2 = graph_ pg3.
Proof.
  apply (insertGraph_then_addTrajectory bounded_travel_robot None
           [point_1; point_2; point_3] point_4 point_2 1%N 1
           (new_PlanningGraph bounded_travel_robot)).
  - simpl. lia.
  - reflexivity.
  - simpl. lia.
  - repeat constructor; discriminate.
  - apply (bool_decide_unpack _). vm_compute. reflexivity.
  - repeat constructor; discriminate.
  - reflexivity.
  - reflexivity.
  - intros Hk. discriminate Hk.
  - intros _. reflexivity.
Defined.

(** * The lemniscate benchmark trajectory *)

Lemma for_each_app {S A : Type} (body : A -> S -> option S) (xs ys : list A) (s : S) :
  for_each body (xs ++ ys) s = for_each body xs s ≫= for_each body ys.
Proof.
  revert s. induction xs as [|x xs IH]; intros s; [done|].
  simpl. destruct (body x s) as [s'|]; [apply IH|done].
Qed.

Section LemniscateVectors.

Import Lemniscate.

(** A loop that writes [f i] at index [off + i] for [i < count]. *)
Lemma write_loop_spec (idx : nat -> Z) (f : nat -> double) (off count : nat)
    (vec : list double) :
  (forall i, idx i = Z.of_nat (off + i)) ->
  off + count <= length vec ->
  exists vec',
    for_each (fun i vec => write_at (idx i) (f i) vec) (seq 0 count) vec = Some vec'
    /\ length vec' = length vec
    /\ forall j, vec' !! j
                 = if decide (off <= j < off + count) then Some (f (j - off))
                   else vec !! j.
Proof.
  intros Hidx. induction count as [|c IH]; intros Hlen.
  - exists vec. split; [done|]. split; [done|]. intros j.
    destruct (decide _) as [Hj|]; [lia|done].
  - destruct IH as (vec1 & Hrun & Hlen1 & Hlookup1); [lia|].
    rewrite seq_S, for_each_app, Hrun. simpl.
    unfold write_at. rewrite Hidx, Hlen1.
    destruct (decide _) as [_|Hout]; [|lia].
    rewrite Nat2Z.id. eexists. split; [done|].
    split; [by rewrite length_insert|]. intros j.
    rewrite list_lookup_insert, Hlookup1, Hlen1.
    destruct (decide (off + c = j ∧ off + c < length vec)) as [[<- _]|Hne].
    + destruct (decide _) as [_|]; [|lia]. do 2 f_equal. lia.
    + destruct (decide (off <= j < off + c)) as [Hj|Hj];
        destruct (decide (off <= j < off + S c)) as [Hj'|Hj']; try done; lia.
Qed.

Lemma shift_up_spec (k : nat) (x : double) (vec : list double) :
  vec !! k = Some x ->
  shift_up (Z.of_nat k) vec = Some (<[k := (x + EPSILON)%float]> vec).
Proof.
  intros Hk. pose proof (lookup_lt_Some _ _ _ Hk) as Hlt.
  unfold shift_up, read_at, write_at.
  destruct (decide (0 <= Z.of_nat k)%Z) as [_|]; [|lia].
  rewrite Nat2Z.id, Hk. simpl.
  by destruct (decide _) as [_|]; [|lia].
Qed.

Lemma shift_down_spec (k : nat) (x : double) (vec : list double) :
  vec !! k = Some x ->
  shift_down (Z.of_nat k) vec = Some (<[k := (x - EPSILON)%float]> vec).
Proof.
  intros Hk. pose proof (lookup_lt_Some _ _ _ Hk) as Hlt.
  unfold shift_down, read_at, write_at.
  destruct (decide (0 <= Z.of_nat k)%Z) as [_|]; [|lia].
  rewrite Nat2Z.id, Hk. simpl.
  by destruct (decide _) as [_|]; [|lia].
Qed.

(** The vector [omega]. *)
Lemma omega_values_spec (nlemns : Z) :
  omega_values nlemns
  = Some ((fun j => (of_count (Z.of_nat j) * d_omega nlemns)%float)
            <$> seq 0 (Z.to_nat nlemns)).
Proof.
  unfold omega_values. set (n := Z.to_nat nlemns).
  destruct (write_loop_spec Z.of_nat
              (fun j => (of_count (Z.of_nat j) * d_omega nlemns)%float) 0 n
              (replicate n 0%float))
    as (vec & Hrun & Hlen & Hlookup); [done|by rewrite length_replicate|].
  cbv beta in Hrun. rewrite Hrun.
  f_equal. apply list_eq. intros j. rewrite Hlookup, list_lookup_fmap.
  destruct (decide _) as [Hj|Hj].
  - rewrite lookup_seq_lt by lia. simpl. by rewrite Nat.sub_0_r.
  - rewrite lookup_seq_ge by lia. simpl. apply lookup_replicate_None. lia.
Qed.

(** The vector [theta]. *)
Lemma theta_values_spec (npoints : Z) :
  (10 <= npoints)%Z ->
  exists theta,
    theta_values npoints = Some theta
    /\ length theta = Z.to_nat npoints
    /\ forall j, j < Z.to_nat npoints -> theta !! j = Some (theta_at npoints j).
Proof.
  intros Hpoints. unfold theta_values.
  set (n := Z.to_nat npoints). set (h := Z.to_nat (npoints ÷ 2)).
  assert (npoints ÷ 2 = Z.of_nat h)%Z as Hhalf
    by (unfold h; rewrite Z2Nat.id; [done|apply Z.quot_pos; lia]).
  assert (5 <= h /\ 2 * h <= n /\ n <= 2 * h + 1) as (Hh5 & Hh2 & Hh3).
  { unfold h, n. rewrite Z.quot_div_nonneg by lia.
    pose proof (Z.div_mod npoints 2 ltac:(lia)) as Hdm.
    pose proof (Z.mod_pos_bound npoints 2 ltac:(lia)) as Hbound.
    assert (0 <= npoints / 2)%Z by (apply Z.div_pos; lia). lia. }
  rewrite Hhalf.
  set (first := fun i : nat =>
                  (- M_PI_4 + of_count (Z.of_nat i) * d_theta npoints)%float).
  set (second := fun i : nat =>
                   (3 * M_PI_4 + of_count (Z.of_nat i) * d_theta npoints)%float).
  destruct (write_loop_spec Z.of_nat first 0 h (replicate n 0%float))
    as (th1 & Hrun1 & Hlen1 & Hlookup1); [done|rewrite length_replicate; lia|].
  unfold first in Hrun1. cbv beta in Hrun1. rewrite Hrun1. clear Hrun1.
  rewrite length_replicate in Hlen1. cbn [mbind option_bind].
  assert (forall j, j < n -> th1 !! j = Some (if decide (j < h) then first j else 0%float))
    as Hth1.
  { intros j Hj. rewrite Hlookup1. destruct (decide (0 <= j < 0 + h)) as [Hin|Hout].
    - destruct (decide (j < h)) as [_|]; [|lia]. by rewrite Nat.sub_0_r.
    - destruct (decide (j < h)) as [|_]; [lia|]. by apply lookup_replicate_2. }
  change 0%Z with (Z.of_nat 0).
  rewrite (shift_up_spec 0 (first O) th1)
    by (rewrite Hth1 by lia; by destruct (decide (0 < h)); [|lia]).
  cbn [mbind option_bind].
  set (th2 := <[0 := (first O + EPSILON)%float]> th1).
  replace (Z.of_nat h - 1)%Z with (Z.of_nat (h - 1)) by lia.
  rewrite (shift_down_spec (h - 1) (first (h - 1)%nat) th2).
  2:{ unfold th2. rewrite list_lookup_insert_ne by lia. rewrite Hth1 by lia.
      by destruct (decide (h - 1 < h)); [|lia]. }
  cbn [mbind option_bind].
  set (th3 := <[h - 1 := (first (h - 1)%nat - EPSILON)%float]> th2).
  assert (length th3 = n) as Hlen3 by (unfold th3, th2; by rewrite !length_insert).
  destruct (write_loop_spec (fun i => (Z.of_nat h + Z.of_nat i)%Z) second h h th3)
    as (th4 & Hrun4 & Hlen4 & Hlookup4); [intros i; lia|lia|].
  unfold second in Hrun4. cbv beta in Hrun4. rewrite Hrun4. clear Hrun4.
  cbn [mbind option_bind].
  rewrite (shift_up_spec h (second O) th4).
  2:{ rewrite Hlookup4. destruct (decide (h <= h < h + h)) as [_|]; [|lia].
      by rewrite Nat.sub_diag. }
  cbn [mbind option_bind].
  set (th5 := <[h := (second O + EPSILON)%float]> th4).
  set (written := fun j => if decide (j < 2 * h) then second (j - h) else 0%float).
  replace (npoints - 1)%Z with (Z.of_nat (n - 1)) by (unfold n; lia).
  rewrite (shift_down_spec (n - 1) (written (n - 1)%nat) th5).
  2:{ unfold th5. rewrite list_lookup_insert_ne by lia. rewrite Hlookup4.
      unfold written.
      destruct (decide (h <= n - 1 < h + h)) as [Hin|Hout].
      - by destruct (decide (n - 1 < 2 * h)); [|lia].
      - destruct (decide (n - 1 < 2 * h)) as [|_]; [lia|].
        unfold th3, th2. rewrite !list_lookup_insert_ne by lia.
        rewrite Hth1 by lia. by destruct (decide (n - 1 < h)); [lia|]. }
  eexists. split; [done|].
  split; [unfold th5; rewrite !length_insert; lia|].
  intros j Hj. unfold theta_at. fold n h first second.
  rewrite list_lookup_insert. unfold th5. rewrite length_insert, Hlen4, Hlen3.
  destruct (decide (n - 1 = j ∧ n - 1 < n)) as [[<- _]|Hlast].
  { destruct (decide (n - 1 = 0)) as [|_]; [lia|].
    destruct (decide (n - 1 = h - 1)) as [|_]; [lia|].
    destruct (decide (n - 1 < h)) as [|_]; [lia|].
    destruct (decide (n - 1 = h)) as [|_]; [lia|].
    by destruct (decide (n - 1 = n - 1)). }
  rewrite list_lookup_insert, Hlen4, Hlen3.
  destruct (decide (h = j ∧ h < n)) as [[<- _]|Hmid].
  { destruct (decide (h = 0)) as [|_]; [lia|].
    destruct (decide (h = h - 1)) as [|_]; [lia|].
    destruct (decide (h < h)) as [|_]; [lia|].
    by destruct (decide (h = h)). }
  rewrite Hlookup4.
  destruct (decide (j = 0)) as [->|Hj0].
  { destruct (decide (h <= 0 < h + h)) as [|_]; [lia|].
    unfold th3, th2. rewrite list_lookup_insert_ne by lia.
    by rewrite list_lookup_insert_eq by lia. }
  destruct (decide (j = h - 1)) as [->|Hjh].
  { destruct (decide (h <= h - 1 < h + h)) as [|_]; [lia|].
    unfold th3. rewrite list_lookup_insert_eq; [done|].
    unfold th2. rewrite length_insert. lia. }
  destruct (decide (j < h)) as [Hlow|Hhigh].
  { destruct (decide (h <= j < h + h)) as [|_]; [lia|].
    unfold th3, th2. rewrite !list_lookup_insert_ne by lia.
    rewrite Hth1 by lia. by destruct (decide (j < h)). }
  destruct (decide (j = h)) as [|_]; [lia|].
  destruct (decide (j = n - 1)) as [|_]; [lia|].
  destruct (decide (h <= j < h + h)) as [Hin|Hout].
  - by destruct (decide (j < 2 * h)); [|lia].
  - destruct (decide (j < 2 * h)) as [|_]; [lia|].
    unfold th3, th2. rewrite !list_lookup_insert_ne by lia.
    rewrite Hth1 by lia. by destruct (decide (j < h)).
Qed.

End LemniscateVectors.

Lemma theta_values_exact (npoints : Z) :
  (10 <= npoints)%Z ->
  Lemniscate.theta_values npoints
  = Some (Lemniscate.theta_at npoints <$> seq 0 (Z.to_nat npoints)).
Proof.
  intros Hpoints.
  destruct (theta_values_spec npoints Hpoints) as (theta & -> & Hlen & Hlookup).
  f_equal. apply list_eq. intros j. rewrite list_lookup_fmap.
  destruct (decide (j < Z.to_nat npoints)) as [Hj|Hj].
  - rewrite lookup_seq_lt by done. simpl. by apply Hlookup.
  - rewrite lookup_seq_ge by lia. simpl. apply lookup_ge_None. lia.
Qed.

Lemma uniform_concat_lookup {A B C : Type} (g : B -> C -> A) (rows : list C)
    (cols : list B) (i j : nat) (b : B) (c : C) :
  cols !! i = Some b -> rows !! j = Some c ->
  concat ((fun c => (fun b => g b c) <$> cols) <$> rows) !! (j * length cols + i)
  = Some (g b c).
Proof.
  intros Hi. revert j. induction rows as [|c0 rows IH]; intros j Hj; [done|].
  pose proof (lookup_lt_Some _ _ _ Hi) as Hlt.
  simpl. destruct j as [|j].
  - simpl in Hj. injection Hj as ->. simpl.
    rewrite lookup_app_l by (by rewrite length_fmap).
    by rewrite list_lookup_fmap, Hi.
  - rewrite lookup_app_r by (rewrite length_fmap; lia).
    rewrite length_fmap.
    replace (S j * length cols + i - length cols) with (j * length cols + i) by lia.
    by apply IH.
Qed.

Lemma uniform_concat_length {A B C : Type} (g : B -> C -> A) (rows : list C)
    (cols : list B) :
  length (concat ((fun c => (fun b => g b c) <$> cols) <$> rows))
  = length rows * length cols.
Proof.
  induction rows as [|c rows IH]; [done|].
  rewrite fmap_cons. cbn [concat]. rewrite length_app, length_fmap, IH. simpl. lia.
Qed.

Section LemniscateCurve.

Import Lemniscate.

Variable cos : double -> double.
Variable sin : double -> double.
Variable asin : double -> double.
Variable pow : double -> double -> double.
Variable normalized : Vector3d -> Vector3d.
Variable cross : Vector3d -> Vector3d -> Vector3d.

Local Abbreviation pose := (pose_at cos sin asin pow normalized cross).
Local Abbreviation curve := (createLemniscateCurve cos sin asin pow normalized cross).

(** The loop over [i], from index [k] on. *)
Lemma lemniscate_loop (a ro : double) (offset : Vector3d) (theta omega : list double)
    (j : nat) (om : double) (m k : nat) (poses : list Affine3d) :
  omega !! j = Some om -> k + m <= length theta ->
  for_each
    (fun i poses =>
       th ← theta !! i;
       om ← omega !! j;
       Some (poses ++ [pose a ro offset th om]))
    (seq k m) poses
  = Some (poses ++ ((fun th => pose a ro offset th om) <$> take m (drop k theta))).
Proof.
  intros Hom. revert k poses. induction m as [|m IH]; intros k poses Hk.
  { simpl. by rewrite app_nil_r. }
  destruct (lookup_lt_is_Some_2 theta k) as [th Hth]; [lia|].
  assert ((theta !! k ≫= fun th => omega !! j ≫= fun om =>
             Some (poses ++ [pose a ro offset th om]))
          = Some (poses ++ [pose a ro offset th om])) as Hstep.
  { rewrite Hth. cbn [mbind option_bind]. by rewrite Hom. }
  cbn [seq for_each]. rewrite Hstep.
  rewrite IH by lia. rewrite (drop_S _ th k Hth). simpl.
  by rewrite <- (assoc_L (++)).
Qed.

(** The loop over [j], from index [k] on. *)
Lemma lemniscates_loop (a ro : double) (offset : Vector3d) (theta omega : list double)
    (m k : nat) (poses : list Affine3d) :
  k + m <= length omega ->
  for_each
    (fun j poses =>
       for_each
         (fun i poses =>
            th ← theta !! i;
            om ← omega !! j;
            Some (poses ++ [pose a ro offset th om]))
         (seq 0 (length theta)) poses)
    (seq k m) poses
  = Some (poses
          ++ concat ((fun om => (fun th => pose a ro offset th om) <$> theta)
                       <$> take m (drop k omega))).
Proof.
  revert k poses. induction m as [|m IH]; intros k poses Hk.
  { simpl. by rewrite app_nil_r. }
  destruct (lookup_lt_is_Some_2 omega k) as [om Hom]; [lia|].
  cbn [seq for_each].
  rewrite (lemniscate_loop a ro offset theta omega k om (length theta) 0 poses Hom)
    by done.
  rewrite IH by lia. rewrite (drop_S _ om k Hom), drop_0, firstn_all. simpl.
  by rewrite <- (assoc_L (++)).
Qed.

(** [createLemniscateCurve] on parameters that pass the check. *)
Lemma createLemniscateCurve_layout (a ro : double) (npoints nlemns : Z)
    (center : Vector3d) (poses : list Affine3d) :
  (a <=? 0)%float = false -> (ro <=? 0)%float = false ->
  (10 <= npoints)%Z -> (1 <= nlemns)%Z -> (nlemns * npoints <= INT_MAX)%Z ->
  curve a ro npoints nlemns center poses
  = Some (true,
          concat ((fun om => (fun th => pose a ro center th om)
                               <$> (theta_at npoints <$> seq 0 (Z.to_nat npoints)))
                    <$> ((fun j => (of_count (Z.of_nat j) * d_omega nlemns)%float)
                           <$> seq 0 (Z.to_nat nlemns)))).
Proof.
  intros Ha Hro Hpoints Hlemns Hproduct. unfold createLemniscateCurve.
  rewrite Ha, Hro.
  destruct (Z.ltb_spec npoints 10) as [|_]; [lia|].
  destruct (Z.ltb_spec nlemns 1) as [|_]; [lia|]. cbn [orb].
  rewrite (theta_values_exact npoints Hpoints), omega_values_spec.
  cbn [mbind option_bind].
  destruct (decide _) as [_|]; [|done].
  set (theta := theta_at npoints <$> seq 0 (Z.to_nat npoints)).
  set (omega := _ <$> seq 0 (Z.to_nat nlemns)).
  assert (length theta = Z.to_nat npoints) as Hlen
    by (unfold theta; by rewrite length_fmap, length_seq).
  assert (length omega = Z.to_nat nlemns) as Hlen'
    by (unfold omega; by rewrite length_fmap, length_seq).
  rewrite <- Hlen, <- Hlen'.
  rewrite (lemniscates_loop a ro center theta omega (length omega) 0 []) by done.
  by rewrite drop_0, firstn_all.
Qed.

End LemniscateCurve.

(** X25: [createLemniscateCurve] rejects a foci distance or a sphere radius
    that is zero or negative, fewer than 10 points and fewer than one
    lemniscate: it returns [false] and leaves [poses] exactly as the caller
    handed it in, whatever it held. *)
Theorem createLemniscateCurve_rejects
    (cos sin asin : double -> double) (pow : double -> double -> double)
    (normalized : Lemniscate.Vector3d -> Lemniscate.Vector3d)
    (cross : Lemniscate.Vector3d -> Lemniscate.Vector3d -> Lemniscate.Vector3d)
    (a ro : double) (npoints nlemns : Z) (center : Lemniscate.Vector3d)
    (poses : list Lemniscate.Affine3d) :
  (a <=? 0)%float = true \/ (ro <=? 0)%float = true
  \/ (npoints < 10)%Z \/ (nlemns < 1)%Z ->
  Lemniscate.createLemniscateCurve cos sin asin pow normalized cross
    a ro npoints nlemns center poses
  = Some (false, poses).
Proof.
  intros Hbad. unfold Lemniscate.createLemniscateCurve.
  assert ((a <=? 0)%float || (ro <=? 0)%float || (npoints <? 10)%Z || (nlemns <? 1)%Z
          = true) as ->; [|done].
  destruct Hbad as [->|[->|[Hpoints|Hlemns]]].
  - done.
  - by rewrite orb_true_r.
  - apply Z.ltb_lt in Hpoints. rewrite Hpoints. by rewrite orb_true_r.
  - apply Z.ltb_lt in Hlemns. rewrite Hlemns. by rewrite orb_true_r.
Qed.

Lemma createLemniscateCurve_rejects_witness :
  Lemniscate.createLemniscateCurve Lemniscate.series_cos Lemniscate.series_sin
    Lemniscate.series_asin Lemniscate.square_pow Lemniscate.scaled_unit
    Lemniscate.cross_product
    1%float 2%float 9 3 (0, 0, 0)%float
    [Lemniscate.mkAffine3d (1, 2, 3)%float
       ((1, 0, 0), (0, 1, 0), (0, 0, 1))%float]
  = Some (false,
          [Lemniscate.mkAffine3d (1, 2, 3)%float
             ((1, 0, 0), (0, 1, 0), (0, 0, 1))%float]).
Proof.
  apply (createLemniscateCurve_rejects Lemniscate.series_cos Lemniscate.series_sin
           Lemniscate.series_asin Lemniscate.square_pow Lemniscate.scaled_unit
           Lemniscate.cross_product 1%float 2%float 9 3 (0, 0, 0)%float).
  right. right. left. lia.
Defined.

(** X26: on parameters that pass the check, and whose product
    [nlemns * npoints] is an [int], [createLemniscateCurve] returns [true]
    and leaves exactly [nlemns * npoints] poses in [poses]; what [poses] held
    before the call is discarded. *)
Theorem createLemniscateCurve_count
    (cos sin asin : double -> double) (pow : double -> double -> double)
    (normalized : Lemniscate.Vector3d -> Lemniscate.Vector3d)
    (cross : Lemniscate.Vector3d -> Lemniscate.Vector3d -> Lemniscate.Vector3d)
    (a ro : double) (npoints nlemns : Z) (center : Lemniscate.Vector3d)
    (poses : list Lemniscate.Affine3d) :
  (a <=? 0)%float = false -> (ro <=? 0)%float = false ->
  (10 <= npoints)%Z -> (1 <= nlemns)%Z ->
  (nlemns * npoints <= Lemniscate.INT_MAX)%Z ->
  exists out,
    Lemniscate.createLemniscateCurve cos sin asin pow normalized cross
      a ro npoints nlemns center poses = Some (true, out)
    /\ Z.of_nat (length out) = (nlemns * npoints)%Z
    /\ Lemniscate.createLemniscateCurve cos sin asin pow normalized cross
         a ro npoints nlemns center [] = Some (true, out).
Proof.
  intros Ha Hro Hpoints Hlemns Hproduct.
  rewrite !(createLemniscateCurve_layout cos sin asin pow normalized cross
              a ro npoints nlemns center) by done.
  eexists. split; [done|]. split; [|done].
  rewrite uniform_concat_length, !length_fmap, !length_seq. lia.
Qed.

Lemma createLemniscateCurve_count_witness :
  exists out,
    Lemniscate.createLemniscateCurve Lemniscate.series_cos Lemniscate.series_sin
      Lemniscate.series_asin Lemniscate.square_pow Lemniscate.scaled_unit
      Lemniscate.cross_product
      1%float 2%float 10 3 (0, 0, 0)%float
      [Lemniscate.mkAffine3d (1, 2, 3)%float
         ((1, 0, 0), (0, 1, 0), (0, 0, 1))%float]
    = Some (true, out)
    /\ Z.of_nat (length out) = (3 * 10)%Z
    /\ Lemniscate.createLemniscateCurve Lemniscate.series_cos Lemniscate.series_sin
         Lemniscate.series_asin Lemniscate.square_pow Lemniscate.scaled_unit
         Lemniscate.cross_product
         1%float 2%float 10 3 (0, 0, 0)%float [] = Some (true, out).
Proof.
  apply (createLemniscateCurve_count Lemniscate.series_cos Lemniscate.series_sin
           Lemniscate.series_asin Lemniscate.square_pow Lemniscate.scaled_unit
           Lemniscate.cross_product 1%float 2%float 10 3 (0, 0, 0)%float).
  - reflexivity.
  - reflexivity.
  - lia.
  - lia.
  - unfold Lemniscate.INT_MAX. lia.
Defined.

(** X27: the poses come lemniscate by lemniscate, and every lemniscate uses
    the same polar angles: pose [j * npoints + i] is the pose computed for
    the [i]-th polar angle, as the vector [theta] holds it, and the offset
    [j * d_omega] of lemniscate [j]. *)
Theorem createLemniscateCurve_order
    (cos sin asin : double -> double) (pow : double -> double -> double)
    (normalized : Lemniscate.Vector3d -> Lemniscate.Vector3d)
    (cross : Lemniscate.Vector3d -> Lemniscate.Vector3d -> Lemniscate.Vector3d)
    (a ro : double) (npoints nlemns : Z) (center : Lemniscate.Vector3d)
    (poses : list Lemniscate.Affine3d) :
  (a <=? 0)%float = false -> (ro <=? 0)%float = false ->
  (10 <= npoints)%Z -> (1 <= nlemns)%Z ->
  (nlemns * npoints <= Lemniscate.INT_MAX)%Z ->
  exists out,
    Lemniscate.createLemniscateCurve cos sin asin pow normalized cross
      a ro npoints nlemns center poses = Some (true, out)
    /\ forall i j : nat,
         i < Z.to_nat npoints -> j < Z.to_nat nlemns ->
         out !! (j * Z.to_nat npoints + i)
         = Some (Lemniscate.pose_at cos sin asin pow normalized cross a ro center
                   (Lemniscate.theta_at npoints i)
                   (Lemniscate.of_count (Z.of_nat j) * Lemniscate.d_omega nlemns)%float).
Proof.
  intros Ha Hro Hpoints Hlemns Hproduct.
  rewrite (createLemniscateCurve_layout cos sin asin pow normalized cross
             a ro npoints nlemns center) by done.
  eexists. split; [done|]. intros i j Hi Hj.
  set (theta := Lemniscate.theta_at npoints <$> seq 0 (Z.to_nat npoints)).
  assert (length theta = Z.to_nat npoints) as Hlen
    by (unfold theta; by rewrite length_fmap, length_seq).
  rewrite <- Hlen at 1.
  apply (uniform_concat_lookup
           (fun th om =>
              Lemniscate.pose_at cos sin asin pow normalized cross a ro center th om)).
  - unfold theta. rewrite list_lookup_fmap, lookup_seq_lt by done. done.
  - rewrite list_lookup_fmap, lookup_seq_lt by done. done.
Qed.

Lemma createLemniscateCurve_order_witness :
  exists out,
    Lemniscate.createLemniscateCurve Lemniscate.series_cos Lemniscate.series_sin
      Lemniscate.series_asin Lemniscate.square_pow Lemniscate.scaled_unit
      Lemniscate.cross_product
      1%float 2%float 10 3 (0, 0, 0)%float [] = Some (true, out)
    /\ forall i j : nat,
         i < Z.to_nat 10 -> j < Z.to_nat 3 ->
         out !! (j * Z.to_nat 10 + i)
         = Some (Lemniscate.pose_at Lemniscate.series_cos Lemniscate.series_sin
                   Lemniscate.series_asin Lemniscate.square_pow Lemniscate.scaled_unit
                   Lemniscate.cross_product 1%float 2%float (0, 0, 0)%float
                   (Lemniscate.theta_at 10 i)
                   (Lemniscate.of_count (Z.of_nat j) * Lemniscate.d_omega 3)%float).
Proof.
  apply (createLemniscateCurve_order Lemniscate.series_cos Lemniscate.series_sin
           Lemniscate.series_asin Lemniscate.square_pow Lemniscate.scaled_unit
           Lemniscate.cross_product 1%float 2%float 10 3 (0, 0, 0)%float []).
  - reflexivity.
  - reflexivity.
  - lia.
  - lia.
  - unfold Lemniscate.INT_MAX. lia.
Defined.

Lemma theta_at_last_odd (npoints : Z) :
  (10 <= npoints)%Z -> Z.odd npoints = true ->
  Lemniscate.theta_at npoints (Z.to_nat npoints - 1) = (0 - Lemniscate.EPSILON)%float.
Proof.
  intros Hpoints Hodd. unfold Lemniscate.theta_at.
  set (n := Z.to_nat npoints). set (h := Z.to_nat (npoints ÷ 2)).
  assert (n = 2 * h + 1) as Hn.
  { unfold h, n. rewrite Z.quot_div_nonneg by lia.
    pose proof (Z.div_mod npoints 2 ltac:(lia)) as Hdm.
    rewrite Zmod_odd, Hodd in Hdm.
    assert (0 <= npoints / 2)%Z by (apply Z.div_pos; lia). lia. }
  destruct (decide (n - 1 < 2 * h)) as [|_]; [lia|].
  destruct (decide (n - 1 = 0)) as [|_]; [lia|].
  destruct (decide (n - 1 = h - 1)) as [|_]; [lia|].
  destruct (decide (n - 1 < h)) as [|_]; [lia|].
  destruct (decide (n - 1 = h)) as [|_]; [lia|].
  by destruct (decide (n - 1 = n - 1)).
Qed.

(** X28: for an odd number of points, the two loops that fill [theta] write
    [npoints - 1] of its [npoints] elements, and the last element, still 0,
    is then lowered by [EPSILON]: the last pose of every lemniscate is the
    pose computed for the polar angle [0 - EPSILON], not for an angle of the
    second half-interval. *)
Theorem createLemniscateCurve_odd_last_angle
    (cos sin asin : double -> double) (pow : double -> double -> double)
    (normalized : Lemniscate.Vector3d -> Lemniscate.Vector3d)
    (cross : Lemniscate.Vector3d -> Lemniscate.Vector3d -> Lemniscate.Vector3d)
    (a ro : double) (npoints nlemns : Z) (center : Lemniscate.Vector3d)
    (poses : list Lemniscate.Affine3d) :
  (a <=? 0)%float = false -> (ro <=? 0)%float = false ->
  (10 <= npoints)%Z -> (1 <= nlemns)%Z ->
  (nlemns * npoints <= Lemniscate.INT_MAX)%Z ->
  Z.odd npoints = true ->
  exists theta out,
    Lemniscate.theta_values npoints = Some theta
    /\ last theta = Some (0 - Lemniscate.EPSILON)%float
    /\ Lemniscate.createLemniscateCurve cos sin asin pow normalized cross
         a ro npoints nlemns center poses = Some (true, out)
    /\ forall j : nat,
         j < Z.to_nat nlemns ->
         out !! (j * Z.to_nat npoints + (Z.to_nat npoints - 1))
         = Some (Lemniscate.pose_at cos sin asin pow normalized cross a ro center
                   (0 - Lemniscate.EPSILON)%float
                   (Lemniscate.of_count (Z.of_nat j) * Lemniscate.d_omega nlemns)%float).
Proof.
  intros Ha Hro Hpoints Hlemns Hproduct Hodd.
  rewrite (theta_values_exact npoints Hpoints).
  rewrite (createLemniscateCurve_layout cos sin asin pow normalized cross
             a ro npoints nlemns center) by done.
  set (theta := Lemniscate.theta_at npoints <$> seq 0 (Z.to_nat npoints)).
  assert (length theta = Z.to_nat npoints) as Hlen
    by (unfold theta; by rewrite length_fmap, length_seq).
  assert (theta !! (Z.to_nat npoints - 1) = Some (0 - Lemniscate.EPSILON)%float)
    as Hlast.
  { unfold theta. rewrite list_lookup_fmap, lookup_seq_lt by lia. simpl.
    by rewrite theta_at_last_odd. }
  eexists _, _. split; [done|].
  split; [by rewrite last_lookup, Hlen, <- Nat.sub_1_r|].
  split; [done|]. intros j Hj. rewrite <- Hlen at 1.
  apply (uniform_concat_lookup
           (fun th om =>
              Lemniscate.pose_at cos sin asin pow normalized cross a ro center th om)).
  - exact Hlast.
  - rewrite list_lookup_fmap, lookup_seq_lt by done. done.
Qed.

Lemma createLemniscateCurve_odd_last_angle_witness :
  exists theta out,
    Lemniscate.theta_values 11 = Some theta
    /\ last theta = Some (0 - Lemniscate.EPSILON)%float
    /\ Lemniscate.createLemniscateCurve Lemniscate.series_cos Lemniscate.series_sin
         Lemniscate.series_asin Lemniscate.square_pow Lemniscate.scaled_unit
         Lemniscate.cross_product
         1%float 2%float 11 2 (0, 0, 0)%float [] = Some (true, out)
    /\ forall j : nat,
         j < Z.to_nat 2 ->
         out !! (j * Z.to_nat 11 + (Z.to_nat 11 - 1))
         = Some (Lemniscate.pose_at Lemniscate.series_cos Lemniscate.series_sin
                   Lemniscate.series_asin Lemniscate.square_pow Lemniscate.scaled_unit
                   Lemniscate.cross_product 1%float 2%float (0, 0, 0)%float
                   (0 - Lemniscate.EPSILON)%float
                   (Lemniscate.of_count (Z.of_nat j) * Lemniscate.d_omega 2)%float).
Proof.
  apply (createLemniscateCurve_odd_last_angle Lemniscate.series_cos
           Lemniscate.series_sin Lemniscate.series_asin Lemniscate.square_pow
           Lemniscate.scaled_unit Lemniscate.cross_product
           1%float 2%float 11 2 (0, 0, 0)%float []).
  - reflexivity.
  - reflexivity.
  - lia.
  - lia.
  - unfold Lemniscate.INT_MAX. lia.
  - reflexivity.
Defined.

Lemma nan_not_below_zero (x : double) :
  PrimFloat.eqb x x = false -> (x <=? 0)%float = false.
Proof.
  rewrite FloatAxioms.eqb_spec, FloatAxioms.leb_spec.
  change (Prim2SF 0) with (S754_zero false).
  destruct (Prim2SF x) as [s|s| |s m e]; try destruct s; try done.
  unfold SFeqb, SFcompare. by rewrite Z.compare_refl, Pos.compare_cont_refl.
Qed.

(** X29: the parameter check does not reject a NaN: with a foci distance and
    a sphere radius each of which is a NaN or above zero, at least 10 points
    and at least one lemniscate, [createLemniscateCurve] returns [true]. *)
Theorem createLemniscateCurve_accepts_nan
    (cos sin asin : double -> double) (pow : double -> double -> double)
    (normalized : Lemniscate.Vector3d -> Lemniscate.Vector3d)
    (cross : Lemniscate.Vector3d -> Lemniscate.Vector3d -> Lemniscate.Vector3d)
    (a ro : double) (npoints nlemns : Z) (center : Lemniscate.Vector3d)
    (poses : list Lemniscate.Affine3d) :
  PrimFloat.eqb a a = false \/ (0 <? a)%float = true ->
  PrimFloat.eqb ro ro = false \/ (0 <? ro)%float = true ->
  (10 <= npoints)%Z -> (1 <= nlemns)%Z ->
  (nlemns * npoints <= Lemniscate.INT_MAX)%Z ->
  exists out,
    Lemniscate.createLemniscateCurve cos sin asin pow normalized cross
      a ro npoints nlemns center poses = Some (true, out).
Proof.
  intros Ha Hro Hpoints Hlemns Hproduct.
  assert (forall x, PrimFloat.eqb x x = false \/ (0 <? x)%float = true ->
                    (x <=? 0)%float = false) as Hcheck.
  { intros x [Hnan|Habove]; [by apply nan_not_below_zero|].
    revert Habove. rewrite FloatAxioms.ltb_spec, FloatAxioms.leb_spec.
    change (Prim2SF 0) with (S754_zero false).
    destruct (Prim2SF x) as [s|s| |s m e]; try destruct s; done. }
  rewrite (createLemniscateCurve_layout cos sin asin pow normalized cross
             a ro npoints nlemns center) by (done || by apply Hcheck).
  by eexists.
Qed.

Lemma createLemniscateCurve_accepts_nan_witness :
  exists out,
    Lemniscate.createLemniscateCurve Lemniscate.series_cos Lemniscate.series_sin
      Lemniscate.series_asin Lemniscate.square_pow Lemniscate.scaled_unit
      Lemniscate.cross_product
      nan 2%float 10 1 (0, 0, 0)%float [] = Some (true, out).
Proof.
  apply (createLemniscateCurve_accepts_nan Lemniscate.series_cos Lemniscate.series_sin
           Lemniscate.series_asin Lemniscate.square_pow Lemniscate.scaled_unit
           Lemniscate.cross_product nan 2%float 10 1 (0, 0, 0)%float []).
  - left. reflexivity.
  - right. reflexivity.
  - lia.
  - lia.
  - unfold Lemniscate.INT_MAX. lia.
Defined.
